(** * translate_folders.py: a shallow embedding of [CodeTranslator]

    The program scans a text buffer with regular expressions, asks an
    external translator for replacement text and splices the replacements
    back into the buffer by offset.  This development embeds

    - Python [str] values as lists of Unicode code points,
    - the [re] calls of the program through a small backtracking matcher
      (list of successes in priority order, first success wins),
    - every method of [CodeTranslator] that takes part in rewriting a file,
    - the counters of the object and the file system as explicit state.

    The translator ([GoogleTranslator.translate]) and the part of the
    Unicode character database that lies outside ASCII are interfaces. *)

From stdpp Require Import base list strings gmap.
From Stdlib Require Import ZArith Lia Sorted.

Local Open Scope Z_scope.
Local Open Scope nat_scope.

(** ** Strings *)

(** A Python [str] is a sequence of code points. *)
Abbreviation str := (list Z).

Fixpoint bytes_of (s : string) : list Z :=
  match s with
  | EmptyString => []
  | String a s' => Z.of_nat (Ascii.nat_of_ascii a) :: bytes_of s'
  end.

(** Literals of this file are written as Rocq strings, which hold UTF-8
    bytes; [utf8_decode] turns them into code points. *)
Fixpoint utf8_decode (bs : list Z) : str :=
  match bs with
  | [] => []
  | b :: t =>
      if (b <? 128)%Z then b :: utf8_decode t
      else if (b <? 224)%Z then
        match t with
        | b1 :: t1 => ((b - 192) * 64 + (b1 - 128))%Z :: utf8_decode t1
        | [] => [b]
        end
      else if (b <? 240)%Z then
        match t with
        | b1 :: b2 :: t2 =>
            ((b - 224) * 4096 + (b1 - 128) * 64 + (b2 - 128))%Z :: utf8_decode t2
        | _ => [b]
        end
      else
        match t with
        | b1 :: b2 :: b3 :: t3 =>
            ((b - 240) * 262144 + (b1 - 128) * 4096 + (b2 - 128) * 64 + (b3 - 128))%Z
              :: utf8_decode t3
        | _ => [b]
        end
  end.

Definition u (s : string) : str := utf8_decode (bytes_of s).

Definition str_eqb (a b : str) : bool := bool_decide (a = b).

(** [s[a:b]], [s[:a]] and [s[a:]] for offsets that are not negative. *)
Definition slice (a b : nat) (s : str) : str := take (b - a) (drop a s).

Fixpoint startswith (p s : str) : bool :=
  match p, s with
  | [], _ => true
  | x :: p', y :: s' => (x =? y)%Z && startswith p' s'
  | _ :: _, [] => false
  end.

Definition endswith (p s : str) : bool := startswith (rev p) (rev s).

(** [p in s] for strings. *)
Fixpoint str_in (p s : str) : bool :=
  startswith p s ||
  match s with
  | [] => false
  | _ :: s' => str_in p s'
  end.

Fixpoint join (sep : str) (l : list str) : str :=
  match l with
  | [] => []
  | [x] => x
  | x :: l' => x ++ sep ++ join sep l'
  end.

(** [s.split(sep)] for a one-character separator: never the empty list. *)
Fixpoint split_on (sep : Z) (s : str) : list str :=
  match s with
  | [] => [[]]
  | c :: t =>
      if (c =? sep)%Z then [] :: split_on sep t
      else match split_on sep t with
           | h :: r => (c :: h) :: r
           | [] => [[c]]
           end
  end.

(** [s.replace(old, new)]: occurrences are taken left to right and do not
    overlap; [skip] counts the characters of an occurrence still to drop. *)
Fixpoint replace_from (old new : str) (skip : nat) (s : str) : str :=
  match s with
  | [] => []
  | c :: t =>
      match skip with
      | S k => replace_from old new k t
      | 0 =>
          if startswith old s
          then new ++ replace_from old new (length old - 1) t
          else c :: replace_from old new 0 t
      end
  end.

Definition replace (old new s : str) : str :=
  match old with
  | [] => new ++ flat_map (fun c => c :: new) s
  | _ :: _ => replace_from old new 0 s
  end.

(** ** The Unicode character database

    ASCII is fixed; what Python's tables say about the other code points is
    an interface, so that the theorems hold for every version of them. *)
Class UnicodeData := {
  uni_isspace : Z -> bool;
  uni_isalnum : Z -> bool;
  uni_isdigit : Z -> bool;
  uni_lower : Z -> str;
  (** the properties Cased and Case_Ignorable, which [str.lower] consults
      around a capital sigma *)
  uni_cased : Z -> bool;
  uni_case_ignorable : Z -> bool;
  (** the lower-case form of a character is never the empty string *)
  uni_lower_nonempty : forall c, uni_lower c <> [];
  (** white space is neither a letter nor a number *)
  uni_space_not_alnum : forall c, uni_isspace c = true -> uni_isalnum c = false
}.

Definition in_range (lo hi c : Z) : bool := ((lo <=? c) && (c <=? hi))%Z.

Definition is_ascii (c : Z) : bool := (c <? 128)%Z.

Section Characters.
Context {U : UnicodeData}.

(** [str.isspace] on one character, also [\s] of [re]. *)
Definition isspace (c : Z) : bool :=
  if is_ascii c
  then in_range 9 13 c || in_range 28 31 c || (c =? 32)%Z
  else uni_isspace c.

Definition isalnum (c : Z) : bool :=
  if is_ascii c
  then in_range 48 57 c || in_range 65 90 c || in_range 97 122 c
  else uni_isalnum c.

(** [\w] of [re] on a [str] pattern. *)
Definition is_word (c : Z) : bool := isalnum c || (c =? 95)%Z.

Definition isdigit (c : Z) : bool :=
  if is_ascii c then in_range 48 57 c else uni_isdigit c.

Definition lower_char (c : Z) : str :=
  if is_ascii c
  then (if in_range 65 90 c then [(c + 32)%Z] else [c])
  else uni_lower c.

Fixpoint skip_case_ignorable (s : str) : str :=
  match s with
  | [] => []
  | c :: t => if uni_case_ignorable c then skip_case_ignorable t else s
  end.

(** The capital sigma U+03A3 at the end of a word: a cased character stands
    before it and none after it, the case-ignorable characters on either
    side set aside.  [before] is the text in front of it, read backwards. *)
Definition final_sigma (before after : str) : bool :=
  match skip_case_ignorable before with
  | c :: _ => uni_cased c
  | [] => false
  end &&
  match skip_case_ignorable after with
  | c :: _ => negb (uni_cased c)
  | [] => true
  end.

(** [str.lower]: every character by its own lower-case form, but for the
    capital sigma, which becomes the final sigma U+03C2 at the end of a word
    and the small sigma U+03C3 elsewhere. *)
Fixpoint lower_from (before : str) (s : str) : str :=
  match s with
  | [] => []
  | c :: t =>
      (if (c =? 931)%Z
       then [if final_sigma before t then 962%Z else 963%Z]
       else lower_char c) ++ lower_from (c :: before) t
  end.

Definition lower (s : str) : str := lower_from [] s.

Fixpoint lstrip (s : str) : str :=
  match s with
  | [] => []
  | c :: t => if isspace c then lstrip t else s
  end.

Definition rstrip (s : str) : str := rev (lstrip (rev s)).

Definition strip (s : str) : str := rstrip (lstrip s).

(** [s.split()]: split at runs of whitespace, no empty pieces. *)
Fixpoint split_ws_aux (cur : str) (s : str) : list str :=
  match s with
  | [] => match cur with [] => [] | _ => [cur] end
  | c :: t =>
      if isspace c
      then match cur with
           | [] => split_ws_aux [] t
           | _ => cur :: split_ws_aux [] t
           end
      else split_ws_aux (cur ++ [c]) t
  end.

Definition split_ws (s : str) : list str := split_ws_aux [] s.

End Characters.

(** ** Regular expressions *)

Inductive cset : Type :=
| CLit (c : Z)
| CRange (lo hi : Z)
| CDot
| CSpace
| CWord
| CNot (a : cset)
| CUnion (a b : cset).

Inductive regex : Type :=
| REps
| RSet (cs : cset)
| RSeq (a b : regex)
| RAlt (a b : regex)
| RStar (greedy : bool) (a : regex)
| RGroup (n : nat) (a : regex)
| RWordB.

Definition RPlus (a : regex) : regex := RSeq a (RStar true a).
Definition ROpt (a : regex) : regex := RAlt a REps.

Fixpoint rlit_of (cs : str) : regex :=
  match cs with
  | [] => REps
  | [c] => RSet (CLit c)
  | c :: t => RSeq (RSet (CLit c)) (rlit_of t)
  end.

Definition rlit (s : string) : regex := rlit_of (u s).

Fixpoint ralt (l : list regex) : regex :=
  match l with
  | [] => REps
  | [a] => a
  | a :: t => RAlt a (ralt t)
  end.

Fixpoint cunion (l : list cset) : cset :=
  match l with
  | [] => CNot (CUnion CSpace (CNot CSpace))
  | [a] => a
  | a :: t => CUnion a (cunion t)
  end.

(** A point of the subject string during a match attempt. *)
Record mstate := {
  m_pos : nat;
  m_prev : option Z;
  m_rest : str;
  m_caps : list (nat * (nat * nat))
}.

Record rmatch := {
  ms_start : nat;
  ms_end : nat;
  ms_caps : list (nat * (nat * nat))
}.

Fixpoint cap_lookup (n : nat) (caps : list (nat * (nat * nat))) : option (nat * nat) :=
  match caps with
  | [] => None
  | (k, se) :: t => if k =? n then Some se else cap_lookup n t
  end.

Section Matcher.
Context {U : UnicodeData}.
Variable dotall : bool.

Fixpoint cs_mem (cs : cset) (c : Z) : bool :=
  match cs with
  | CLit x => (c =? x)%Z
  | CRange lo hi => in_range lo hi c
  | CDot => dotall || negb (c =? 10)%Z
  | CSpace => isspace c
  | CWord => is_word c
  | CNot a => negb (cs_mem a c)
  | CUnion a b => cs_mem a c || cs_mem b c
  end.

Definition word_before (st : mstate) : bool :=
  match m_prev st with Some c => is_word c | None => false end.

Definition word_after (st : mstate) : bool :=
  match m_rest st with c :: _ => is_word c | [] => false end.

Definition at_boundary (st : mstate) : bool :=
  xorb (word_before st) (word_after st).

Definition set_cap (n from : nat) (st : mstate) : mstate :=
  {| m_pos := m_pos st; m_prev := m_prev st; m_rest := m_rest st;
     m_caps := (n, (from, m_pos st)) :: m_caps st |}.

(** Repetition.  The iterations that consume nothing are dropped (no
    repetition of the program has a body that matches the empty string);
    every other one shortens the rest, so that [fuel] above its length is
    enough (lemma [iterate_fuel]). *)
Fixpoint iterate (step : mstate -> list mstate) (greedy : bool)
         (fuel : nat) (st : mstate) : list mstate :=
  match fuel with
  | 0 => [st]
  | S f =>
      let more :=
        flat_map (fun st' => if m_pos st <? m_pos st'
                             then iterate step greedy f st' else [])
                 (step st) in
      if greedy then more ++ [st] else st :: more
  end.

(** All the ways [r] matches at [st], in the order a backtracking engine
    tries them. *)
Fixpoint run (r : regex) (st : mstate) : list mstate :=
  match r with
  | REps => [st]
  | RSet cs =>
      match m_rest st with
      | c :: t =>
          if cs_mem cs c
          then [ {| m_pos := S (m_pos st); m_prev := Some c; m_rest := t;
                    m_caps := m_caps st |} ]
          else []
      | [] => []
      end
  | RSeq a b => flat_map (run b) (run a st)
  | RAlt a b => run a st ++ run b st
  | RStar g a => iterate (run a) g (S (length (m_rest st))) st
  | RGroup n a => map (set_cap n (m_pos st)) (run a st)
  | RWordB => if at_boundary st then [st] else []
  end.

Definition first_match (r : regex) (st : mstate) (must_advance : bool) : option mstate :=
  head (List.filter (fun st' => negb must_advance || (m_pos st <? m_pos st'))
                    (run r st)).

Definition mk_match (i : nat) (e : mstate) : rmatch :=
  {| ms_start := i; ms_end := m_pos e; ms_caps := m_caps e |}.

(** The matches of [re.finditer]: leftmost first, the search resumes where
    the last match ended; after an empty match the same position is tried
    once more for a match that is not empty. *)
Fixpoint finditer_from (r : regex) (i : nat) (prev : option Z) (rest : str)
         (resume : nat) : list rmatch :=
  let st := {| m_pos := i; m_prev := prev; m_rest := rest; m_caps := [] |} in
  let found :=
    if i <? resume then ([], resume)
    else match first_match r st false with
         | None => ([], resume)
         | Some e =>
             if m_pos e =? i
             then match first_match r st true with
                  | None => ([mk_match i e], resume)
                  | Some e2 => ([mk_match i e; mk_match i e2], m_pos e2)
                  end
             else ([mk_match i e], m_pos e)
         end in
  found.1 ++
  match rest with
  | [] => []
  | c :: t => finditer_from r (S i) (Some c) t found.2
  end.

Definition finditer (r : regex) (s : str) : list rmatch :=
  finditer_from r 0 None s 0.

(** [match.group(0)] and [match.group(n)]. *)
Definition group0 (s : str) (m : rmatch) : str := slice (ms_start m) (ms_end m) s.

Definition group (n : nat) (s : str) (m : rmatch) : str :=
  match cap_lookup n (ms_caps m) with
  | Some (a, b) => slice a b s
  | None => []
  end.

(** [bool(re.search(r, s))]. *)
Definition re_search (r : regex) (s : str) : bool :=
  match finditer r s with
  | [] => false
  | _ :: _ => true
  end.

Fixpoint sub_from (repl s : str) (ms : list rmatch) (last : nat) : str :=
  match ms with
  | [] => drop last s
  | m :: ms' => slice last (ms_start m) s ++ repl ++ sub_from repl s ms' (ms_end m)
  end.

(** [re.sub(r, repl, s)] for a replacement without group references. *)
Definition re_sub (r : regex) (repl s : str) : str :=
  sub_from repl s (finditer r s) 0.

End Matcher.

(** The range of the patterns of the program, U+4E00 to U+9FFF. *)
Definition is_cjk (c : Z) : bool := in_range 19968 40959 c.

(** The tables used to evaluate the program on concrete buffers, which hold
    ASCII and CJK characters only: the characters of the CJK range are
    letters without case, the white space outside ASCII is the set of
    [str.isspace], no other character is a letter or a digit.  The cased
    characters are the ASCII letters and the case-ignorable ones those of
    ASCII; [lower] consults them next to a capital sigma only, which these
    buffers do not hold. *)

Definition sample_isspace (c : Z) : bool :=
  (c =? 133)%Z || (c =? 160)%Z || (c =? 5760)%Z || in_range 8192 8202 c ||
  (c =? 8232)%Z || (c =? 8233)%Z || (c =? 8239)%Z || (c =? 8287)%Z || (c =? 12288)%Z.

Definition sample_space_not_cjk (c : Z) : sample_isspace c = true -> is_cjk c = false :=
  fun H =>
    match is_cjk c as b return is_cjk c = b -> b = false with
    | false => fun _ => eq_refl
    | true => fun Hc =>
        ltac:(exfalso; unfold sample_isspace, is_cjk, in_range in *; lia)
    end eq_refl.

Definition sample_unicode : UnicodeData := {|
  uni_isspace := sample_isspace;
  uni_isalnum := is_cjk;
  uni_isdigit := fun _ => false;
  uni_lower := fun c => [c];
  uni_cased := fun c => in_range 65 90 c || in_range 97 122 c;
  uni_case_ignorable := fun c =>
    (c =? 39)%Z || (c =? 46)%Z || (c =? 58)%Z || (c =? 94)%Z || (c =? 96)%Z;
  uni_lower_nonempty := fun c (H : [c] = []) =>
    eq_ind [c] (fun l : str => match l with [] => False | _ :: _ => True end) I [] H;
  uni_space_not_alnum := sample_space_not_cjk
|}.

(** ** The external translator

    [GoogleTranslator(source='zh-CN', target='en').translate]: a function of
    the text it is given; [None] stands for a raised exception. *)
Class Translator := { translate : str -> option str }.

(** ** pathlib

    [Path(p).suffix] for POSIX paths: the last component that is neither
    empty nor a dot, from its last dot on, unless that dot is its first or
    its last character. *)
Definition path_name (p : str) : str :=
  List.last (List.filter (fun x => negb (str_eqb x []) && negb (str_eqb x (u ".")))
                         (split_on 47 p)) [].

Fixpoint rfind_from (c : Z) (i : nat) (s : str) : option nat :=
  match s with
  | [] => None
  | x :: t =>
      match rfind_from c (S i) t with
      | Some j => Some j
      | None => if (x =? c)%Z then Some i else None
      end
  end.

Definition path_suffix (p : str) : str :=
  let name := path_name p in
  match rfind_from 46 0 name with
  | Some i => if (0 <? i) && (i <? length name - 1) then drop i name else []
  | None => []
  end.

(** ** Dictionaries of the program *)

(** The values of the ['type'] key. *)
Inductive text_type : Type :=
| comment
| string_literal
| variable_declaration
| variable_usage.

Record comment_data := {
  c_start : nat;
  c_end : nat;
  c_text : str
}.

Record string_data := {
  s_start : nat;
  s_end : nat;
  s_text : str;
  s_content : str
}.

Record identifier_data := {
  i_start : nat;
  i_end : nat;
  i_text : str;
  i_name : str;
  i_full_match : str;
  i_type : text_type
}.

(** The third argument of [translate_text]: [None], a dictionary with the
    key ['content'] or a dictionary with the key ['name']. *)
Inductive context : Type :=
| CtxNone
| CtxString (d : string_data)
| CtxIdentifier (d : identifier_data).

(** The entries of [elements_to_translate]. *)
Record element := {
  e_start : nat;
  e_end : nat;
  e_text : str;
  e_type : text_type;
  e_context : context
}.

Record patterns := {
  single_line : regex;
  multi_line : regex
}.

(** [sorted(l, key=..., reverse=True)]: descending and stable. *)
Fixpoint insert_desc {A} (key : A -> nat) (x : A) (l : list A) : list A :=
  match l with
  | [] => [x]
  | y :: l' => if key x <? key y then y :: insert_desc key x l' else x :: l
  end.

Fixpoint sorted_desc {A} (key : A -> nat) (l : list A) : list A :=
  match l with
  | [] => []
  | x :: l' => insert_desc key x (sorted_desc key l')
  end.

(** ** The patterns *)

Definition dquote : Z := 34.
Definition squote : Z := 39.
Definition backslash : Z := 92.
Definition star : Z := 42.
Definition newline : Z := 10.

(** [[\s\S]] *)
Definition any_char : cset := CUnion CSpace (CNot CSpace).

(** The class of the CJK block, U+4E00 to U+9FFF. *)
Definition cjk : cset := CRange 19968 40959.

(** The CJK block, the underscore, ASCII letters and ASCII digits. *)
Definition ident_char : cset :=
  cunion [cjk; CLit 95; CRange 97 122; CRange 65 90; CRange 48 57].

(** [#.*] *)
Definition hash_comment : regex := RSeq (rlit "#") (RStar true (RSet CDot)).

(** [//.*] *)
Definition slash_comment : regex := RSeq (rlit "//") (RStar true (RSet CDot)).

(** [/\*[\s\S]*?\*/] *)
Definition block_comment : regex :=
  RSeq (rlit "/*") (RSeq (RStar false (RSet any_char)) (rlit "*/")).

(** The block pattern of [.py]: three single quotes, as few characters as
    possible, three single quotes; or the same with double quotes. *)
Definition py_block : regex :=
  RAlt (RSeq (rlit "'''") (RSeq (RStar false (RSet any_char)) (rlit "'''")))
       (RSeq (rlit_of [dquote; dquote; dquote])
             (RSeq (RStar false (RSet any_char)) (rlit_of [dquote; dquote; dquote]))).

(** [<!--.*?-->] and [<!--[\s\S]*?-->] *)
Definition html_single : regex :=
  RSeq (rlit "<!--") (RSeq (RStar false (RSet CDot)) (rlit "-->")).
Definition html_multi : regex :=
  RSeq (rlit "<!--") (RSeq (RStar false (RSet any_char)) (rlit "-->")).

Definition c_like : patterns :=
  {| single_line := slash_comment; multi_line := block_comment |}.

Definition comment_patterns : list (str * patterns) :=
  [ (u ".py", {| single_line := hash_comment; multi_line := py_block |});
    (u ".cpp", c_like);
    (u ".c", c_like);
    (u ".java", c_like);
    (u ".js", c_like);
    (u ".ts", c_like);
    (u ".html", {| single_line := html_single; multi_line := html_multi |});
    (u ".css", c_like);
    (u ".php", {| single_line := RAlt hash_comment slash_comment;
                  multi_line := block_comment |});
    (u ".h", c_like);
    (u ".ino", c_like);
    (u ".md", {| single_line := REps; multi_line := REps |}) ].

Fixpoint dict_get {V} (k : str) (d : list (str * V)) : option V :=
  match d with
  | [] => None
  | (k', v) :: d' => if str_eqb k' k then Some v else dict_get k d'
  end.

(** The pattern of [extract_strings]: a double quote, then as many as
    possible of: a backslash with any character but the newline, or one
    character that is neither the double quote nor the backslash; then a
    double quote. *)
Definition string_pattern : regex :=
  RSeq (RSet (CLit dquote))
       (RSeq (RStar true (RAlt (RSeq (RSet (CLit backslash)) (RSet CDot))
                               (RSet (CNot (CUnion (CLit dquote) (CLit backslash))))))
             (RSet (CLit dquote))).

(** The declaration pattern: a word boundary, group 1 with one of the
    type keywords, white space (one character or more), group 2 with an
    optional star, optional white space, one CJK character and any number
    of identifier characters, and a word boundary. *)
Definition variable_pattern : regex :=
  RSeq RWordB
    (RSeq (RGroup 1 (ralt [rlit "int"; rlit "char"; rlit "float"; rlit "double";
                           rlit "void"; rlit "bool"; rlit "string"; rlit "long";
                           rlit "short"]))
      (RSeq (RPlus (RSet CSpace))
        (RSeq (RGroup 2 (RSeq (ROpt (RSet (CLit star)))
                          (RSeq (RStar true (RSet CSpace))
                            (RSeq (RSet cjk) (RStar true (RSet ident_char))))))
              RWordB))).

(** The usage pattern: a word boundary, group 1 with one CJK character and
    any number of identifier characters, and a word boundary. *)
Definition variable_usage_pattern : regex :=
  RSeq RWordB
    (RSeq (RGroup 1 (RSeq (RSet cjk) (RStar true (RSet ident_char)))) RWordB).

(** [[^\w\s]] and [\s+] of [translate_identifier_name]. *)
Definition punctuation : regex := RSet (CNot (CUnion CWord CSpace)).
Definition whitespace_run : regex := RPlus (RSet CSpace).

(** The languages with identifier extraction. *)
Definition identifier_extensions : list str :=
  [u ".c"; u ".cpp"; u ".h"; u ".java"; u ".js"; u ".ts"].

(** ** Counters and files *)

Record Stats := {
  processed_files : nat;
  translated_comments : nat;
  translated_strings : nat;
  translated_markdown : nat;
  translated_identifiers : nat
}.

Definition Stats_zero : Stats :=
  {| processed_files := 0; translated_comments := 0; translated_strings := 0;
     translated_markdown := 0; translated_identifiers := 0 |}.

Definition incr_processed (st : Stats) : Stats :=
  {| processed_files := S (processed_files st);
     translated_comments := translated_comments st;
     translated_strings := translated_strings st;
     translated_markdown := translated_markdown st;
     translated_identifiers := translated_identifiers st |}.

Definition incr_comments (st : Stats) : Stats :=
  {| processed_files := processed_files st;
     translated_comments := S (translated_comments st);
     translated_strings := translated_strings st;
     translated_markdown := translated_markdown st;
     translated_identifiers := translated_identifiers st |}.

Definition incr_strings (st : Stats) : Stats :=
  {| processed_files := processed_files st;
     translated_comments := translated_comments st;
     translated_strings := S (translated_strings st);
     translated_markdown := translated_markdown st;
     translated_identifiers := translated_identifiers st |}.

Definition incr_markdown (st : Stats) : Stats :=
  {| processed_files := processed_files st;
     translated_comments := translated_comments st;
     translated_strings := translated_strings st;
     translated_markdown := S (translated_markdown st);
     translated_identifiers := translated_identifiers st |}.

Definition incr_identifiers (st : Stats) : Stats :=
  {| processed_files := processed_files st;
     translated_comments := translated_comments st;
     translated_strings := translated_strings st;
     translated_markdown := translated_markdown st;
     translated_identifiers := S (translated_identifiers st) |}.

(** The files of the machine: [open(p, 'r')] raises when [p] has no
    content here, [open(p, 'w')] raises when [p] is write-protected, and
    the file is then as it was.  [disk] holds for a path the text that
    [read()] returns.  A file that opens for writing takes the whole text:
    the texts of the model can all be encoded and stored.  (A text with a
    lone surrogate is outside it: Python empties the file at [open] and
    raises at [write].  So is a written carriage return, which the next
    [read()] would return as a line feed.) *)
Record World := {
  stats : Stats;
  disk : gmap str str;
  read_only : gset str
}.

Definition read_file (w : World) (p : str) : option str := disk w !! p.

Definition write_file (w : World) (p : str) (data : str) : option World :=
  if bool_decide (p ∈ read_only w) then None
  else Some {| stats := stats w; disk := <[p := data]> (disk w);
               read_only := read_only w |}.

Definition with_stats (w : World) (st : Stats) : World :=
  {| stats := st; disk := disk w; read_only := read_only w |}.

(** What [process_file] did: [Written] is the return value [True]; [Skipped]
    is [False] from the write decision, [Failed] is [False] from the
    exception handler at the file boundary. *)
Inductive outcome : Type := Written | Skipped | Failed.

(** ** The methods of [CodeTranslator] *)

Section Program.
Context {U : UnicodeData} {T : Translator}.

(** [bool(re.search(r'[一-鿿]', text))] *)
Definition contains_chinese (text : str) : bool :=
  re_search false (RSet cjk) text.

Definition extract_comments (content file_extension : str) : list comment_data :=
  match dict_get file_extension comment_patterns with
  | None => []
  | Some pats =>
      let keep (m : rmatch) : list comment_data :=
        let comment_text := group0 content m in
        if contains_chinese comment_text
        then [ {| c_start := ms_start m; c_end := ms_end m; c_text := comment_text |} ]
        else [] in
      let comments :=
        flat_map keep (finditer false (single_line pats) content) ++
        flat_map keep (finditer true (multi_line pats) content) in
      sorted_desc c_start comments
  end.

Definition extract_strings (content file_extension : str) : list string_data :=
  let keep (m : rmatch) : list string_data :=
    let full_string := group0 content m in
    let string_content := slice 1 (length full_string - 1) full_string in
    if contains_chinese string_content
    then [ {| s_start := ms_start m; s_end := ms_end m; s_text := full_string;
              s_content := string_content |} ]
    else [] in
  sorted_desc s_start (flat_map keep (finditer false string_pattern content)).

Definition extract_identifiers (content file_extension : str) : list identifier_data :=
  if negb (existsb (str_eqb file_extension) identifier_extensions) then []
  else
    let declaration (m : rmatch) : list identifier_data :=
      let identifier_name := strip (group 2 content m) in
      if contains_chinese identifier_name
      then [ {| i_start := ms_start m; i_end := ms_end m; i_text := group0 content m;
                i_name := identifier_name; i_full_match := group0 content m;
                i_type := variable_declaration |} ]
      else [] in
    let usage (m : rmatch) : list identifier_data :=
      let var_name := group 1 content m in
      let context_start := ms_start m - 2 in
      let context_end := Nat.min (length content) (ms_end m + 2) in
      let context := slice context_start context_end content in
      if str_in [dquote] context || str_in [squote] context ||
         str_in (u "//") context || str_in (u "/*") context
      then []
      else if contains_chinese var_name
      then [ {| i_start := ms_start m; i_end := ms_end m; i_text := var_name;
                i_name := var_name; i_full_match := var_name;
                i_type := variable_usage |} ]
      else [] in
    sorted_desc i_start
      (flat_map declaration (finditer false variable_pattern content) ++
       flat_map usage (finditer false variable_usage_pattern content)).

Definition translate_identifier_name (chinese_name : str) : str :=
  let clean_name := strip (replace [star] [] chinese_name) in
  match translate clean_name with
  | None => chinese_name
  | Some translated =>
      let cleaned := re_sub false punctuation [] translated in
      let snake_case := lower (re_sub false whitespace_run (u "_") (strip cleaned)) in
      let snake_case :=
        match snake_case with
        | c :: _ => if isdigit c then u "var_" ++ snake_case else snake_case
        | [] => snake_case
        end in
      if str_in [star] chinese_name then star :: snake_case else snake_case
  end.

(** The lines of a block comment, each translated when it has CJK text. *)
Definition translate_line (line : str) : option str :=
  if contains_chinese (strip line) then translate (strip line) else Some line.

(** No handler in this method: [None] is the exception of the translator,
    on its way to the caller. *)
Definition translate_comment (comment_text : str) : option str :=
  if startswith (u "#") comment_text then
    let content := lstrip (drop 1 comment_text) in
    if contains_chinese content
    then translated ← translate content; Some (u "# " ++ translated)
    else Some comment_text
  else if startswith (u "//") comment_text then
    let content := lstrip (drop 2 comment_text) in
    if contains_chinese content
    then translated ← translate content; Some (u "// " ++ translated)
    else Some comment_text
  else if startswith (u "/*") comment_text && endswith (u "*/") comment_text then
    let content := strip (slice 2 (length comment_text - 2) comment_text) in
    if contains_chinese content
    then
      translated ← translate content;
      if str_in [newline] comment_text
      then
        translated_lines ← mapM translate_line (split_on newline content);
        Some (u "/*" ++ [newline] ++ join [newline] translated_lines ++ [newline] ++ u "*/")
      else Some (u "/* " ++ translated ++ u " */")
    else Some comment_text
  else if startswith (u "<!--") comment_text && endswith (u "-->") comment_text then
    let content := strip (slice 4 (length comment_text - 3) comment_text) in
    if contains_chinese content
    then translated ← translate content; Some (u "<!-- " ++ translated ++ u " -->")
    else Some comment_text
  else Some comment_text.

Definition translate_string (d : string_data) : str :=
  let string_content := s_content d in
  if negb (contains_chinese string_content) then s_text d
  else match translate string_content with
       | Some translated_content => [dquote] ++ translated_content ++ [dquote]
       | None => s_text d
       end.

(** [parts[-1] = x] on a list that is not empty. *)
Definition set_last (parts : list str) (x : str) : list str :=
  <[length parts - 1 := x]> parts.

Definition translate_identifier (d : identifier_data) : str :=
  let chinese_name := i_name d in
  if negb (contains_chinese chinese_name) then i_text d
  else
    let translated_name := translate_identifier_name chinese_name in
    match i_type d with
    | variable_declaration =>
        let original_text := i_full_match d in
        let parts := split_ws original_text in
        if 2 <=? length parts
        then join (u " ") (set_last parts translated_name)
        else replace chinese_name translated_name original_text
    | variable_usage => translated_name
    | comment | string_literal =>
        (* not reached: [extract_identifiers] sets one of the two types above *)
        translated_name
    end.

(** The handler of this method returns [text] for every exception. *)
Definition translate_text (text : str) (ty : text_type) (ctx : context) : str :=
  match ty with
  | comment =>
      match translate_comment text with
      | Some r => r
      | None => text
      end
  | string_literal =>
      match ctx with
      | CtxString d => translate_string d
      | _ => text
      end
  | variable_declaration | variable_usage =>
      match ctx with
      | CtxIdentifier d => translate_identifier d
      | _ => text
      end
  end.

(** One turn of the loop of [process_markdown_file]; the state is the list
    [lines], [translated_count] and the counters of the object. *)
Definition markdown_step (acc : list str * nat * Stats) (i : nat) : list str * nat * Stats :=
  let '(lines, translated_count, st) := acc in
  match lines !! i with
  | None => acc
  | Some line =>
      if contains_chinese line
      then match translate line with
           | Some translated =>
               (<[i := translated]> lines, S translated_count, incr_markdown st)
           | None => acc
           end
      else acc
  end.

Definition process_markdown_file (st : Stats) (content : str) : str * nat * Stats :=
  let lines := split_on newline content in
  let '(lines', translated_count, st') :=
    fold_left markdown_step (seq 0 (length lines)) (lines, 0, st) in
  (join [newline] lines', translated_count, st').

(** [content[:start] + translated + content[end:]] *)
Definition splice (content : str) (start end_ : nat) (translated : str) : str :=
  take start content ++ translated ++ drop end_ content.

(** One turn of the identifier loop of [process_file]; the state is
    [content_after_identifiers], the counters and [changes_made]. *)
Definition identifier_step (acc : str * Stats * bool) (identifier : identifier_data)
  : str * Stats * bool :=
  let '(content_after_identifiers, st, changes_made) := acc in
  let original_text := i_text identifier in
  let translated := translate_text original_text (i_type identifier) (CtxIdentifier identifier) in
  if negb (str_eqb translated original_text)
  then (splice content_after_identifiers (i_start identifier) (i_end identifier) translated,
        incr_identifiers st, true)
  else acc.

Definition element_of_comment (c : comment_data) : element :=
  {| e_start := c_start c; e_end := c_end c; e_text := c_text c;
     e_type := comment; e_context := CtxNone |}.

Definition element_of_string (s : string_data) : element :=
  {| e_start := s_start s; e_end := s_end s; e_text := s_text s;
     e_type := string_literal; e_context := CtxString s |}.

(** One turn of the comment and string loop; the state is [new_content],
    the counters and [changes_made]. *)
Definition element_step (acc : str * Stats * bool) (el : element) : str * Stats * bool :=
  let '(new_content, st, changes_made) := acc in
  let original_text := e_text el in
  let translated := translate_text original_text (e_type el) (e_context el) in
  if negb (str_eqb translated original_text)
  then (splice new_content (e_start el) (e_end el) translated,
        match e_type el with
        | comment => incr_comments st
        | _ => incr_strings st
        end,
        true)
  else acc.

(** The part of [process_file] between reading and writing, for a file
    that is not Markdown: the final buffer, the counters, [changes_made]. *)
Definition rewrite_code (st : Stats) (original_content file_extension : str)
  : str * Stats * bool :=
  let content := original_content in
  let identifiers := extract_identifiers content file_extension in
  let '(content, st, changes_made) :=
    match identifiers with
    | [] => (content, st, false)
    | _ :: _ => fold_left identifier_step identifiers (content, st, false)
    end in
  let comments := extract_comments content file_extension in
  let strings := extract_strings content file_extension in
  let elements_to_translate :=
    sorted_desc e_start (map element_of_comment comments ++ map element_of_string strings) in
  fold_left element_step elements_to_translate (content, st, changes_made).

Definition process_file (w : World) (file_path : str) : World * outcome :=
  match read_file w file_path with
  | None => (w, Failed)
  | Some original_content =>
      let file_extension := lower (path_suffix file_path) in
      if str_eqb file_extension (u ".md") then
        let '(new_content, translated_count, st) :=
          process_markdown_file (stats w) original_content in
        let w := with_stats w st in
        if 0 <? translated_count then
          match write_file w file_path new_content with
          | Some w' => (with_stats w' (incr_processed (stats w')), Written)
          | None => (w, Failed)
          end
        else (w, Skipped)
      else
        let '(new_content, st, changes_made) :=
          rewrite_code (stats w) original_content file_extension in
        let w := with_stats w st in
        if changes_made && negb (str_eqb new_content original_content) then
          match write_file w file_path new_content with
          | Some w' => (with_stats w' (incr_processed (stats w')), Written)
          | None => (w, Failed)
          end
        else (w, Skipped)
  end.

End Program.

(** ** Sample translators, for evaluating the program *)

(** A translator that knows the entries of a table and raises on every
    other text. *)
Definition table_translator (tbl : list (str * str)) : Translator :=
  {| translate s := dict_get s tbl |}.

(** A translator that answers [t] to every request. *)
Definition const_translator (t : str) : Translator :=
  {| translate _ := Some t |}.

(** A translator whose every call raises. *)
Definition failing_translator : Translator :=
  {| translate _ := None |}.

(** ** The patcher, as the specification describes it *)

(** The buffer [content] up to [hi], cut at the spans of [edits] (listed from
    right to left), with the new text of each span in place of its range and
    the text between the spans as it is in [content]. *)
Fixpoint patched (content : str) (hi : nat) (edits : list (nat * nat * str)) : str :=
  match edits with
  | [] => take hi content
  | (s, e, t) :: rest => patched content s rest ++ t ++ slice e hi content
  end.

(** Where the character at offset [p] of the original buffer stands in the
    patched buffer, when [p] is in none of the spans. *)
Fixpoint moved (edits : list (nat * nat * str)) (p : nat) : nat :=
  match edits with
  | [] => p
  | (s, e, t) :: rest =>
      if e <=? p then moved rest s + length t + (p - e) else moved rest p
  end.

Section PatcherSpec.
Context {U : UnicodeData} {T : Translator}.

Definition overlap (a b : element) : Prop :=
  e_start a < e_end b ∧ e_start b < e_end a.

(** The spans of [els] lie in [content], carry its text, come by descending
    start offset and do not overlap one another. *)
Definition valid_spans (content : str) (els : list element) : Prop :=
  Forall (fun el => e_start el < e_end el ∧ e_end el ≤ length content ∧
                    e_text el = slice (e_start el) (e_end el) content) els ∧
  StronglySorted (fun a b => e_start b ≤ e_start a) els ∧
  ForallOrdPairs (fun a b => ¬ overlap a b) els.

(** The replacement that the loop of [process_file] computes for a span. *)
Definition new_text (el : element) : str :=
  translate_text (e_text el) (e_type el) (e_context el).

Definition edit_of (el : element) : nat * nat * str :=
  (e_start el, e_end el, new_text el).

Definition apply_elements (content : str) (els : list element) : str :=
  (fold_left element_step els (content, Stats_zero, false)).1.1.

End PatcherSpec.

(** The spans of [edits], from right to left, each one ending where the one
    before it starts or further left; [hi] bounds the first. *)
Fixpoint chain (hi : nat) (edits : list (nat * nat * str)) : Prop :=
  match edits with
  | [] => True
  | (s, e, _) :: rest => s ≤ e ∧ e ≤ hi ∧ chain s rest
  end.

(** ** Sample inputs *)

Definition sample_table : Translator :=
  table_translator [(u "甲", u "a"); (u "乙", u "b"); (u "计数器", u "Counter");
                    (u "消息", u "message")].

(** A C line with one string and one comment. *)
Definition c1_content : str :=
  u "puts(" ++ [dquote] ++ u "甲" ++ [dquote] ++ u "); // 乙".

Definition c1_elements : list element :=
  sorted_desc e_start
    (map element_of_comment (@extract_comments sample_unicode c1_content (u ".c")) ++
     map element_of_string (@extract_strings sample_unicode c1_content (u ".c"))).

(** ** Notions used in the statements about the matcher *)

(** What a match attempt has consumed between two points. *)
Definition consumed (st e : mstate) (body : str) : Prop :=
  m_rest st = body ++ m_rest e ∧ m_pos e = m_pos st + length body.

(** A match of [finditer] is a result of the matcher at its start. *)
Definition match_at {U : UnicodeData} (dotall : bool) (r : regex) (i : nat)
           (prev : option Z) (rest : str) (m : rmatch) : Prop :=
  ∃ e, In e (run dotall r {| m_pos := i; m_prev := prev; m_rest := rest; m_caps := [] |}) ∧
       ms_start m = i ∧ ms_end m = m_pos e ∧ ms_caps m = m_caps e.

(** A piece of the inside of a string literal: an escaped character, or a
    character that is neither the double quote nor the backslash. *)
Definition string_piece (p : str) : Prop :=
  (∃ c, p = [backslash; c] ∧ c ≠ newline) ∨
  (∃ c, p = [c] ∧ c ≠ dquote ∧ c ≠ backslash).





(** ** Line mode, as the specification describes it *)

(** The counters with [c] more comments, [s] more strings, [m] more Markdown
    lines and [i] more identifiers. *)
Definition add_counts (c s m i : nat) (st : Stats) : Stats :=
  {| processed_files := processed_files st;
     translated_comments := translated_comments st + c;
     translated_strings := translated_strings st + s;
     translated_markdown := translated_markdown st + m;
     translated_identifiers := translated_identifiers st + i |}.

Section LineMode.
Context {U : UnicodeData} {T : Translator}.

(** A line is sent to the translator and the call returns. *)
Definition md_translated (line : str) : bool :=
  contains_chinese line &&
  match translate line with Some _ => true | None => false end.

(** What line mode makes of one line. *)
Definition md_line (line : str) : str :=
  if contains_chinese line
  then match translate line with Some t => t | None => line end
  else line.

End LineMode.

(** A Markdown file of two lines and a translator for its first line. *)
Definition c8_content : str := u "你好" ++ [newline] ++ u "plain text".

Definition c8_translator : Translator := table_translator [(u "你好", u "hello")].

(** A translator whose answer has two lines. *)
Definition c8_two_lines : Translator :=
  const_translator (u "a" ++ [newline] ++ u "b").

(** A translator that always answers with the same text, which holds a
    double quote; a Python line with two literals and a name between them. *)
Definition c9_translator : Translator :=
  const_translator (u "say " ++ [dquote] ++ u "hi").

Definition c9_content : str :=
  [dquote] ++ u "甲" ++ [dquote] ++ u " 乙 " ++ [dquote] ++ u "c" ++ [dquote].

Definition c9_world : World :=
  {| stats := Stats_zero; disk := {[ u "a.py" := c9_content ]}; read_only := ∅ |}.

Definition c9_md_world : World :=
  {| stats := Stats_zero; disk := {[ u "a.md" := c8_content ]}; read_only := ∅ |}.

(** ** The counters and the write decision, as the program has them *)

Section Counting.
Context {U : UnicodeData} {T : Translator}.

(** The replacement computed for an identifier span differs from its text,
    so that the loop splices it in and counts it. *)
Definition identifier_changed (d : identifier_data) : bool :=
  negb (str_eqb (translate_text (i_text d) (i_type d) (CtxIdentifier d)) (i_text d)).

(** The same for a comment or a string. *)
Definition element_changed (el : element) : bool :=
  negb (str_eqb (new_text el) (e_text el)).

Definition is_comment (el : element) : bool :=
  match e_type el with comment => true | _ => false end.

Definition comment_changed (el : element) : bool :=
  element_changed el && is_comment el.

Definition string_changed (el : element) : bool :=
  element_changed el && negb (is_comment el).

(** The buffer after the identifier pass. *)
Definition after_identifiers (content ext : str) : str :=
  (fold_left identifier_step (extract_identifiers content ext)
             (content, Stats_zero, false)).1.1.

(** The list [elements_to_translate] for a buffer. *)
Definition elements_of (content ext : str) : list element :=
  sorted_desc e_start
    (map element_of_comment (extract_comments content ext) ++
     map element_of_string (extract_strings content ext)).

End Counting.

(** A write-protected C file with one comment; a Markdown file and a
    translator that gives its line back unchanged. *)
Definition c6_world : World :=
  {| stats := Stats_zero; disk := {[ u "a.c" := u "//乙" ]};
     read_only := {[ u "a.c" ]} |}.

Definition c7_translator : Translator := table_translator [(u "你好", u "你好")].

Definition c7_world : World :=
  {| stats := Stats_zero; disk := {[ u "a.md" := u "你好" ]}; read_only := ∅ |}.

(** ** The identifier normalizer, as the specification describes it *)

Section NormalizerSpec.
Context {U : UnicodeData}.

(** The name without pointer markers, as sent to the translator. *)
Definition bare_name (name : str) : str :=
  strip (List.filter (fun c => negb (c =? star)%Z) name).

(** Punctuation is what is neither a word character nor white space. *)
Definition strip_punctuation (t : str) : str :=
  List.filter (fun c => is_word c || isspace c) t.

(** Every run of white space becomes one underscore. *)
Fixpoint underscores_aux (in_run : bool) (s : str) : str :=
  match s with
  | [] => []
  | c :: t =>
      if isspace c
      then (if in_run then underscores_aux true t else 95%Z :: underscores_aux true t)
      else c :: underscores_aux false t
  end.

Definition underscores (s : str) : str := underscores_aux false s.

Definition snake_of (t : str) : str :=
  lower (underscores (strip (strip_punctuation t))).

Definition digit_prefix (s : str) : str :=
  match s with
  | c :: _ => if isdigit c then u "var_" else []
  | [] => []
  end.

Definition pointer_prefix (name : str) : str :=
  if bool_decide (star ∈ name) then [star] else [].

Definition normalized (name t : str) : str :=
  pointer_prefix name ++ digit_prefix (snake_of t) ++ snake_of t.

End NormalizerSpec.

(** A translation with capitals, punctuation, a leading digit and runs of
    white space; a translation made of punctuation only. *)
Definition c4_translator : Translator :=
  const_translator (u "  3 Big-Red  Apples! ").

Definition c4_punctuation : Translator := const_translator (u "?!").

(** ** Inputs on which the program departs from its specification *)

Definition c2_translator : Translator :=
  table_translator
    [(u "计数器", u "Counter"); (u "乙", u "second");
     (u "甲 " ++ [dquote] ++ u "乙" ++ [dquote],
      u "first " ++ [dquote] ++ u "second" ++ [dquote])].

(** A C declaration, and a C comment that holds a string literal. *)
Definition c2_declaration : str := u "int 计数器;".

Definition c2_comment : str := u "//甲 " ++ [dquote] ++ u "乙" ++ [dquote].

(** A declaration with two spaces after the type, and the span that the
    declaration rule finds in it. *)
Definition c3_content : str := u "int  计数器;".

Definition c3_span : identifier_data :=
  {| i_start := 0; i_end := 8; i_text := u "int  计数器"; i_name := u "计数器";
     i_full_match := u "int  计数器"; i_type := variable_declaration |}.

(** A pointer declaration with a space after the star, and its span. *)
Definition c5_content : str := u "char * 消息;".

Definition c5_span : identifier_data :=
  {| i_start := 0; i_end := 9; i_text := u "char * 消息"; i_name := u "* 消息";
     i_full_match := u "char * 消息"; i_type := variable_declaration |}.

(** The declaration of the specification's own example. *)
Definition c5_example : identifier_data :=
  {| i_start := 0; i_end := 7; i_text := u "int 计数器"; i_name := u "计数器";
     i_full_match := u "int 计数器"; i_type := variable_declaration |}.

(** The matches start at [lo] or later, each one where the one before it
    ended or later. *)
Fixpoint ascending (lo : nat) (ms : list rmatch) : Prop :=
  match ms with
  | [] => True
  | m :: t => lo ≤ ms_start m ∧ ms_start m ≤ ms_end m ∧ ascending (ms_end m) t
  end.

(** A Python comment with a string literal inside it, and a name on the
    next line. *)
Definition overlap_content : str :=
  u "# 你好 " ++ [dquote] ++ u "世界" ++ [dquote] ++ [newline] ++ u "变量 = 1".

Definition overlap_world : World :=
  {| stats := Stats_zero; disk := {[ u "a.py" := overlap_content ]}; read_only := ∅ |}.

(** ** Further definitions: samples, the directory level *)

(** Two Python lines, the first with a comment. *)
Definition line_comment_sample : str := u "x = 1  # 你好" ++ [newline] ++ u "y = 2".

(** A line with two strings in double quotes and one in single quotes. *)
Definition two_strings_sample : str :=
  u "a = " ++ [dquote] ++ u "甲" ++ [dquote] ++ u " + 'x' + " ++ [dquote] ++ u "乙" ++ [dquote].

(** A Python line with a string and a comment, and a world with this file. *)
Definition string_and_comment_sample : str := u "s = " ++ [dquote] ++ u "甲" ++ [dquote] ++ u "  # 乙".

Definition failing_world : World :=
  {| stats := Stats_zero; disk := {[ u "a.py" := string_and_comment_sample ]}; read_only := ∅ |}.

(** A character of a C identifier in lower case: [a-z0-9_]. *)
Definition c_ident_char (c : Z) : bool :=
  in_range 97 122 c || in_range 48 57 c || (c =? 95)%Z.

(** The opening and closing marks of the comment styles that
    [translate_comment] tells apart. *)
Definition comment_delimiters : list (str * str) :=
  [(u "#", []); (u "//", []); (u "/*", u "*/"); (u "<!--", u "-->")].

(** Translators with one answer. *)
Definition loud_translator : Translator := const_translator (u "2 Big-Cats!").
Definition note_translator : Translator := const_translator (u "note").

(** ** The directory level *)

(** [os.path.join] of POSIX on two components. *)
Definition os_path_join (a b : str) : str :=
  if startswith [47%Z] b then b
  else if str_eqb a [] || endswith [47%Z] a then a ++ b
  else a ++ [47%Z] ++ b.

(** A directory: the names of its regular files and its subdirectories, in
    the order in which the system lists them.  There are no symbolic links
    and every directory can be listed. *)
#[local] Unset Elimination Schemes.
Inductive dir_tree : Type :=
| Dir (files : list str) (dirs : list (str * dir_tree)).
#[local] Set Elimination Schemes.

(** The test of the assignment to [dirs[:]]. *)
Definition kept_dir (d : str) : bool :=
  negb (startswith (u ".") d) &&
  negb (existsb (str_eqb d) [u "node_modules"; u "venv"; u "__pycache__"]).

(** [os.walk(top)], top down, with the pruning that both loops of the
    program do on [dirs] before the generator goes on: the pairs of [root]
    and [files] in the order of the [yield]s. *)
Fixpoint os_walk (top : str) (t : dir_tree) : list (str * list str) :=
  match t with
  | Dir files dirs =>
      (top, files) ::
      (fix each (ds : list (str * dir_tree)) : list (str * list str) :=
         match ds with
         | [] => []
         | (d, sub) :: rest =>
             if kept_dir d
             then os_walk (os_path_join top d) sub ++ each rest
             else each rest
         end) dirs
  end.

Section Directory.
Context {U : UnicodeData} {T : Translator}.

Definition count_total_files (root_dir : str) (t : dir_tree) : nat :=
  let supported_extensions := map fst comment_patterns in
  fold_left
    (λ total '(root, files),
       fold_left
         (λ total file,
            let file_extension := lower (path_suffix file) in
            if existsb (str_eqb file_extension) supported_extensions
            then S total else total)
         files total)
    (os_walk root_dir t) 0.

(** [process_directory]: the world after the run and [total_files]. *)
Definition process_directory (w : World) (root_dir : str) (t : dir_tree) : World * nat :=
  let supported_extensions := map fst comment_patterns in
  let total_files := count_total_files root_dir t in
  if (total_files =? 0)%nat then (w, total_files)
  else
    (fold_left
       (λ w '(root, files),
          fold_left
            (λ w file,
               let file_path := os_path_join root file in
               let file_extension := lower (path_suffix file) in
               if existsb (str_eqb file_extension) supported_extensions
               then (process_file w file_path).1 else w)
            files w)
       (os_walk root_dir t) w,
     total_files).

(** *** The files of a run, for the statements *)

Definition supported (file : str) : bool :=
  existsb (str_eqb (lower (path_suffix file))) (map fst comment_patterns).

(** The paths handed to [process_file], in the order of the calls. *)
Definition visited (root_dir : str) (t : dir_tree) : list str :=
  flat_map (λ '(root, files), map (os_path_join root) (List.filter supported files))
           (os_walk root_dir t).

End Directory.

(** A name as a directory lists it: not empty, not the dot, no slash. *)
Definition entry_name (f : str) : bool :=
  negb (str_eqb f []) && negb (str_eqb f (u ".")) && forallb (λ c, negb (c =? 47)%Z) f.

(** A project with a hidden directory and a vendored one. *)
Definition sample_tree : dir_tree :=
  Dir [u "a.py"; u "notes.txt"]
      [(u ".git", Dir [u "hook.py"] []);
       (u "src", Dir [u "b.c"] [(u "node_modules", Dir [u "c.js"] [])])].

(** The span of an identifier, as the patcher of the statements sees it. *)
Definition element_of_identifier (d : identifier_data) : element :=
  {| e_start := i_start d; e_end := i_end d; e_text := i_text d;
     e_type := i_type d; e_context := CtxIdentifier d |}.

(** A C statement with two identifiers in use. *)
Definition usages_sample : str := u "甲 = 乙 + 1;".

(** * Properties *)

(** ** Strings *)

Lemma str_eqb_true (a b : str) : str_eqb a b = true ↔ a = b.
Proof. unfold str_eqb. apply bool_decide_eq_true. Qed.

Lemma str_eqb_false (a b : str) : str_eqb a b = false ↔ a ≠ b.
Proof. unfold str_eqb. apply bool_decide_eq_false. Qed.

Lemma str_eqb_refl (a : str) : str_eqb a a = true.
Proof. by apply str_eqb_true. Qed.

Lemma slice_then_drop (a b : nat) (s : str) :
  a ≤ b → slice a b s ++ drop b s = drop a s.
Proof.
  intros Hab. unfold slice.
  replace b with (a + (b - a)) at 2 by lia.
  rewrite <- drop_drop. apply take_drop.
Qed.

Lemma slice_of_take (a b : nat) (s : str) :
  a ≤ b → slice a b s = drop a (take b s).
Proof.
  intros Hab. unfold slice. rewrite take_drop_commute.
  by replace (a + (b - a)) with b by lia.
Qed.

Lemma slice_same_prefix (a b n : nat) (s1 s2 : str) :
  a ≤ b → b ≤ n → take n s1 = take n s2 → slice a b s1 = slice a b s2.
Proof.
  intros Hab Hbn Heq. rewrite !slice_of_take by done.
  replace b with (b `min` n) by lia.
  by rewrite <- !take_take, Heq.
Qed.

(** ** The patcher *)

Lemma patched_same_prefix (c1 c2 : str) (edits : list (nat * nat * str)) :
  ∀ hi, chain hi edits → take hi c1 = take hi c2 →
        patched c1 hi edits = patched c2 hi edits.
Proof.
  induction edits as [|[[s e] t] rest IH]; intros hi Hc Heq; simpl in *; [done|].
  destruct Hc as (Hse & Heh & Hrest).
  rewrite (IH s Hrest).
  - by rewrite (slice_same_prefix e hi hi c1 c2).
  - replace s with (s `min` hi) by lia. by rewrite <- !take_take, Heq.
Qed.

Lemma chain_weaken (edits : list (nat * nat * str)) (hi hi' : nat) :
  hi ≤ hi' → chain hi edits → chain hi' edits.
Proof.
  destruct edits as [|[[s e] t] rest]; simpl; [done|].
  intros Hle (Hse & Heh & Hrest). repeat split; [done|lia|done].
Qed.

Lemma chain_bound (edits : list (nat * nat * str)) :
  ∀ hi, chain hi edits → Forall (λ ed, ed.1.1 ≤ ed.1.2 ∧ ed.1.2 ≤ hi) edits.
Proof.
  induction edits as [|[[s e] t] rest IH]; intros hi Hc; [constructor|].
  simpl in Hc. destruct Hc as (Hse & Heh & Hrest).
  constructor; [done|].
  eapply Forall_impl; [apply (IH s Hrest)|]. simpl. intros; lia.
Qed.

Lemma patched_length (c : str) (edits : list (nat * nat * str)) :
  ∀ hi, chain hi edits → hi ≤ length c →
        length (patched c hi edits) = moved edits hi.
Proof.
  induction edits as [|[[s e] t] rest IH]; intros hi Hc Hhi; simpl in *.
  - rewrite length_take. lia.
  - destruct Hc as (Hse & Heh & Hrest).
    rewrite !length_app, (IH s) by (done || lia).
    unfold slice. rewrite length_take, length_drop.
    destruct (Nat.leb_spec e hi); lia.
Qed.

Lemma patched_lookup_outside (c : str) (edits : list (nat * nat * str)) :
  ∀ hi p x, chain hi edits → hi ≤ length c → p < hi → c !! p = Some x →
    Forall (λ ed, ¬ (ed.1.1 ≤ p < ed.1.2)) edits →
    patched c hi edits !! moved edits p = Some x.
Proof.
  induction edits as [|[[s e] t] rest IH]; intros hi p x Hc Hhi Hp Hx Hout; simpl in *.
  - by rewrite lookup_take_lt.
  - destruct Hc as (Hse & Heh & Hrest).
    apply Forall_cons in Hout as [Hhead Hout]. simpl in Hhead.
    destruct (Nat.leb_spec e p) as [Hep|Hep].
    + rewrite lookup_app_r; rewrite (patched_length c rest s) by (done || lia); [|lia].
      rewrite lookup_app_r by lia.
      replace (moved rest s + length t + (p - e) - moved rest s - length t)
        with (p - e) by lia.
      unfold slice. rewrite lookup_take_lt by lia. rewrite lookup_drop.
      by replace (e + (p - e)) with p by lia.
    + apply lookup_app_l_Some. apply (IH s); [done|lia|lia|done|done].
Qed.

Lemma patched_lookup_new (c : str) (edits : list (nat * nat * str)) :
  ∀ hi s e t i x, chain hi edits → hi ≤ length c → (s, e, t) ∈ edits → s < e →
    t !! i = Some x →
    patched c hi edits !! (moved edits s + i) = Some x.
Proof.
  induction edits as [|[[s0 e0] t0] rest IH]; intros hi s e t i x Hc Hhi Hin Hlt Hx.
  - by apply elem_of_nil in Hin.
  - simpl in Hc. destruct Hc as (Hse & Heh & Hrest). simpl.
    apply elem_of_cons in Hin as [Heq|Hin].
    + injection Heq as E1 E2 E3. subst s0 e0 t0.
      destruct (Nat.leb_spec e s); [lia|].
      rewrite lookup_app_r; rewrite (patched_length c rest s) by (done || lia); [|lia].
      replace (moved rest s + i - moved rest s) with i by lia.
      by apply lookup_app_l_Some.
    + pose proof (chain_bound _ _ Hrest) as Hb.
      rewrite Forall_forall in Hb. specialize (Hb _ Hin). simpl in Hb.
      destruct (Nat.leb_spec e0 s); [lia|].
      apply lookup_app_l_Some. apply (IH s0 s e t); (done || lia).
Qed.

Section Patcher.
Context {U : UnicodeData} {T : Translator}.

Lemma element_step_buffer (cur : str) (st : Stats) (ch : bool) (el : element) :
  e_text el = slice (e_start el) (e_end el) cur →
  e_start el ≤ e_end el →
  (element_step (cur, st, ch) el).1.1 =
    splice cur (e_start el) (e_end el) (new_text el).
Proof.
  intros Htext Hse. unfold element_step, new_text.
  destruct (str_eqb _ _) eqn:E; simpl; [|done].
  apply str_eqb_true in E. rewrite E. unfold splice.
  rewrite Htext. rewrite slice_then_drop by done.
  by rewrite take_drop.
Qed.

Lemma splice_take (cur : str) (s e m : nat) (t : str) :
  m ≤ s → s ≤ length cur → take m (splice cur s e t) = take m cur.
Proof.
  intros Hms Hs. unfold splice. rewrite take_app_le.
  - rewrite take_take. by replace (m `min` s) with m by lia.
  - rewrite length_take. lia.
Qed.

Lemma splice_length_ge (cur : str) (s e : nat) (t : str) :
  s ≤ length cur → s ≤ length (splice cur s e t).
Proof. intros Hs. unfold splice. rewrite length_app, length_take. lia. Qed.

Lemma fold_element_step_cons (el : element) (els : list element) acc :
  fold_left element_step (el :: els) acc =
    fold_left element_step els (element_step acc el).
Proof. done. Qed.

Lemma element_loop_patched (els : list element) :
  ∀ (cur : str) (st : Stats) (ch : bool) (hi : nat),
    hi ≤ length cur →
    chain hi (map edit_of els) →
    Forall (λ el, e_text el = slice (e_start el) (e_end el) cur) els →
    (fold_left element_step els (cur, st, ch)).1.1 =
      patched cur hi (map edit_of els) ++ drop hi cur.
Proof.
  induction els as [|el els IH]; intros cur st ch hi Hhi Hc Ht.
  - simpl. by rewrite take_drop.
  - simpl in Hc. destruct Hc as (Hse & Heh & Hrest).
    apply Forall_cons in Ht as [Htel Ht].
    rewrite fold_element_step_cons.
    pose proof (element_step_buffer cur st ch el Htel Hse) as Hbuf.
    destruct (element_step (cur, st, ch) el) as [[cur' st'] ch'] eqn:Estep.
    simpl in Hbuf. subst cur'.
    assert (Hs : e_start el ≤ length cur) by lia.
    rewrite (IH _ st' ch' (e_start el)).
    + simpl. rewrite <- !(assoc_L (++)). f_equal.
      * apply patched_same_prefix; [done|]. by apply splice_take.
      * unfold splice. rewrite drop_app_length'.
        2:{ rewrite length_take. lia. }
        by rewrite <- (slice_then_drop (e_end el) hi cur).
    + by apply splice_length_ge.
    + done.
    + apply chain_bound in Hrest. rewrite Forall_map in Hrest.
      rewrite Forall_forall in Ht, Hrest. apply Forall_forall. intros x Hx.
      specialize (Ht x Hx). specialize (Hrest x Hx). simpl in Hrest.
      rewrite Ht. apply (slice_same_prefix _ _ (e_start el)); [lia..|].
      symmetry. by apply splice_take.
Qed.

Lemma element_step_prefix (cur : str) (st : Stats) (ch : bool) (el : element) (m : nat) :
  m ≤ e_start el → e_start el ≤ length cur →
  take m (element_step (cur, st, ch) el).1.1 = take m cur ∧
  e_start el ≤ length (element_step (cur, st, ch) el).1.1.
Proof.
  intros Hm Hs. unfold element_step.
  destruct (negb _); simpl; [|done].
  split; [by apply splice_take | by apply splice_length_ge].
Qed.

Lemma element_loop_prefix (els : list element) :
  ∀ (cur : str) (st : Stats) (ch : bool) (hi m : nat),
    hi ≤ length cur →
    chain hi (map edit_of els) →
    Forall (λ el, m ≤ e_start el) els →
    take m (fold_left element_step els (cur, st, ch)).1.1 = take m cur.
Proof.
  induction els as [|el els IH]; intros cur st ch hi m Hhi Hc Hm; [done|].
  simpl in Hc. destruct Hc as (Hse & Heh & Hrest).
  apply Forall_cons in Hm as [Hmel Hm].
  rewrite fold_element_step_cons.
  destruct (element_step_prefix cur st ch el m) as [Hpre Hlen]; [done|lia|].
  destruct (element_step (cur, st, ch) el) as [[cur' st'] ch'].
  simpl in *. rewrite (IH cur' st' ch' (e_start el) m); done.
Qed.

Lemma valid_spans_chain (els : list element) :
  ∀ hi,
    Forall (λ el, e_start el < e_end el ∧ e_end el ≤ hi) els →
    StronglySorted (λ a b, e_start b ≤ e_start a) els →
    ForallOrdPairs (λ a b, ¬ overlap a b) els →
    chain hi (map edit_of els).
Proof.
  induction els as [|el els IH]; intros hi Hin Hs Hd; [done|].
  apply Forall_cons in Hin as [[Hlt Hhi] Hin].
  apply StronglySorted_inv in Hs as [Hs Hfirst].
  inversion Hd as [|? ? Hno Hd']; subst.
  simpl. repeat split; [lia|done|].
  apply IH; [|done|done].
  rewrite Forall_forall in Hin, Hfirst, Hno. apply Forall_forall. intros x Hx.
  specialize (Hin x Hx). specialize (Hfirst x Hx). specialize (Hno x Hx).
  unfold overlap in Hno. lia.
Qed.

Lemma chain_app_inv (l1 l2 : list (nat * nat * str)) :
  ∀ hi, chain hi (l1 ++ l2) →
    chain hi l1 ∧
    ∀ ed, ed ∈ l2 → Forall (λ d, ed.1.2 ≤ d.1.1) l1.
Proof.
  induction l1 as [|[[s e] t] l1 IH]; intros hi Hc; simpl in *.
  - split; [done|]. intros; constructor.
  - destruct Hc as (Hse & Heh & Hrest).
    destruct (IH s Hrest) as [Hc1 Hall].
    split; [done|]. intros ed Hed. constructor; [|by apply Hall].
    simpl. pose proof (chain_bound _ _ Hrest) as Hb.
    rewrite Forall_forall in Hb. apply (Hb ed). apply elem_of_app. by right.
Qed.


Lemma element_loop_valid (content : str) (els : list element) (st : Stats) (ch : bool) :
  valid_spans content els →
  (fold_left element_step els (content, st, ch)).1.1 =
    patched content (length content) (map edit_of els).
Proof.
  intros (Hin & Hsorted & Hdisj).
  rewrite (element_loop_patched els content st ch (length content)).
  - by rewrite drop_all, app_nil_r.
  - done.
  - apply valid_spans_chain; [|done|done].
    eapply Forall_impl; [exact Hin|]. simpl. intros el (? & ? & ?). done.
  - eapply Forall_impl; [exact Hin|]. simpl. intros el (? & ? & ?). done.
Qed.

(** C1. Right-to-left patching: for spans of the buffer (each with the
    text of its range, as extracted) that do not overlap and come by
    descending start offset, the loop of
    [process_file] that splices each replacement at the stored offsets
    yields the original buffer with each span's range replaced by its new
    text and everything else as it was: the result is the cut-and-paste
    buffer [patched]; a character outside the spans is found, unchanged,
    at its shifted offset; the new text of every span stands at the shifted
    start of the span; and at the moment a span is processed, the working
    buffer still holds the original text up to the end of that span, so
    that its stored offsets are valid. *)
Theorem C1_right_to_left_patching (content : str) (els : list element)
        (st : Stats) (ch : bool) :
  valid_spans content els →
  let final := (fold_left element_step els (content, st, ch)).1.1 in
  let edits := map edit_of els in
  final = patched content (length content) edits ∧
  (∀ p x, content !! p = Some x →
          Forall (λ el, ¬ (e_start el ≤ p < e_end el)) els →
          final !! moved edits p = Some x) ∧
  (∀ el i x, el ∈ els → new_text el !! i = Some x →
             final !! (moved edits (e_start el) + i) = Some x) ∧
  (∀ processed el todo, els = processed ++ el :: todo →
     let cur := (fold_left element_step processed (content, st, ch)).1.1 in
     e_end el ≤ length cur ∧
     take (e_end el) cur = take (e_end el) content ∧
     slice (e_start el) (e_end el) cur = e_text el).
Proof.
  intros (Hin & Hsorted & Hdisj) final edits.
  assert (Hchain : chain (length content) edits).
  { apply valid_spans_chain; [|done|done].
    eapply Forall_impl; [exact Hin|]. simpl. intros el (? & ? & ?). done. }
  assert (Hfinal : final = patched content (length content) edits).
  { subst final. rewrite (element_loop_patched els content st ch (length content)).
    - by rewrite drop_all, app_nil_r.
    - done.
    - done.
    - eapply Forall_impl; [exact Hin|]. simpl. intros el (? & ? & ?). done. }
  split; [done|]. split; [|split].
  - intros p x Hx Hout. rewrite Hfinal.
    apply patched_lookup_outside; [done|done| |done|].
    + by apply lookup_lt_Some in Hx.
    + subst edits. rewrite Forall_map. eapply Forall_impl; [exact Hout|]. done.
  - intros el i x Hel Hx. rewrite Hfinal.
    rewrite Forall_forall in Hin. destruct (Hin el Hel) as (Hlt & _ & _).
    apply (patched_lookup_new content edits (length content)
                              (e_start el) (e_end el) (new_text el)); try done.
    subst edits. apply list_elem_of_fmap. by exists el.
  - intros processed el todo Hsplit cur.
    assert (Hel : el ∈ els).
    { rewrite Hsplit. apply elem_of_app. right. apply elem_of_cons. by left. }
    rewrite Forall_forall in Hin. destruct (Hin el Hel) as (Hlt & Hlen & Htext).
    subst edits. rewrite Hsplit, map_app in Hchain.
    destruct (chain_app_inv _ _ _ Hchain) as [Hc1 Hall].
    assert (Hpre : take (e_end el) cur = take (e_end el) content).
    { subst cur. apply (element_loop_prefix processed content st ch (length content));
        [done|done|].
      specialize (Hall (edit_of el)). rewrite Forall_map in Hall.
      apply Hall. simpl. apply elem_of_cons. by left. }
    split; [|split; [done|]].
    + assert (length (take (e_end el) cur) = e_end el) as Hl.
      { rewrite Hpre, length_take. lia. }
      rewrite length_take in Hl. lia.
    + rewrite Htext. apply (slice_same_prefix _ _ (e_end el)); [lia|lia|done].
Qed.

End Patcher.

Lemma C1_right_to_left_patching_witness :
  @valid_spans c1_content c1_elements ∧
  (fold_left (@element_step sample_unicode sample_table) c1_elements (c1_content, Stats_zero, false)).1.1
  = u "puts(" ++ [dquote] ++ u "a" ++ [dquote] ++ u "); // b".
Proof.
  assert (H : valid_spans c1_content c1_elements).
  { unfold valid_spans. vm_compute.
    split; [|split]; repeat constructor; unfold overlap; simpl; lia. }
  split; [exact H|].
  destruct (@C1_right_to_left_patching sample_unicode sample_table
              c1_content c1_elements Stats_zero false H) as [Hfinal _].
  rewrite Hfinal. vm_compute. reflexivity.
Defined.

(** ** The matcher *)

Lemma consumed_refl (st : mstate) : consumed st st [].
Proof. split; simpl; [done|lia]. Qed.

Lemma consumed_trans (st1 st2 st3 : mstate) (b1 b2 : str) :
  consumed st1 st2 b1 → consumed st2 st3 b2 → consumed st1 st3 (b1 ++ b2).
Proof.
  intros [H1 H1'] [H2 H2']. split.
  - by rewrite H1, H2, (assoc_L (++)).
  - rewrite H2', H1', length_app. lia.
Qed.

Section MatcherFacts.
Context {U : UnicodeData}.
Variable dotall : bool.

Lemma run_set_inv (cs : cset) (st e : mstate) :
  In e (run dotall (RSet cs) st) →
  ∃ c, m_rest st = c :: m_rest e ∧ cs_mem dotall cs c = true ∧
       m_pos e = S (m_pos st) ∧ m_prev e = Some c ∧ m_caps e = m_caps st.
Proof.
  simpl. destruct (m_rest st) as [|c t]; [done|].
  destruct (cs_mem dotall cs c) eqn:E; [|done].
  intros [<-|[]]. by exists c.
Qed.

Lemma run_seq_inv (a b : regex) (st e : mstate) :
  In e (run dotall (RSeq a b) st) →
  ∃ mid, In mid (run dotall a st) ∧ In e (run dotall b mid).
Proof. simpl. intros H. apply in_flat_map in H. exact H. Qed.

Lemma run_alt_inv (a b : regex) (st e : mstate) :
  In e (run dotall (RAlt a b) st) →
  In e (run dotall a st) ∨ In e (run dotall b st).
Proof. simpl. apply in_app_or. Qed.

Lemma run_star_eq (g : bool) (a : regex) (st : mstate) :
  run dotall (RStar g a) st =
    iterate (run dotall a) g (S (length (m_rest st))) st.
Proof. done. Qed.

(** The results of a repetition are reached by a chain of steps, each of
    which satisfies whatever every step satisfies. *)
Lemma iterate_inv (step : mstate → list mstate) (P : str → Prop) (g : bool) :
  (∀ st e, In e (step st) → ∃ piece, consumed st e piece ∧ P piece) →
  ∀ fuel st e, In e (iterate step g fuel st) →
    ∃ pieces, consumed st e (concat pieces) ∧ Forall P pieces.
Proof.
  intros Hstep. induction fuel as [|f IH]; intros st e He.
  - simpl in He. destruct He as [<-|[]]. exists []. split; [apply consumed_refl|constructor].
  - simpl in He.
    assert (e = st ∨ In e (flat_map (λ st', if m_pos st <? m_pos st'
                                           then iterate step g f st' else []) (step st)))
      as [->|Hmore].
    { destruct g.
      - apply in_app_or in He as [He|[<-|[]]]; [by right|by left].
      - destruct He as [<-|He]; [by left|by right]. }
    + exists []. split; [apply consumed_refl|constructor].
    + apply in_flat_map in Hmore as (mid & Hmid & He').
      destruct (m_pos st <? m_pos mid); [|done].
      destruct (Hstep _ _ Hmid) as (piece & Hc1 & HP).
      destruct (IH _ _ He') as (pieces & Hc2 & HPs).
      exists (piece :: pieces). split; [|by constructor].
      simpl. by eapply consumed_trans.
Qed.

Lemma run_consumed (r : regex) :
  ∀ st e, In e (run dotall r st) → ∃ body, consumed st e body.
Proof.
  induction r as [|cs|a IHa b IHb|a IHa b IHb|g a IHa|n a IHa|]; intros st e He.
  - destruct He as [<-|[]]. exists []. apply consumed_refl.
  - apply run_set_inv in He as (c & Hr & _ & Hp & _).
    exists [c]. split; simpl; [done|lia].
  - apply run_seq_inv in He as (mid & H1 & H2).
    destruct (IHa _ _ H1) as [b1 Hb1]. destruct (IHb _ _ H2) as [b2 Hb2].
    exists (b1 ++ b2). by eapply consumed_trans.
  - apply run_alt_inv in He as [He|He]; eauto.
  - rewrite run_star_eq in He.
    apply (iterate_inv (run dotall a) (λ _, True)) in He as (pieces & Hc & _).
    + by exists (concat pieces).
    + intros st' e' He'. destruct (IHa _ _ He') as [b Hb]. by exists b.
  - simpl in He. apply in_map_iff in He as (e0 & <- & He0).
    destruct (IHa _ _ He0) as [b Hb]. exists b. exact Hb.
  - simpl in He. destruct (at_boundary st); [|done].
    destruct He as [<-|[]]. exists []. apply consumed_refl.
Qed.

Lemma first_match_in (r : regex) (st e : mstate) (adv : bool) :
  first_match dotall r st adv = Some e → In e (run dotall r st).
Proof.
  unfold first_match. intros H.
  destruct (List.filter _ _) as [|x l] eqn:E; [done|].
  simpl in H. injection H as ->.
  assert (In e (e :: l)) as Hin by (by left).
  rewrite <- E in Hin. by apply filter_In in Hin as [? _].
Qed.

Lemma finditer_from_cons (r : regex) (i : nat) (prev : option Z) (c : Z) (t : str)
      (resume : nat) :
  finditer_from dotall r i prev (c :: t) resume =
    let st := {| m_pos := i; m_prev := prev; m_rest := c :: t; m_caps := [] |} in
    let found :=
      if i <? resume then ([], resume)
      else match first_match dotall r st false with
           | None => ([], resume)
           | Some e =>
               if m_pos e =? i
               then match first_match dotall r st true with
                    | None => ([mk_match i e], resume)
                    | Some e2 => ([mk_match i e; mk_match i e2], m_pos e2)
                    end
               else ([mk_match i e], m_pos e)
           end in
    found.1 ++ finditer_from dotall r (S i) (Some c) t found.2.
Proof. done. Qed.

Lemma finditer_from_nil (r : regex) (i : nat) (prev : option Z) (resume : nat) :
  finditer_from dotall r i prev [] resume =
    let st := {| m_pos := i; m_prev := prev; m_rest := []; m_caps := [] |} in
    let found :=
      if i <? resume then ([], resume)
      else match first_match dotall r st false with
           | None => ([], resume)
           | Some e =>
               if m_pos e =? i
               then match first_match dotall r st true with
                    | None => ([mk_match i e], resume)
                    | Some e2 => ([mk_match i e; mk_match i e2], m_pos e2)
                    end
               else ([mk_match i e], m_pos e)
           end in
    found.1 ++ [].
Proof. done. Qed.

Lemma found_here (r : regex) (i : nat) (prev : option Z) (rest : str) (resume : nat) (m : rmatch) :
  let st := {| m_pos := i; m_prev := prev; m_rest := rest; m_caps := [] |} in
  In m (if i <? resume then ([], resume)
        else match first_match dotall r st false with
             | None => ([], resume)
             | Some e =>
                 if m_pos e =? i
                 then match first_match dotall r st true with
                      | None => ([mk_match i e], resume)
                      | Some e2 => ([mk_match i e; mk_match i e2], m_pos e2)
                      end
                 else ([mk_match i e], m_pos e)
             end).1 →
  match_at dotall r i prev rest m.
Proof.
  intros st. destruct (i <? resume); [done|].
  destruct (first_match dotall r st false) as [e|] eqn:E1; [|done].
  apply first_match_in in E1.
  destruct (m_pos e =? i).
  - destruct (first_match dotall r st true) as [e2|] eqn:E2.
    + apply first_match_in in E2. simpl.
      intros [<-|[<-|[]]]; [by exists e|by exists e2].
    + simpl. intros [<-|[]]. by exists e.
  - simpl. intros [<-|[]]. by exists e.
Qed.

Lemma finditer_from_sound (r : regex) (rest : str) :
  ∀ i prev resume m,
    In m (finditer_from dotall r i prev rest resume) →
    ∃ k prev', k ≤ length rest ∧ match_at dotall r (i + k) prev' (drop k rest) m.
Proof.
  induction rest as [|c t IH]; intros i prev resume m Hm.
  - rewrite finditer_from_nil in Hm. cbv zeta in Hm. rewrite app_nil_r in Hm.
    apply found_here in Hm. exists 0, prev. split; [simpl; lia|].
    by rewrite Nat.add_0_r.
  - rewrite finditer_from_cons in Hm. cbv zeta in Hm.
    apply in_app_or in Hm as [Hm|Hm].
    + apply found_here in Hm. exists 0, prev. split; [simpl; lia|].
      by rewrite Nat.add_0_r.
    + apply IH in Hm as (k & prev' & Hk & Hm).
      exists (S k), prev'. split; [simpl; lia|].
      by replace (i + S k) with (S i + k) by lia.
Qed.

(** The text of a match is what the matcher consumed. *)
Lemma finditer_group0 (r : regex) (s : str) (m : rmatch) :
  In m (finditer dotall r s) →
  ∃ prev e, In e (run dotall r {| m_pos := ms_start m; m_prev := prev;
                                  m_rest := drop (ms_start m) s; m_caps := [] |}) ∧
            ms_start m ≤ length s ∧
            ms_end m = m_pos e ∧ ms_caps m = m_caps e ∧
            drop (ms_start m) s = group0 s m ++ m_rest e ∧
            ms_end m = ms_start m + length (group0 s m).
Proof.
  intros Hm. apply finditer_from_sound in Hm as (k & prev & Hk & e & He & Hs & Hend & Hcaps).
  simpl in Hs, He. subst k. exists prev, e.
  split; [done|]. split; [lia|]. split; [done|]. split; [done|].
  destruct (run_consumed _ _ _ He) as (body & Hrest & Hpos). simpl in *.
  unfold group0, slice. rewrite Hend, Hpos.
  replace (ms_start m + length body - ms_start m) with (length body) by lia.
  rewrite Hrest, take_app_length. done.
Qed.

End MatcherFacts.

(** ** Sorting *)

Lemma insert_desc_perm {A} (key : A → nat) (x : A) (l : list A) :
  insert_desc key x l ≡ₚ x :: l.
Proof.
  induction l as [|y l IH]; simpl; [done|].
  destruct (key x <? key y); [|done].
  rewrite IH. apply Permutation_swap.
Qed.

Lemma sorted_desc_perm {A} (key : A → nat) (l : list A) :
  sorted_desc key l ≡ₚ l.
Proof.
  induction l as [|x l IH]; simpl; [done|].
  by rewrite insert_desc_perm, IH.
Qed.

Lemma sorted_desc_elem {A} (key : A → nat) (l : list A) (x : A) :
  x ∈ sorted_desc key l ↔ x ∈ l.
Proof. by rewrite sorted_desc_perm. Qed.

Lemma sorted_desc_nil_inv {A} (key : A → nat) (l : list A) :
  sorted_desc key l = [] → l = [].
Proof.
  intros H. apply Permutation_nil_r. rewrite <- H. symmetry. apply sorted_desc_perm.
Qed.

(** ** The script detector *)

Section Detector.
Context {U : UnicodeData}.

Lemma first_match_set (dotall : bool) (cs : cset) (i : nat) (prev : option Z)
      (rest : str) (adv : bool) :
  first_match dotall (RSet cs)
              {| m_pos := i; m_prev := prev; m_rest := rest; m_caps := [] |} adv =
    match rest with
    | c :: t =>
        if cs_mem dotall cs c
        then Some {| m_pos := S i; m_prev := Some c; m_rest := t; m_caps := [] |}
        else None
    | [] => None
    end.
Proof.
  unfold first_match. destruct rest as [|c t]; [done|]. cbn [run m_rest m_pos m_caps].
  destruct (cs_mem dotall cs c); [|done].
  cbn [List.filter m_pos]. rewrite (proj2 (Nat.ltb_lt i (S i))) by lia.
  by destruct adv.
Qed.

Lemma finditer_set_none (dotall : bool) (cs : cset) (rest : str) :
  ∀ i prev resume, resume ≤ i →
    match finditer_from dotall (RSet cs) i prev rest resume with
    | [] => false
    | _ :: _ => true
    end = existsb (cs_mem dotall cs) rest.
Proof.
  induction rest as [|c t IH]; intros i prev resume Hle.
  - rewrite finditer_from_nil. cbv zeta.
    destruct (Nat.ltb_spec i resume); [lia|]. by rewrite first_match_set.
  - rewrite finditer_from_cons. cbv zeta.
    destruct (Nat.ltb_spec i resume); [lia|].
    rewrite !first_match_set. cbn [existsb].
    destruct (cs_mem dotall cs c) eqn:E.
    + cbn [m_pos]. destruct (Nat.eqb_spec (S i) i); [lia|]. done.
    + cbn [fst snd app orb]. apply IH. lia.
Qed.

Lemma re_search_set (dotall : bool) (cs : cset) (s : str) :
  re_search dotall (RSet cs) s = existsb (cs_mem dotall cs) s.
Proof. unfold re_search, finditer. by apply finditer_set_none. Qed.

Lemma contains_chinese_existsb (text : str) :
  contains_chinese text = existsb is_cjk text.
Proof. unfold contains_chinese. by rewrite re_search_set. Qed.

Lemma contains_chinese_false (text : str) :
  contains_chinese text = false ↔ Forall (λ c, is_cjk c = false) text.
Proof.
  rewrite contains_chinese_existsb. induction text as [|c t IH]; simpl.
  - split; [constructor|done].
  - rewrite orb_false_iff, IH, Forall_cons. done.
Qed.

Lemma contains_chinese_sub (text part : str) :
  (∀ c, c ∈ part → c ∈ text) →
  contains_chinese text = false → contains_chinese part = false.
Proof.
  rewrite !contains_chinese_false, !Forall_forall. auto.
Qed.

Lemma elem_of_slice (a b : nat) (s : str) (c : Z) : c ∈ slice a b s → c ∈ s.
Proof.
  unfold slice. intros H.
  apply list_elem_of_lookup in H as [i Hi].
  apply lookup_take_Some in Hi as [Hi _]. rewrite lookup_drop in Hi.
  by eapply list_elem_of_lookup_2.
Qed.

Lemma elem_of_take (n : nat) (s : str) (c : Z) : c ∈ take n s → c ∈ s.
Proof.
  intros H. apply list_elem_of_lookup in H as [i Hi].
  apply lookup_take_Some in Hi as [Hi _]. by eapply list_elem_of_lookup_2.
Qed.

Lemma elem_of_drop (n : nat) (s : str) (c : Z) : c ∈ drop n s → c ∈ s.
Proof.
  intros H. apply list_elem_of_lookup in H as [i Hi].
  rewrite lookup_drop in Hi. by eapply list_elem_of_lookup_2.
Qed.

Lemma elem_of_lstrip (s : str) (c : Z) : c ∈ lstrip s → c ∈ s.
Proof.
  induction s as [|x s IH]; simpl; [done|].
  destruct (isspace x); [|done]. intros H. apply elem_of_cons. right. by apply IH.
Qed.

Lemma elem_of_rstrip (s : str) (c : Z) : c ∈ rstrip s → c ∈ s.
Proof.
  unfold rstrip. intros H. apply list_elem_of_In, in_rev, list_elem_of_In in H.
  apply elem_of_lstrip in H. by apply list_elem_of_In, in_rev, list_elem_of_In.
Qed.

Lemma elem_of_strip (s : str) (c : Z) : c ∈ strip s → c ∈ s.
Proof. unfold strip. intros H%elem_of_rstrip. by apply elem_of_lstrip. Qed.

End Detector.

(** ** String literals *)

Section Strings.
Context {U : UnicodeData}.

Lemma string_pattern_inv (st e : mstate) :
  In e (run false string_pattern st) →
  ∃ pieces, m_rest st = dquote :: concat pieces ++ dquote :: m_rest e ∧
            Forall string_piece pieces.
Proof.
  unfold string_pattern. intros H.
  apply run_seq_inv in H as (m1 & H1 & H).
  apply run_seq_inv in H as (m2 & H2 & H3).
  apply run_set_inv in H1 as (c1 & Hr1 & Hc1 & _).
  apply run_set_inv in H3 as (c3 & Hr3 & Hc3 & _).
  simpl in Hc1, Hc3. apply Z.eqb_eq in Hc1, Hc3. subst c1 c3.
  rewrite run_star_eq in H2.
  apply (iterate_inv _ string_piece) in H2 as (pieces & [Hr2 _] & Hp).
  - exists pieces. split; [|done].
    by rewrite Hr1, Hr2, Hr3.
  - clear. intros st e He.
    apply run_alt_inv in He as [He|He].
    + apply run_seq_inv in He as (mid & Ha & Hb).
      apply run_set_inv in Ha as (ca & Hra & Hca & Hpa & _).
      apply run_set_inv in Hb as (cb & Hrb & Hcb & Hpb & _).
      simpl in Hca, Hcb. apply Z.eqb_eq in Hca. subst ca.
      exists [backslash; cb]. split.
      * split; simpl; [by rewrite Hra, Hrb|lia].
      * left. exists cb. split; [done|].
        apply negb_true_iff, Z.eqb_neq in Hcb. done.
    + apply run_set_inv in He as (c & Hr & Hc & Hp & _).
      exists [c]. split.
      * split; simpl; [done|lia].
      * right. exists c. split; [done|].
        simpl in Hc. apply negb_true_iff, orb_false_iff in Hc as [Hq Hb].
        apply Z.eqb_neq in Hq, Hb. done.
Qed.

Lemma slice_inner (c1 c2 : Z) (body : str) :
  slice 1 (length (c1 :: body ++ [c2]) - 1) (c1 :: body ++ [c2]) = body.
Proof.
  unfold slice. change (drop 1 (c1 :: body ++ [c2])) with (body ++ [c2]).
  replace (length (c1 :: body ++ [c2]) - 1 - 1) with (length body).
  - apply take_app_length.
  - cbn [length]. rewrite length_app. cbn [length]. lia.
Qed.

Lemma extract_strings_inv (content ext : str) (d : string_data) :
  d ∈ extract_strings content ext →
  ∃ pieces,
    s_text d = dquote :: concat pieces ++ [dquote] ∧
    s_content d = concat pieces ∧
    Forall string_piece pieces ∧
    s_text d = slice (s_start d) (s_end d) content ∧
    s_end d ≤ length content ∧
    contains_chinese (s_content d) = true.
Proof.
  unfold extract_strings. rewrite sorted_desc_elem, list_elem_of_In.
  intros H. apply in_flat_map in H as (m & Hm & Hd).
  destruct (contains_chinese _) eqn:Ech; [|done].
  destruct Hd as [<-|[]]. simpl.
  apply finditer_group0 in Hm as (prev & e & He & Hlen & Hend & _ & Hdrop & Hend').
  apply string_pattern_inv in He as (pieces & Hr & Hp). simpl in Hr.
  rewrite Hdrop in Hr.
  assert (group0 content m = dquote :: concat pieces ++ [dquote]) as Hg.
  { apply (app_inv_tail (m_rest e)). rewrite Hr. simpl.
    by rewrite <- (assoc_L (++)). }
  exists pieces.
  assert (slice 1 (length (group0 content m) - 1) (group0 content m) = concat pieces) as Hc.
  { rewrite Hg. apply slice_inner. }
  split; [done|]. split; [done|]. split; [done|]. split; [done|].
  split; [|done].
  assert (length (drop (ms_start m) content) = length (group0 content m ++ m_rest e)) as Hl
    by by rewrite Hdrop.
  rewrite length_drop, length_app in Hl. lia.
Qed.

End Strings.

Lemma str_in_char (c : Z) (s : str) : str_in [c] s = true ↔ c ∈ s.
Proof.
  induction s as [|x s IH]; simpl.
  - split; [done|]. by intros H%elem_of_nil.
  - rewrite orb_true_iff, IH, elem_of_cons, andb_true_r, Z.eqb_eq. done.
Qed.

Lemma str_in_char_false (c : Z) (s : str) : str_in [c] s = false ↔ c ∉ s.
Proof. rewrite <- str_in_char. by destruct (str_in [c] s). Qed.

Lemma with_stats_same (w : World) : with_stats w (stats w) = w.
Proof. by destruct w. Qed.

Section DoubleQuotedStretch.
Context {U : UnicodeData}.







End DoubleQuotedStretch.

Section OnlyDoubleQuotes.
Context {U : UnicodeData} {T : Translator}.

Lemma rewrite_code_no_spans (st : Stats) (content ext : str) :
  extract_identifiers content ext = [] →
  extract_comments content ext = [] →
  extract_strings content ext = [] →
  rewrite_code st content ext = (content, st, false).
Proof. intros Hi Hc Hs. unfold rewrite_code. by rewrite Hi, Hc, Hs. Qed.

Lemma process_file_no_spans (w : World) (file_path content : str) :
  read_file w file_path = Some content →
  lower (path_suffix file_path) ≠ u ".md" →
  extract_identifiers content (lower (path_suffix file_path)) = [] →
  extract_comments content (lower (path_suffix file_path)) = [] →
  extract_strings content (lower (path_suffix file_path)) = [] →
  process_file w file_path = (w, Skipped).
Proof.
  intros Hread Hmd Hi Hc Hs. unfold process_file. rewrite Hread.
  apply str_eqb_false in Hmd. rewrite Hmd.
  rewrite rewrite_code_no_spans by done. simpl.
  by rewrite with_stats_same.
Qed.


End OnlyDoubleQuotes.



(** ** Lines *)

Lemma split_on_nonempty (sep : Z) (s : str) : split_on sep s ≠ [].
Proof.
  destruct s as [|c t]; simpl; [done|].
  destruct (c =? sep)%Z; [done|]. by destruct (split_on sep t).
Qed.

Lemma join_cons (sep x : str) (l : list str) :
  l ≠ [] → join sep (x :: l) = x ++ sep ++ join sep l.
Proof. by destruct l. Qed.

Lemma join_split_on (sep : Z) (s : str) : join [sep] (split_on sep s) = s.
Proof.
  induction s as [|c t IH]; [done|]. simpl split_on.
  destruct (Z.eqb_spec c sep) as [->|Hne].
  - rewrite join_cons by apply split_on_nonempty. simpl. by rewrite IH.
  - pose proof (split_on_nonempty sep t) as Hn.
    destruct (split_on sep t) as [|h r]; [done|].
    destruct r as [|h' r'].
    + simpl in *. by rewrite IH.
    + rewrite join_cons by done. rewrite join_cons in IH by done.
      simpl. by rewrite <- IH.
Qed.

Lemma split_on_no_sep (sep : Z) (x : str) : sep ∉ x → split_on sep x = [x].
Proof.
  induction x as [|c x IH]; [done|]. intros [Hc Hx]%not_elem_of_cons.
  simpl. destruct (Z.eqb_spec c sep); [congruence|]. by rewrite IH.
Qed.

Lemma split_on_app (sep : Z) (x s : str) :
  sep ∉ x → split_on sep (x ++ sep :: s) = x :: split_on sep s.
Proof.
  induction x as [|c x IH]; intros Hx.
  - simpl. by rewrite Z.eqb_refl.
  - apply not_elem_of_cons in Hx as [Hc Hx]. simpl.
    destruct (Z.eqb_spec c sep); [congruence|]. by rewrite IH.
Qed.

Lemma split_on_app_sep (sep : Z) (a s : str) :
  split_on sep (a ++ sep :: s) = split_on sep a ++ split_on sep s.
Proof.
  induction a as [|c a IH]; cbn [app split_on].
  - by rewrite Z.eqb_refl.
  - rewrite IH. destruct (c =? sep)%Z; [done|].
    pose proof (split_on_nonempty sep a). by destruct (split_on sep a).
Qed.

Lemma split_on_one (sep : Z) (x : str) :
  1 ≤ length (split_on sep x) ∧ (length (split_on sep x) = 1 ↔ sep ∉ x).
Proof.
  induction x as [|c x [IH1 IH2]]; cbn [split_on].
  - split; [done|]. split; [intros _; apply not_elem_of_nil|done].
  - destruct (Z.eqb_spec c sep) as [->|Hne].
    + cbn [length]. split; [lia|]. split; [lia|].
      intros H. exfalso. apply H. by left.
    + assert (length (match split_on sep x with
                      | [] => [[c]]
                      | h :: r => (c :: h) :: r
                      end) = length (split_on sep x)) as ->.
      { destruct (split_on sep x); [cbn in IH1; lia|done]. }
      split; [done|]. rewrite IH2, not_elem_of_cons.
      split; [intros H; split; [congruence|done]|by intros [_ H]].
Qed.

(** The buffer joined from [l] has the lines of [l] and one more for every
    line break inside them. *)
Lemma split_on_join_length (sep : Z) (l : list str) :
  l ≠ [] →
  length l ≤ length (split_on sep (join [sep] l)) ∧
  (length (split_on sep (join [sep] l)) = length l ↔ Forall (λ x, sep ∉ x) l).
Proof.
  induction l as [|x l IH]; [done|]. intros _.
  destruct l as [|y l].
  - cbn [join length]. destruct (split_on_one sep x) as [H1 H2].
    split; [done|]. rewrite H2. split; [by constructor|by intros H%Forall_inv].
  - rewrite join_cons by done. cbn [app]. rewrite split_on_app_sep, length_app.
    destruct IH as [IH1 IH2]; [done|].
    destruct (split_on_one sep x) as [H1 H2].
    cbn [length] in *. split; [lia|].
    rewrite Forall_cons, <- IH2, <- H2. lia.
Qed.

Lemma split_on_join (sep : Z) (l : list str) :
  l ≠ [] → Forall (λ x, sep ∉ x) l → split_on sep (join [sep] l) = l.
Proof.
  induction l as [|x l IH]; [done|]. intros _ Hall.
  apply Forall_cons in Hall as [Hx Hall].
  destruct l as [|y l].
  - simpl. by apply split_on_no_sep.
  - rewrite join_cons by done. cbn [app].
    rewrite split_on_app by done. by rewrite IH.
Qed.

Lemma elem_of_split_on (sep : Z) (s line : str) (c : Z) :
  line ∈ split_on sep s → c ∈ line → c ∈ s.
Proof.
  revert line. induction s as [|x t IH]; intros line Hl Hc.
  - simpl in Hl. apply list_elem_of_singleton in Hl. by subst.
  - simpl in Hl. destruct (x =? sep)%Z.
    + apply elem_of_cons in Hl as [->|Hl]; [by apply elem_of_nil in Hc|].
      apply elem_of_cons. right. by eapply IH.
    + destruct (split_on sep t) as [|h r] eqn:E.
      * apply list_elem_of_singleton in Hl. subst.
        apply elem_of_cons in Hc as [->|Hc]; [by left|by apply elem_of_nil in Hc].
      * apply elem_of_cons in Hl as [->|Hl].
        -- apply elem_of_cons in Hc as [->|Hc]; [by left|].
           right. apply (IH h); [by left|done].
        -- right. apply (IH line); [by right|done].
Qed.

(** ** Line mode *)

Section LineModeFacts.
Context {U : UnicodeData} {T : Translator}.

Lemma add_counts_zero (st : Stats) : add_counts 0 0 0 0 st = st.
Proof. destruct st. unfold add_counts. simpl. f_equal; lia. Qed.

Lemma markdown_step_at (processed todo : list str) (line : str) (n : nat) (st : Stats) :
  markdown_step (processed ++ line :: todo, n, st) (length processed) =
    ((processed ++ [md_line line]) ++ todo,
     n + (if md_translated line then 1 else 0),
     add_counts 0 0 (if md_translated line then 1 else 0) 0 st).
Proof.
  unfold markdown_step, md_line, md_translated.
  rewrite list_lookup_middle by done.
  destruct (contains_chinese line); simpl.
  - destruct (translate line) as [t|].
    + rewrite insert_app_r_alt by done. rewrite Nat.sub_diag. simpl.
      rewrite <- (assoc_L (++)). simpl. f_equal; [f_equal; lia|].
      destruct st. unfold incr_markdown, add_counts. simpl. f_equal; lia.
    + rewrite <- (assoc_L (++)). simpl. rewrite Nat.add_0_r.
      by rewrite add_counts_zero.
  - rewrite <- (assoc_L (++)). simpl. rewrite Nat.add_0_r.
    by rewrite add_counts_zero.
Qed.

Lemma add_counts_markdown_add (a b : nat) (st : Stats) :
  add_counts 0 0 b 0 (add_counts 0 0 a 0 st) = add_counts 0 0 (a + b) 0 st.
Proof. destruct st. unfold add_counts. simpl. f_equal; lia. Qed.

Lemma markdown_loop (todo : list str) :
  ∀ (processed : list str) (n : nat) (st : Stats),
    fold_left markdown_step (seq (length processed) (length todo))
              (processed ++ todo, n, st) =
      (processed ++ map md_line todo,
       n + length (List.filter md_translated todo),
       add_counts 0 0 (length (List.filter md_translated todo)) 0 st).
Proof.
  induction todo as [|line todo IH]; intros processed n st.
  - simpl. by rewrite Nat.add_0_r, add_counts_zero.
  - cbn [length seq fold_left]. rewrite markdown_step_at.
    replace (S (length processed)) with (length (processed ++ [md_line line]))
      by (rewrite length_app; simpl; lia).
    rewrite IH. rewrite <- (assoc_L (++)). cbn [map List.filter app].
    rewrite add_counts_markdown_add.
    destruct (md_translated line); cbn [length]; f_equal; try (f_equal; lia).
Qed.

Lemma process_markdown_file_spec (st : Stats) (content : str) :
  let lines := split_on newline content in
  let k := length (List.filter md_translated lines) in
  process_markdown_file st content =
    (join [newline] (map md_line lines), k, add_counts 0 0 k 0 st).
Proof.
  intros lines k. unfold process_markdown_file. fold lines.
  pose proof (markdown_loop lines [] 0 st) as H. simpl in H. rewrite H. done.
Qed.


Lemma split_on_free (sep : Z) (s line : str) :
  line ∈ split_on sep s → sep ∉ line.
Proof.
  revert line. induction s as [|x t IH]; intros line Hl.
  - simpl in Hl. apply list_elem_of_singleton in Hl. subst. apply not_elem_of_nil.
  - simpl in Hl. destruct (Z.eqb_spec x sep) as [->|Hne].
    + apply elem_of_cons in Hl as [->|Hl]; [apply not_elem_of_nil|by apply IH].
    + destruct (split_on sep t) as [|h r] eqn:E.
      * apply list_elem_of_singleton in Hl. subst.
        apply not_elem_of_cons. split; [done|apply not_elem_of_nil].
      * apply elem_of_cons in Hl as [->|Hl].
        -- apply not_elem_of_cons. split; [done|]. apply IH. by left.
        -- apply IH. by right.
Qed.

Lemma md_line_cases (line : str) :
  (contains_chinese line = false → md_line line = line) ∧
  (contains_chinese line = true →
   md_line line = match translate line with Some t => t | None => line end).
Proof. unfold md_line. by destruct (contains_chinese line). Qed.

Lemma process_file_markdown (w : World) (file_path content : str) :
  read_file w file_path = Some content →
  lower (path_suffix file_path) = u ".md" →
  let lines := split_on newline content in
  let k := length (List.filter md_translated lines) in
  let new_content := join [newline] (map md_line lines) in
  let w1 := with_stats w (add_counts 0 0 k 0 (stats w)) in
  process_file w file_path =
    if 0 <? k
    then match write_file w1 file_path new_content with
         | Some w' => (with_stats w' (incr_processed (stats w')), Written)
         | None => (w1, Failed)
         end
    else (w1, Skipped).
Proof.
  intros Hread Hext lines k new_content w1. unfold process_file.
  rewrite Hread, Hext, str_eqb_refl, process_markdown_file_spec. done.
Qed.

(** C8, as amended. Line mode: the buffer of a Markdown file is cut at its
    line breaks into its lines, none of which holds a line break, and as
    many pieces are put together again in the same order; a line without
    source-script characters is kept as it is, a line with such characters
    is replaced by its translation (and kept when the call fails).  The new
    buffer has at least the lines of the old one, and as many exactly when
    none of the pieces holds a line break; so when the translator never
    answers with a line break, the lines of the new buffer are exactly the
    pieces.
    [process_file] takes this path alone for a Markdown file: what it writes
    is the line-mode buffer, a file it skips is as it was, and the counters
    of comments, strings and identifiers stay as they were. *)
Theorem C8_markdown_line_mode (st : Stats) (content : str) :
  let lines := split_on newline content in
  let new_content := (process_markdown_file st content).1.1 in
  ∃ lines' : list str,
    join [newline] lines = content ∧
    Forall (λ line, newline ∉ line) lines ∧
    new_content = join [newline] lines' ∧
    length lines' = length lines ∧
    (∀ i line, lines !! i = Some line → contains_chinese line = false →
               lines' !! i = Some line) ∧
    (∀ i line, lines !! i = Some line → contains_chinese line = true →
               lines' !! i = Some (match translate line with
                                   | Some t => t
                                   | None => line
                                   end)) ∧
    ((∀ s t, translate s = Some t → newline ∉ t) →
     split_on newline new_content = lines') ∧
    length lines ≤ length (split_on newline new_content) ∧
    (length (split_on newline new_content) = length lines ↔
     Forall (λ line, newline ∉ line) lines') ∧
    (∀ w file_path,
       read_file w file_path = Some content →
       lower (path_suffix file_path) = u ".md" →
       stats w = st →
       let w' := (process_file w file_path).1 in
       translated_comments (stats w') = translated_comments st ∧
       translated_strings (stats w') = translated_strings st ∧
       translated_identifiers (stats w') = translated_identifiers st ∧
       ((process_file w file_path).2 = Written →
        disk w' = <[file_path := new_content]> (disk w)) ∧
       ((process_file w file_path).2 = Skipped → disk w' = disk w)).
Proof.
  intros lines new_content. exists (map md_line lines).
  assert (Hnew : new_content = join [newline] (map md_line lines)).
  { subst new_content. by rewrite process_markdown_file_spec. }
  assert (Hne : map md_line lines ≠ []).
  { pose proof (split_on_nonempty newline content) as Hn. fold lines in Hn.
    by destruct lines. }
  split; [apply join_split_on|].
  split; [apply Forall_forall; intros line Hl; by apply (split_on_free newline content)|].
  split; [done|]. split; [apply length_map|].
  pose proof (split_on_join_length newline (map md_line lines) Hne) as [Hle Hiff].
  rewrite length_map, <- Hnew in Hle, Hiff.
  split; [|split; [|split; [|split; [done|split; [done|]]]]].
  - intros i line Hi Hc. rewrite list_lookup_fmap, Hi. simpl.
    by rewrite (proj1 (md_line_cases line) Hc).
  - intros i line Hi Hc. rewrite list_lookup_fmap, Hi. simpl.
    by rewrite (proj2 (md_line_cases line) Hc).
  - intros Hfree. rewrite Hnew. apply split_on_join.
    + pose proof (split_on_nonempty newline content) as Hn. fold lines in Hn.
      by destruct lines.
    + apply Forall_forall. intros x Hx.
      apply list_elem_of_fmap in Hx as (line & -> & Hline).
      pose proof (split_on_free _ _ _ Hline) as Hl.
      unfold md_line. destruct (contains_chinese line); [|done].
      destruct (translate line) as [t|] eqn:Et; [by eapply Hfree|done].
  - intros w file_path Hread Hext Hst w'. subst w'.
    rewrite (process_file_markdown w file_path content Hread Hext).
    fold lines. rewrite <- Hnew. subst st.
    destruct (0 <? _).
    + unfold write_file. destruct (bool_decide _); simpl;
        (repeat split; try lia; try done).
    + simpl. repeat split; try lia; try done.
Qed.

End LineModeFacts.

Lemma C8_markdown_line_mode_witness :
  (∀ s t, translate (Translator := c8_translator) s = Some t → newline ∉ t) ∧
  length (split_on newline
            (process_markdown_file (U := sample_unicode) (T := c8_translator)
                                   Stats_zero c8_content).1.1) =
    length (split_on newline c8_content).
Proof.
  assert (H : ∀ s t, translate (Translator := c8_translator) s = Some t → newline ∉ t).
  { intros s t. simpl. destruct (str_eqb _ _); [|done].
    intros [= <-]. vm_compute. intros Hin.
    repeat (apply elem_of_cons in Hin as [Hin|Hin]; [discriminate|]).
    by apply elem_of_nil in Hin. }
  split; [exact H|].
  destruct (C8_markdown_line_mode (U := sample_unicode) (T := c8_translator)
              Stats_zero c8_content) as (lines' & _ & _ & _ & Hlen & _ & _ & Hsplit & _).
  rewrite (Hsplit H). exact Hlen.
Defined.

(** C8, as stated, fails: a translation of two lines makes the buffer one
    line longer. *)
Lemma C8_counterexample :
  translate (Translator := c8_two_lines) (u "你好") = Some (u "a" ++ [newline] ++ u "b") ∧
  split_on newline c8_content = [u "你好"; u "plain text"] ∧
  (process_markdown_file (U := sample_unicode) (T := c8_two_lines) Stats_zero c8_content).1.1
    = u "a" ++ [newline] ++ u "b" ++ [newline] ++ u "plain text" ∧
  split_on newline
    (process_markdown_file (U := sample_unicode) (T := c8_two_lines) Stats_zero c8_content).1.1
    = [u "a"; u "b"; u "plain text"].
Proof. vm_compute. repeat split. Qed.

(** ** Buffers without source-script characters *)

Lemma flat_map_nil {A B} (f : A → list B) (l : list A) :
  (∀ x, f x = []) → flat_map f l = [].
Proof. intros H. induction l as [|x l IH]; simpl; [done|]. by rewrite H, IH. Qed.

Section NoSourceScript.
Context {U : UnicodeData} {T : Translator}.

Lemma contains_chinese_group0 (content : str) (m : rmatch) :
  contains_chinese content = false → contains_chinese (group0 content m) = false.
Proof. apply contains_chinese_sub. intros c. apply elem_of_slice. Qed.

Lemma contains_chinese_group (n : nat) (content : str) (m : rmatch) :
  contains_chinese content = false → contains_chinese (group n content m) = false.
Proof.
  unfold group. destruct (cap_lookup n (ms_caps m)) as [[a b]|]; [|done].
  apply contains_chinese_sub. intros c. apply elem_of_slice.
Qed.

Lemma no_chinese_no_comments (content ext : str) :
  contains_chinese content = false → extract_comments content ext = [].
Proof.
  intros H. unfold extract_comments.
  destruct (dict_get ext comment_patterns) as [pats|]; [|done].
  rewrite !flat_map_nil; [done| |];
    intros m; by rewrite contains_chinese_group0.
Qed.

Lemma no_chinese_no_strings (content ext : str) :
  contains_chinese content = false → extract_strings content ext = [].
Proof.
  intros H. unfold extract_strings. rewrite flat_map_nil; [done|].
  intros m. rewrite (contains_chinese_sub content); [done| |done].
  intros c Hc. apply elem_of_slice in Hc. by apply elem_of_slice in Hc.
Qed.

Lemma no_chinese_no_identifiers (content ext : str) :
  contains_chinese content = false → extract_identifiers content ext = [].
Proof.
  intros H. unfold extract_identifiers. destruct (negb _); [done|].
  rewrite !flat_map_nil; [done| |].
  - intros m. destruct (_ || _); [done|]. by rewrite contains_chinese_group.
  - intros m. rewrite (contains_chinese_sub (group 2 content m)); [done| |].
    + intros c. apply elem_of_strip.
    + by apply contains_chinese_group.
Qed.

Lemma no_chinese_no_markdown (content : str) :
  contains_chinese content = false →
  List.filter md_translated (split_on newline content) = [] ∧
  map md_line (split_on newline content) = split_on newline content.
Proof.
  intros H.
  assert (Hl : ∀ line, line ∈ split_on newline content → contains_chinese line = false).
  { intros line Hline. apply (contains_chinese_sub content); [|done].
    intros c. by apply (elem_of_split_on newline). }
  induction (split_on newline content) as [|line l IH]; [done|].
  assert (contains_chinese line = false) as Hc by (apply Hl; by left).
  destruct IH as [IH1 IH2]; [intros x Hx; apply Hl; by right|].
  assert (md_translated line = false) as Hm1 by (unfold md_translated; by rewrite Hc).
  assert (md_line line = line) as Hm2 by (unfold md_line; by rewrite Hc).
  cbn [List.filter map]. by rewrite Hm1, Hm2, IH1, IH2.
Qed.

Lemma process_file_no_chinese (w : World) (file_path content : str) :
  read_file w file_path = Some content →
  contains_chinese content = false →
  process_file w file_path = (w, Skipped).
Proof.
  intros Hread Hc.
  destruct (str_eqb (lower (path_suffix file_path)) (u ".md")) eqn:E.
  - apply str_eqb_true in E.
    rewrite (process_file_markdown w file_path content Hread E).
    destruct (no_chinese_no_markdown content Hc) as [-> _]. simpl.
    by rewrite add_counts_zero, with_stats_same.
  - apply str_eqb_false in E.
    apply (process_file_no_spans w file_path content); try done.
    + by apply no_chinese_no_identifiers.
    + by apply no_chinese_no_comments.
    + by apply no_chinese_no_strings.
Qed.

Lemma contains_chinese_app (a b : str) :
  contains_chinese (a ++ b) = contains_chinese a || contains_chinese b.
Proof. rewrite !contains_chinese_existsb. apply existsb_app. Qed.

Lemma contains_chinese_join (l : list str) :
  Forall (λ x, contains_chinese x = false) l →
  contains_chinese (join [newline] l) = false.
Proof.
  induction l as [|x l IH]; intros Hall; [done|].
  apply Forall_cons in Hall as [Hx Hall].
  destruct l as [|y l]; [done|].
  rewrite join_cons by done. rewrite !contains_chinese_app, Hx, (IH Hall). done.
Qed.

Lemma md_line_no_chinese (line : str) :
  (∀ s, ∃ t, translate s = Some t ∧ contains_chinese t = false) →
  contains_chinese (md_line line) = false.
Proof.
  intros Hyp. unfold md_line. destruct (contains_chinese line) eqn:E; [|done].
  destruct (Hyp line) as (t & -> & Ht). done.
Qed.

(** C9, as amended. A file whose buffer has no source-script character is
    left alone by the pipeline: nothing is written and no counter moves.
    So the second run is a no-op whenever the buffer left by the first run
    has no such character; for a Markdown file that can be written, and a
    translator that always answers with text free of such characters, this
    is the case after every first run. *)
Theorem C9_second_run_no_op (w : World) (file_path content : str) :
  read_file w file_path = Some content →
  (contains_chinese content = false → process_file w file_path = (w, Skipped)) ∧
  (∀ content1,
     read_file (process_file w file_path).1 file_path = Some content1 →
     contains_chinese content1 = false →
     process_file (process_file w file_path).1 file_path =
       ((process_file w file_path).1, Skipped)) ∧
  (lower (path_suffix file_path) = u ".md" →
   file_path ∉ read_only w →
   (∀ s, ∃ t, translate s = Some t ∧ contains_chinese t = false) →
   process_file (process_file w file_path).1 file_path =
     ((process_file w file_path).1, Skipped)).
Proof.
  intros Hread. split; [|split].
  - by apply process_file_no_chinese.
  - intros content1. apply process_file_no_chinese.
  - intros Hext Hw Hyp.
    pose proof (process_file_markdown w file_path content Hread Hext) as Hrun.
    cbv zeta in Hrun.
    destruct (0 <? length (List.filter md_translated (split_on newline content))) eqn:Ek.
    + unfold write_file in Hrun. rewrite bool_decide_eq_false_2 in Hrun by done.
      rewrite Hrun. cbn [fst].
      apply (process_file_no_chinese _ _
               (join [newline] (map md_line (split_on newline content)))).
      * unfold read_file. simpl. apply lookup_insert_eq.
      * apply contains_chinese_join, Forall_forall. intros x Hx.
        apply list_elem_of_fmap in Hx as (line & -> & _).
        by apply md_line_no_chinese.
    + apply Nat.ltb_ge in Ek.
      assert (length (List.filter md_translated (split_on newline content)) = 0) as E0 by lia.
      rewrite E0, add_counts_zero, with_stats_same in Hrun.
      rewrite Hrun. cbn [fst]. rewrite Hrun. done.
Qed.

End NoSourceScript.

Lemma C9_second_run_no_op_witness :
  read_file c9_md_world (u "a.md") = Some c8_content ∧
  let w1 := (process_file (U := sample_unicode) (T := c8_translator)
                          c9_md_world (u "a.md")).1 in
  process_file (U := sample_unicode) (T := c8_translator) w1 (u "a.md") = (w1, Skipped).
Proof.
  assert (H : read_file c9_md_world (u "a.md") = Some c8_content)
    by (vm_compute; reflexivity).
  split; [exact H|].
  destruct (C9_second_run_no_op (U := sample_unicode) (T := c8_translator)
              c9_md_world (u "a.md") c8_content H) as (_ & Hnext & _).
  apply (Hnext (u "hello" ++ [newline] ++ u "plain text")).
  - vm_compute. reflexivity.
  - vm_compute. reflexivity.
Defined.

(** C9, as stated, fails: the translator below always answers with the same
    text, which has no source-script character but holds a double quote.
    The first run leaves a buffer in which the text between two literals
    has become a literal; the second run translates it. *)
Lemma C9_counterexample :
  (∀ s, ∃ t, translate (Translator := c9_translator) s = Some t ∧
             contains_chinese (U := sample_unicode) t = false) ∧
  let w1 := (process_file (U := sample_unicode) (T := c9_translator)
                          c9_world (u "a.py")).1 in
  let w2 := (process_file (U := sample_unicode) (T := c9_translator) w1 (u "a.py")).1 in
  disk w1 !! u "a.py" =
    Some ([dquote] ++ u "say " ++ [dquote] ++ u "hi" ++ [dquote] ++ u " 乙 " ++
          [dquote] ++ u "c" ++ [dquote]) ∧
  disk w2 !! u "a.py" =
    Some ([dquote] ++ u "say " ++ [dquote] ++ u "hi" ++ [dquote] ++ u "say " ++
          [dquote] ++ u "hi" ++ [dquote] ++ u "c" ++ [dquote]) ∧
  disk w1 !! u "a.py" ≠ disk w2 !! u "a.py".
Proof.
  split.
  - intros s. eexists. split; [reflexivity|]. vm_compute. reflexivity.
  - vm_compute. repeat split; discriminate.
Qed.

(** ** The two loops of [process_file] *)

Lemma add_counts_add (c1 s1 m1 i1 c2 s2 m2 i2 : nat) (st : Stats) :
  add_counts c2 s2 m2 i2 (add_counts c1 s1 m1 i1 st) =
    add_counts (c1 + c2) (s1 + s2) (m1 + m2) (i1 + i2) st.
Proof. destruct st. unfold add_counts. simpl. f_equal; lia. Qed.

Lemma incr_identifiers_add (st : Stats) : incr_identifiers st = add_counts 0 0 0 1 st.
Proof. destruct st. unfold incr_identifiers, add_counts. simpl. f_equal; lia. Qed.

Lemma incr_comments_add (st : Stats) : incr_comments st = add_counts 1 0 0 0 st.
Proof. destruct st. unfold incr_comments, add_counts. simpl. f_equal; lia. Qed.

Lemma incr_strings_add (st : Stats) : incr_strings st = add_counts 0 1 0 0 st.
Proof. destruct st. unfold incr_strings, add_counts. simpl. f_equal; lia. Qed.

Section Loops.
Context {U : UnicodeData} {T : Translator}.

Lemma identifier_step_cases (c : str) (st : Stats) (ch : bool) (d : identifier_data) :
  identifier_step (c, st, ch) d =
    if identifier_changed d
    then (splice c (i_start d) (i_end d)
                 (translate_text (i_text d) (i_type d) (CtxIdentifier d)),
          add_counts 0 0 0 1 st, true)
    else (c, st, ch).
Proof.
  unfold identifier_step, identifier_changed.
  destruct (negb _); [|done]. by rewrite incr_identifiers_add.
Qed.

Lemma element_step_cases (c : str) (st : Stats) (ch : bool) (el : element) :
  element_step (c, st, ch) el =
    if element_changed el
    then (splice c (e_start el) (e_end el) (new_text el),
          add_counts (if is_comment el then 1 else 0) (if is_comment el then 0 else 1) 0 0 st,
          true)
    else (c, st, ch).
Proof.
  unfold element_step, element_changed, new_text, is_comment.
  destruct (negb _); [|done].
  destruct (e_type el); by rewrite ?incr_comments_add, ?incr_strings_add.
Qed.

Lemma identifier_loop (ids : list identifier_data) :
  ∀ (c : str) (st : Stats) (ch : bool),
    fold_left identifier_step ids (c, st, ch) =
      ((fold_left identifier_step ids (c, Stats_zero, false)).1.1,
       add_counts 0 0 0 (length (List.filter identifier_changed ids)) st,
       ch || existsb identifier_changed ids).
Proof.
  induction ids as [|d ids IH]; intros c st ch.
  - simpl. by rewrite add_counts_zero, orb_false_r.
  - cbn [fold_left List.filter existsb]. rewrite !identifier_step_cases.
    destruct (identifier_changed d).
    + rewrite IH. rewrite (IH _ (add_counts 0 0 0 1 Stats_zero) true).
      cbn [fst snd length]. rewrite add_counts_add, orb_true_r. done.
    + rewrite IH. done.
Qed.

Lemma element_loop (els : list element) :
  ∀ (c : str) (st : Stats) (ch : bool),
    fold_left element_step els (c, st, ch) =
      ((fold_left element_step els (c, Stats_zero, false)).1.1,
       add_counts (length (List.filter comment_changed els))
                  (length (List.filter string_changed els)) 0 0 st,
       ch || existsb element_changed els).
Proof.
  induction els as [|el els IH]; intros c st ch.
  - simpl. by rewrite add_counts_zero, orb_false_r.
  - cbn [fold_left List.filter existsb]. rewrite !element_step_cases.
    unfold comment_changed at 1, string_changed at 1.
    destruct (element_changed el).
    + rewrite IH. rewrite (IH _ (add_counts _ _ 0 0 Stats_zero) true).
      cbn [fst snd]. rewrite add_counts_add, orb_true_r.
      destruct (is_comment el); cbn [andb negb length]; done.
    + rewrite IH. done.
Qed.

Lemma identifier_loop_unchanged (ids : list identifier_data) acc :
  existsb identifier_changed ids = false →
  fold_left identifier_step ids acc = acc.
Proof.
  revert acc. induction ids as [|d ids IH]; intros [[c st] ch] H; [done|].
  cbn [existsb] in H. apply orb_false_iff in H as [Hd H].
  cbn [fold_left]. rewrite identifier_step_cases, Hd. by apply IH.
Qed.

Lemma element_loop_unchanged (els : list element) acc :
  existsb element_changed els = false →
  fold_left element_step els acc = acc.
Proof.
  revert acc. induction els as [|el els IH]; intros [[c st] ch] H; [done|].
  cbn [existsb] in H. apply orb_false_iff in H as [Hd H].
  cbn [fold_left]. rewrite element_step_cases, Hd. by apply IH.
Qed.

(** [rewrite_code] in one equation: the buffer of the two passes, the
    counters with the number of splices of each kind, and [changes_made]. *)
Lemma rewrite_code_spec (st : Stats) (content ext : str) :
  let ids := extract_identifiers content ext in
  let content1 := after_identifiers content ext in
  let els := elements_of content1 ext in
  rewrite_code st content ext =
    (apply_elements content1 els,
     add_counts (length (List.filter comment_changed els))
                (length (List.filter string_changed els))
                0
                (length (List.filter identifier_changed ids)) st,
     existsb identifier_changed ids || existsb element_changed els).
Proof.
  intros ids content1 els. unfold rewrite_code. fold ids.
  assert (match ids with
          | [] => (content, st, false)
          | _ :: _ => fold_left identifier_step ids (content, st, false)
          end = fold_left identifier_step ids (content, st, false)) as ->
    by by destruct ids.
  rewrite identifier_loop. fold (after_identifiers content ext). fold content1.
  fold (elements_of content1 ext). fold els.
  rewrite element_loop, add_counts_add. unfold apply_elements.
  cbn [orb]. f_equal. f_equal. f_equal; lia.
Qed.

Lemma rewrite_code_unflagged (st : Stats) (content ext : str) :
  (rewrite_code st content ext).2 = false →
  (rewrite_code st content ext).1.1 = content.
Proof.
  rewrite rewrite_code_spec. cbn [fst snd]. intros H.
  apply orb_false_iff in H as [Hi He].
  unfold apply_elements. rewrite element_loop_unchanged by done. cbn [fst].
  unfold after_identifiers. by rewrite identifier_loop_unchanged.
Qed.

(** [process_file] on a file that is not Markdown, in one equation. *)
Lemma process_file_code (w : World) (file_path content : str) :
  read_file w file_path = Some content →
  lower (path_suffix file_path) ≠ u ".md" →
  let r := rewrite_code (stats w) content (lower (path_suffix file_path)) in
  process_file w file_path =
    if bool_decide (r.1.1 = content) then (with_stats w r.1.2, Skipped)
    else if bool_decide (file_path ∈ read_only w) then (with_stats w r.1.2, Failed)
    else ({| stats := incr_processed r.1.2;
             disk := <[file_path := r.1.1]> (disk w);
             read_only := read_only w |}, Written).
Proof.
  intros Hread Hmd r. unfold process_file. rewrite Hread.
  apply str_eqb_false in Hmd. rewrite Hmd.
  pose proof (rewrite_code_unflagged (stats w) content (lower (path_suffix file_path))) as Hflag.
  fold r in Hflag |- *. destruct r as [[new st'] ch]. cbn [fst snd] in *.
  unfold str_eqb. destruct (bool_decide (new = content)) eqn:E.
  - by rewrite andb_false_r.
  - destruct ch.
    + cbn [andb negb]. unfold write_file, with_stats. cbn [read_only stats disk].
      by destruct (bool_decide (file_path ∈ read_only w)).
    + apply bool_decide_eq_false in E. by specialize (Hflag eq_refl).
Qed.

End Loops.

Section CountersAndWrites.
Context {U : UnicodeData} {T : Translator}.

Lemma md_untranslated (line : str) : md_translated line = false → md_line line = line.
Proof.
  unfold md_translated, md_line. destruct (contains_chinese line); [|done].
  by destruct (translate line).
Qed.

Lemma md_none_translated (lines : list str) :
  length (List.filter md_translated lines) = 0 → map md_line lines = lines.
Proof.
  induction lines as [|line lines IH]; [done|]. cbn [List.filter map].
  destruct (md_translated line) eqn:E; [done|].
  intros H. by rewrite md_untranslated, IH.
Qed.

(** C6, as amended. The counters of comments, strings, identifiers and
    Markdown lines move while the buffer is rewritten, by one for each
    substitution applied, and they keep these values whatever becomes of the
    file (written, skipped, or a write that fails); a span whose replacement
    is its own text, as after a call that failed and fell back, is not
    counted.  Only the counter of processed files waits for the write. *)
Theorem C6_counters_follow_substitutions (w : World) (file_path content : str) :
  read_file w file_path = Some content →
  let ext := lower (path_suffix file_path) in
  let w' := (process_file w file_path).1 in
  let o := (process_file w file_path).2 in
  processed_files (stats w') =
    processed_files (stats w) + (match o with Written => 1 | _ => 0 end) ∧
  (ext ≠ u ".md" →
   let ids := extract_identifiers content ext in
   let els := elements_of (after_identifiers content ext) ext in
   translated_identifiers (stats w') =
     translated_identifiers (stats w) + length (List.filter identifier_changed ids) ∧
   translated_comments (stats w') =
     translated_comments (stats w) + length (List.filter comment_changed els) ∧
   translated_strings (stats w') =
     translated_strings (stats w) + length (List.filter string_changed els) ∧
   translated_markdown (stats w') = translated_markdown (stats w)) ∧
  (ext = u ".md" →
   translated_markdown (stats w') =
     translated_markdown (stats w) +
     length (List.filter md_translated (split_on newline content)) ∧
   translated_identifiers (stats w') = translated_identifiers (stats w) ∧
   translated_comments (stats w') = translated_comments (stats w) ∧
   translated_strings (stats w') = translated_strings (stats w)) ∧
  (∀ d, translate_text (i_text d) (i_type d) (CtxIdentifier d) = i_text d →
        identifier_changed d = false) ∧
  (∀ el, new_text el = e_text el →
         comment_changed el = false ∧ string_changed el = false) ∧
  (∀ line, translate line = None → md_translated line = false).
Proof.
  intros Hread ext w' o.
  assert (Hfall : (∀ d, translate_text (i_text d) (i_type d) (CtxIdentifier d) = i_text d →
                        identifier_changed d = false) ∧
                  (∀ el, new_text el = e_text el →
                         comment_changed el = false ∧ string_changed el = false) ∧
                  (∀ line, translate line = None → md_translated line = false)).
  { split; [|split].
    - intros d Hd. unfold identifier_changed. by rewrite Hd, str_eqb_refl.
    - intros el Hel. unfold comment_changed, string_changed, element_changed.
      by rewrite Hel, str_eqb_refl.
    - intros line Hl. unfold md_translated. rewrite Hl. apply andb_false_r. }
  destruct (str_eqb ext (u ".md")) eqn:E.
  - apply str_eqb_true in E.
    pose proof (process_file_markdown w file_path content Hread E) as Hrun.
    cbv zeta in Hrun. subst w' o. rewrite Hrun.
    split; [|split; [|split]]; [| |intros _|done].
    + destruct (0 <? _); [|simpl; lia].
      unfold write_file. destruct (bool_decide _); simpl; lia.
    + intros Hne. by rewrite E in Hne.
    + destruct (0 <? _); [|simpl; lia].
      unfold write_file. destruct (bool_decide _); simpl; lia.
  - apply str_eqb_false in E.
    pose proof (process_file_code w file_path content Hread E) as Hrun.
    cbv zeta in Hrun. fold ext in Hrun. rewrite rewrite_code_spec in Hrun.
    cbn [fst snd] in Hrun. subst w' o. rewrite Hrun.
    split; [|split; [|split]]; [|intros _| |done].
    + destruct (bool_decide (_ = content)); [simpl; lia|].
      destruct (bool_decide (_ ∈ _)); simpl; lia.
    + cbv zeta.
      destruct (bool_decide (_ = content)); [simpl; lia|].
      destruct (bool_decide (_ ∈ _)); simpl; lia.
    + intros Heq. by rewrite Heq in E.
Qed.

(** C7, as amended. For a file that can be written: a code file is
    rewritten exactly when the final buffer differs from the buffer read,
    and is skipped, with the disk as it was, when they are equal.  A
    Markdown file is rewritten exactly when at least one of its lines with
    source-script characters came back from the translator, whether or not
    that changed the buffer; with no such line it is skipped, the disk is as
    it was, and the buffer is the one read. *)
Theorem C7_write_decision (w : World) (file_path content : str) :
  read_file w file_path = Some content →
  file_path ∉ read_only w →
  let ext := lower (path_suffix file_path) in
  let r := process_file w file_path in
  (ext ≠ u ".md" →
   let new_content := (rewrite_code (stats w) content ext).1.1 in
   (new_content ≠ content →
    r.2 = Written ∧ disk r.1 = <[file_path := new_content]> (disk w)) ∧
   (new_content = content → r.2 = Skipped ∧ disk r.1 = disk w)) ∧
  (ext = u ".md" →
   let new_content := (process_markdown_file (stats w) content).1.1 in
   let translated_count := (process_markdown_file (stats w) content).1.2 in
   translated_count = length (List.filter md_translated (split_on newline content)) ∧
   (0 < translated_count →
    r.2 = Written ∧ disk r.1 = <[file_path := new_content]> (disk w)) ∧
   (translated_count = 0 →
    r.2 = Skipped ∧ disk r.1 = disk w ∧ new_content = content)).
Proof.
  intros Hread Hw ext r. split.
  - intros Hmd new_content.
    pose proof (process_file_code w file_path content Hread Hmd) as Hrun.
    cbv zeta in Hrun. fold ext in Hrun. fold new_content in Hrun.
    rewrite (bool_decide_eq_false_2 (file_path ∈ read_only w)) in Hrun by done.
    subst r. rewrite Hrun. split.
    + intros Hne. by rewrite bool_decide_eq_false_2.
    + intros Heq. by rewrite bool_decide_eq_true_2.
  - intros Hmd new_content translated_count.
    pose proof (process_file_markdown w file_path content Hread Hmd) as Hrun.
    cbv zeta in Hrun. subst new_content translated_count.
    rewrite process_markdown_file_spec. cbn [fst snd].
    split; [done|]. subst r. rewrite Hrun. unfold write_file.
    rewrite (bool_decide_eq_false_2 (file_path ∈ _)) by done. split.
    + intros Hk. apply Nat.ltb_lt in Hk. by rewrite Hk.
    + intros Hk. rewrite Hk. cbn [Nat.ltb Nat.leb fst snd].
      split; [done|]. split; [done|].
      by rewrite md_none_translated, join_split_on.
Qed.

End CountersAndWrites.

Lemma C6_counters_follow_substitutions_witness :
  read_file c6_world (u "a.c") = Some (u "//乙") ∧
  (process_file (U := sample_unicode) (T := sample_table) c6_world (u "a.c")).2 = Failed ∧
  translated_comments
    (stats (process_file (U := sample_unicode) (T := sample_table) c6_world (u "a.c")).1)
  = 1.
Proof.
  assert (H : read_file c6_world (u "a.c") = Some (u "//乙")) by (vm_compute; reflexivity).
  split; [exact H|]. split; [vm_compute; reflexivity|].
  destruct (C6_counters_follow_substitutions (U := sample_unicode) (T := sample_table)
              c6_world (u "a.c") (u "//乙") H) as (_ & Hcode & _).
  destruct Hcode as (_ & Hcomments & _); [vm_compute; discriminate|].
  rewrite Hcomments. vm_compute. reflexivity.
Defined.

(** C6, as stated, fails: the write of a write-protected file raises, the
    file is not written, and the comment counter has moved all the same. *)
Lemma C6_counterexample :
  let r := process_file (U := sample_unicode) (T := sample_table) c6_world (u "a.c") in
  snd r = Failed ∧
  disk (fst r) = disk c6_world ∧
  translated_comments (stats c6_world) = 0 ∧
  translated_comments (stats (fst r)) = 1.
Proof. vm_compute. repeat split. Qed.

Lemma C7_write_decision_witness :
  read_file c7_world (u "a.md") = Some (u "你好") ∧
  ((u "a.md") ∉ read_only c7_world) ∧
  (process_file (U := sample_unicode) (T := c7_translator) c7_world (u "a.md")).2 = Written.
Proof.
  assert (H1 : read_file c7_world (u "a.md") = Some (u "你好")) by (vm_compute; reflexivity).
  assert (H2 : (u "a.md") ∉ read_only c7_world) by (simpl; apply not_elem_of_empty).
  split; [exact H1|]. split; [exact H2|].
  destruct (C7_write_decision (U := sample_unicode) (T := c7_translator)
              c7_world (u "a.md") (u "你好") H1 H2) as (_ & Hmd).
  destruct Hmd as (Hk & Hwritten & _); [vm_compute; reflexivity|].
  apply Hwritten. rewrite Hk. vm_compute. lia.
Defined.

(** C7, as stated, fails in line mode: the translator gives the line back
    as it is, the final buffer equals the buffer read, and the file is
    written all the same. *)
Lemma C7_counterexample :
  let r := process_file (U := sample_unicode) (T := c7_translator) c7_world (u "a.md") in
  (process_markdown_file (U := sample_unicode) (T := c7_translator)
                         Stats_zero (u "你好")).1.1 = u "你好" ∧
  read_file c7_world (u "a.md") = Some (u "你好") ∧
  snd r = Written.
Proof. vm_compute. repeat split. Qed.

(** ** Substitution by pattern *)

Lemma slice_empty (a : nat) (s : str) : slice a a s = [].
Proof. unfold slice. by rewrite Nat.sub_diag. Qed.

Lemma slice_to_end (a : nat) (s : str) : slice a (length s) s = drop a s.
Proof. unfold slice. apply take_ge. rewrite length_drop. lia. Qed.

Lemma slice_snoc (a i : nat) (s : str) (c : Z) :
  a ≤ i → s !! i = Some c → slice a (S i) s = slice a i s ++ [c].
Proof.
  intros Hai Hc. unfold slice.
  replace (S i - a) with (S (i - a)) by lia.
  rewrite (take_S_r _ _ c); [done|].
  rewrite lookup_drop. by replace (a + (i - a)) with i by lia.
Qed.

Section Substitution.
Context {U : UnicodeData}.
Variable dotall : bool.

(** Replacing the matches of a one-character class replaces each character
    of the class. *)
Lemma sub_from_set (cs : cset) (repl s : str) (rest : str) :
  ∀ (pre : str) (prev : option Z) (resume last : nat),
    s = pre ++ rest → resume ≤ length pre → last ≤ length pre →
    sub_from repl s (finditer_from dotall (RSet cs) (length pre) prev rest resume) last =
      slice last (length pre) s ++
      flat_map (λ c, if cs_mem dotall cs c then repl else [c]) rest.
Proof.
  induction rest as [|c t IH]; intros pre prev resume last Hs Hres Hlast.
  - rewrite finditer_from_nil. cbv zeta.
    destruct (Nat.ltb_spec (length pre) resume); [lia|].
    rewrite first_match_set. cbn [fst app sub_from flat_map].
    rewrite app_nil_r in Hs |- *. subst s. by rewrite slice_to_end.
  - rewrite finditer_from_cons. cbv zeta.
    destruct (Nat.ltb_spec (length pre) resume); [lia|].
    rewrite !first_match_set. cbn [flat_map].
    assert (Hs' : s = (pre ++ [c]) ++ t) by (by rewrite <- (assoc_L (++))).
    assert (Hl' : length (pre ++ [c]) = S (length pre))
      by (rewrite length_app; simpl; lia).
    destruct (cs_mem dotall cs c) eqn:E.
    + cbn [m_pos]. destruct (Nat.eqb_spec (S (length pre)) (length pre)); [lia|].
      cbn [fst snd app sub_from mk_match ms_start ms_end m_pos].
      rewrite <- Hl'. rewrite (IH (pre ++ [c]) (Some c) _ _ Hs') by lia.
      rewrite slice_empty. done.
    + cbn [fst snd app]. rewrite <- Hl'.
      rewrite (IH (pre ++ [c]) (Some c) _ _ Hs') by lia.
      rewrite Hl'. rewrite (slice_snoc last (length pre) s c); [|done|].
      * by rewrite <- (assoc_L (++)).
      * subst s. by rewrite list_lookup_middle.
Qed.

Lemma re_sub_set (cs : cset) (repl s : str) :
  re_sub dotall (RSet cs) repl s =
    flat_map (λ c, if cs_mem dotall cs c then repl else [c]) s.
Proof.
  unfold re_sub, finditer.
  etrans; [apply (sub_from_set cs repl s s [] None 0 0); (done || simpl; lia)|].
  done.
Qed.

End Substitution.

Section NormalizerSteps.
Context {U : UnicodeData}.

Lemma flat_map_erase (p : Z → bool) (t : str) :
  flat_map (λ c, if p c then [] else [c]) t = List.filter (λ c, negb (p c)) t.
Proof.
  induction t as [|c t IH]; [done|]. cbn [flat_map List.filter].
  destruct (p c); cbn [negb app]; by rewrite IH.
Qed.

Lemma re_sub_punctuation (t : str) :
  re_sub false punctuation [] t = strip_punctuation t.
Proof.
  unfold punctuation. rewrite re_sub_set, flat_map_erase. unfold strip_punctuation.
  apply List.filter_ext. intros c. cbn [cs_mem]. apply negb_involutive.
Qed.

Lemma replace_star (name : str) :
  replace [star] [] name = List.filter (λ c, negb (c =? star)%Z) name.
Proof.
  unfold replace. induction name as [|c t IH]; [done|].
  cbn [replace_from startswith List.filter length Nat.sub app].
  rewrite andb_true_r, Z.eqb_sym.
  destruct (c =? star)%Z; cbn [negb]; by rewrite IH.
Qed.

End NormalizerSteps.

(** ** Runs of white space *)

Section WhiteSpace.
Context {U : UnicodeData}.

Lemma lstrip_space (c : Z) (t : str) : isspace c = true → lstrip (c :: t) = lstrip t.
Proof. intros H. simpl. by rewrite H. Qed.

Lemma lstrip_other (c : Z) (t : str) : isspace c = false → lstrip (c :: t) = c :: t.
Proof. intros H. simpl. by rewrite H. Qed.

Lemma lstrip_length (t : str) : length (lstrip t) ≤ length t.
Proof.
  induction t as [|c t IH]; [done|]. simpl.
  destruct (isspace c); simpl; lia.
Qed.

Lemma lstrip_fixed (t : str) :
  length (lstrip t) = length t → t = [] ∨ ∃ c t', t = c :: t' ∧ isspace c = false.
Proof.
  destruct t as [|c t]; [by left|]. intros H. right. exists c, t. split; [done|].
  destruct (isspace c) eqn:E; [|done].
  rewrite lstrip_space in H by done. pose proof (lstrip_length t). simpl in H. lia.
Qed.

Lemma underscores_aux_fixed (t : str) :
  length (lstrip t) = length t → underscores_aux true t = underscores_aux false t.
Proof.
  intros H. destruct (lstrip_fixed t H) as [->|(c & t' & -> & Hc)]; [done|].
  simpl. by rewrite Hc.
Qed.

Variable dotall : bool.

(** The first result of a greedy run of white space is the longest one. *)
Lemma star_space_head (fuel : nat) :
  ∀ st, length (m_rest st) < fuel →
    ∃ e l, iterate (run dotall (RSet CSpace)) true fuel st = e :: l ∧
           m_rest e = lstrip (m_rest st) ∧
           m_pos e + length (m_rest e) = m_pos st + length (m_rest st) ∧
           m_caps e = m_caps st.
Proof.
  set (step := run dotall (RSet CSpace)).
  assert (Hstep : ∀ st, step st =
            match m_rest st with
            | c :: t =>
                if isspace c
                then [ {| m_pos := S (m_pos st); m_prev := Some c; m_rest := t;
                          m_caps := m_caps st |} ]
                else []
            | [] => []
            end) by done.
  clearbody step.
  induction fuel as [|f IH]; intros st Hlen; [lia|].
  cbn [iterate]. rewrite Hstep.
  destruct st as [i prev rest caps]. cbn [m_rest m_pos m_caps] in *.
  destruct rest as [|c t].
  - exists {| m_pos := i; m_prev := prev; m_rest := []; m_caps := caps |}, [].
    by cbn.
  - destruct (isspace c) eqn:E.
    + cbn [flat_map m_pos m_caps]. rewrite (proj2 (Nat.ltb_lt i (S i))) by lia.
      destruct (IH {| m_pos := S i; m_prev := Some c; m_rest := t; m_caps := caps |})
        as (e & l & Hit & Hrest & Hpos & Hcaps); [simpl in *; lia|].
      rewrite Hit. exists e, ((l ++ []) ++
        [{| m_pos := i; m_prev := prev; m_rest := c :: t; m_caps := caps |}]).
      cbn [m_rest m_pos m_caps] in *. rewrite lstrip_space by done.
      repeat split; [done|simpl; lia|done].
    + exists {| m_pos := i; m_prev := prev; m_rest := c :: t; m_caps := caps |}, [].
      cbn. by rewrite E.
Qed.

Lemma first_match_whitespace_none (i : nat) (prev : option Z) (rest : str) (adv : bool) :
  length (lstrip rest) = length rest →
  first_match dotall whitespace_run
              {| m_pos := i; m_prev := prev; m_rest := rest; m_caps := [] |} adv = None.
Proof.
  intros H. unfold first_match, whitespace_run, RPlus.
  destruct (lstrip_fixed rest H) as [->|(c & t & -> & Hc)]; [done|].
  cbn [run m_rest cs_mem]. by rewrite Hc.
Qed.

Lemma first_match_whitespace_some (i : nat) (prev : option Z) (c : Z) (t : str) (adv : bool) :
  isspace c = true →
  ∃ e, first_match dotall whitespace_run
                   {| m_pos := i; m_prev := prev; m_rest := c :: t; m_caps := [] |} adv
       = Some e ∧
       m_pos e = S i + (length t - length (lstrip t)) ∧ m_caps e = [].
Proof.
  intros Hc. unfold first_match, whitespace_run, RPlus.
  assert (run dotall (RSeq (RSet CSpace) (RStar true (RSet CSpace)))
              {| m_pos := i; m_prev := prev; m_rest := c :: t; m_caps := [] |} =
          iterate (run dotall (RSet CSpace)) true (S (length t))
                  {| m_pos := S i; m_prev := Some c; m_rest := t; m_caps := [] |} ++ [])
    as ->.
  { change (run dotall (RSeq (RSet CSpace) (RStar true (RSet CSpace))) ?st)
      with (flat_map (run dotall (RStar true (RSet CSpace))) (run dotall (RSet CSpace) st)).
    assert (run dotall (RSet CSpace)
                {| m_pos := i; m_prev := prev; m_rest := c :: t; m_caps := [] |} =
            [ {| m_pos := S i; m_prev := Some c; m_rest := t; m_caps := [] |} ]) as ->
      by (cbn; by rewrite Hc).
    cbn [flat_map]. by rewrite run_star_eq. }
  destruct (star_space_head (S (length t))
              {| m_pos := S i; m_prev := Some c; m_rest := t; m_caps := [] |})
    as (e & l & Hit & Hrest & Hpos & Hcaps); [simpl; lia|].
  cbn [m_rest m_pos m_caps] in *. rewrite Hit. cbn [app List.filter m_pos].
  pose proof (lstrip_length t) as Hl.
  assert (m_pos e = S i + (length t - length (lstrip t))) as Hp by (rewrite Hrest in Hpos; lia).
  rewrite (proj2 (Nat.ltb_lt i (m_pos e))) by lia. rewrite orb_true_r.
  exists e. done.
Qed.

(** Replacing the runs of white space by an underscore: outside a run
    ([resume] not beyond the position) the text since [last] is copied and
    the first space of a run writes the underscore; inside a run the
    positions are passed over. *)
Lemma sub_from_whitespace (s : str) (rest : str) :
  ∀ (pre : str) (prev : option Z) (resume last : nat),
    s = pre ++ rest →
    (resume ≤ length pre → last ≤ length pre →
     sub_from [95%Z] s
              (finditer_from dotall whitespace_run (length pre) prev rest resume) last =
       slice last (length pre) s ++ underscores_aux false rest) ∧
    (length pre < resume →
     resume = length pre + (length rest - length (lstrip rest)) →
     sub_from [95%Z] s
              (finditer_from dotall whitespace_run (length pre) prev rest resume) resume =
       underscores_aux true rest).
Proof.
  induction rest as [|c t IH]; intros pre prev resume last Hs.
  - split.
    + intros Hres Hlast. rewrite finditer_from_nil. cbv zeta.
      destruct (Nat.ltb_spec (length pre) resume); [lia|].
      rewrite first_match_whitespace_none by done.
      cbn [fst app sub_from underscores_aux].
      rewrite app_nil_r in Hs |- *. subst s. by rewrite slice_to_end.
    + simpl. lia.
  - assert (Hs' : s = (pre ++ [c]) ++ t) by (by rewrite <- (assoc_L (++))).
    assert (Hl' : length (pre ++ [c]) = S (length pre))
      by (rewrite length_app; simpl; lia).
    pose proof (lstrip_length t) as Hlt.
    split.
    + intros Hres Hlast. rewrite finditer_from_cons. cbv zeta.
      destruct (Nat.ltb_spec (length pre) resume); [lia|].
      destruct (isspace c) eqn:Ec.
      * destruct (first_match_whitespace_some (length pre) prev c t false Ec)
          as (e & -> & Hpos & _).
        destruct (Nat.eqb_spec (m_pos e) (length pre)); [lia|].
        cbn [fst snd app sub_from mk_match ms_start ms_end underscores_aux].
        rewrite Ec. f_equal. cbn [app]. f_equal. rewrite <- Hl'.
        destruct (decide (length t - length (lstrip t) = 0)) as [Hk|Hk].
        -- destruct (IH (pre ++ [c]) (Some c) (m_pos e) (m_pos e) Hs') as [IHA _].
           rewrite IHA by lia. rewrite Hpos, Hk, Nat.add_0_r, <- Hl', slice_empty.
           symmetry. apply underscores_aux_fixed. lia.
        -- destruct (IH (pre ++ [c]) (Some c) (m_pos e) (m_pos e) Hs') as [_ IHB].
           apply IHB; lia.
      * rewrite first_match_whitespace_none by (by rewrite lstrip_other).
        cbn [fst snd app underscores_aux]. rewrite Ec. rewrite <- Hl'.
        destruct (IH (pre ++ [c]) (Some c) resume last Hs') as [IHA _].
        rewrite IHA by lia. rewrite Hl'.
        rewrite (slice_snoc last (length pre) s c); [|done|].
        -- by rewrite <- (assoc_L (++)).
        -- subst s. by rewrite list_lookup_middle.
    + intros Hres Hrun. rewrite finditer_from_cons. cbv zeta.
      rewrite (proj2 (Nat.ltb_lt (length pre) resume)) by done.
      cbn [fst snd app].
      destruct (isspace c) eqn:Ec.
      2:{ rewrite lstrip_other in Hrun by done. lia. }
      rewrite lstrip_space in Hrun by done. cbn [length] in Hrun.
      cbn [underscores_aux]. rewrite Ec. rewrite <- Hl'.
      destruct (decide (resume = S (length pre))) as [Hk|Hk].
      * destruct (IH (pre ++ [c]) (Some c) resume resume Hs') as [IHA _].
        rewrite IHA by lia. rewrite Hk, <- Hl', slice_empty.
        symmetry. apply underscores_aux_fixed. lia.
      * destruct (IH (pre ++ [c]) (Some c) resume resume Hs') as [_ IHB].
        apply IHB; lia.
Qed.

Lemma re_sub_whitespace (s : str) :
  re_sub dotall whitespace_run (u "_") s = underscores s.
Proof.
  unfold re_sub, finditer, underscores.
  change (u "_") with [95%Z].
  destruct (sub_from_whitespace s s [] None 0 0 eq_refl) as [H _].
  etrans; [apply H; simpl; lia|]. done.
Qed.

End WhiteSpace.

(** ** The identifier normalizer *)

Section Normalizer.
Context {U : UnicodeData}.

Lemma word_not_space (c : Z) : is_word c = true → isspace c = false.
Proof.
  unfold is_word, isalnum, isspace, is_ascii, in_range.
  destruct (Z.ltb_spec c 128) as [Hlt|Hge]; intros Hw.
  - rewrite !orb_true_iff, !andb_true_iff, !Z.leb_le, Z.eqb_eq in Hw.
    rewrite !orb_false_iff, !andb_false_iff, !Z.leb_gt, Z.eqb_neq. lia.
  - apply orb_true_iff in Hw as [Hw|Hw]; [|apply Z.eqb_eq in Hw; lia].
    destruct (uni_isspace c) eqn:E; [|done].
    apply uni_space_not_alnum in E. congruence.
Qed.

Lemma lower_char_nonempty (c : Z) : lower_char c ≠ [].
Proof.
  unfold lower_char. destruct (is_ascii c); [by destruct (in_range 65 90 c)|].
  apply uni_lower_nonempty.
Qed.

Lemma lower_nonempty (s : str) : s ≠ [] → lower s ≠ [].
Proof.
  destruct s as [|c t]; [done|]. intros _. unfold lower. cbn [lower_from].
  destruct (c =? 931)%Z; [done|].
  pose proof (lower_char_nonempty c). by destruct (lower_char c).
Qed.

Lemma lstrip_keeps (s : str) (c : Z) : c ∈ s → isspace c = false → c ∈ lstrip s.
Proof.
  induction s as [|x s IH]; intros Hin Hc; [done|]. simpl.
  destruct (isspace x) eqn:E; [|done].
  apply elem_of_cons in Hin as [->|Hin]; [congruence|]. by apply IH.
Qed.

Lemma strip_keeps (s : str) (c : Z) : c ∈ s → isspace c = false → c ∈ strip s.
Proof.
  intros Hin Hc. unfold strip, rstrip.
  apply list_elem_of_In, (proj1 (in_rev _ _)), list_elem_of_In.
  apply lstrip_keeps; [|done].
  apply list_elem_of_In, (proj1 (in_rev _ _)), list_elem_of_In.
  by apply lstrip_keeps.
Qed.

Lemma underscores_keeps (s : str) (c : Z) :
  ∀ b, c ∈ s → isspace c = false → c ∈ underscores_aux b s.
Proof.
  induction s as [|x s IH]; intros b Hin Hc; [done|]. simpl.
  apply elem_of_cons in Hin as [<-|Hin].
  - rewrite Hc. by left.
  - destruct (isspace x); [destruct b|]; [|right|right]; by apply IH.
Qed.

Lemma snake_of_nonempty (t : str) (c : Z) :
  c ∈ t → is_word c = true → snake_of t ≠ [].
Proof.
  intros Hin Hw. pose proof (word_not_space c Hw) as Hs.
  unfold snake_of. apply lower_nonempty.
  assert (c ∈ underscores (strip (strip_punctuation t))) as H.
  { apply underscores_keeps; [|done]. apply strip_keeps; [|done].
    unfold strip_punctuation. apply list_elem_of_In, filter_In.
    split; [by apply list_elem_of_In|]. by rewrite Hw. }
  intros E. rewrite E in H. by apply elem_of_nil in H.
Qed.

Lemma lstrip_spaces (s : str) : Forall (λ c, isspace c = true) s → lstrip s = [].
Proof.
  induction 1 as [|c s Hc Hs IH]; [done|]. cbn [lstrip]. by rewrite Hc.
Qed.

(** A translation without a word character leaves nothing. *)
Lemma snake_of_empty (t : str) :
  (∀ c, c ∈ t → is_word c = false) → snake_of t = [].
Proof.
  intros Ht. unfold snake_of, strip.
  rewrite (lstrip_spaces (strip_punctuation t)); [done|].
  apply Forall_forall. intros c Hc. unfold strip_punctuation in Hc.
  apply list_elem_of_In, filter_In in Hc as [Hin Hk].
  apply list_elem_of_In in Hin. by rewrite (Ht c Hin) in Hk.
Qed.

Lemma bare_name_spec (name : str) :
  strip (replace [star] [] name) = bare_name name.
Proof. unfold bare_name. by rewrite replace_star. Qed.

Lemma bare_name_no_star (name : str) : star ∉ bare_name name.
Proof.
  unfold bare_name. intros H%elem_of_strip.
  apply list_elem_of_In, filter_In in H as [_ H]. by rewrite Z.eqb_refl in H.
Qed.

Lemma translate_identifier_name_failure {T : Translator} (name : str) :
  translate (bare_name name) = None → translate_identifier_name name = name.
Proof.
  intros H. unfold translate_identifier_name. by rewrite bare_name_spec, H.
Qed.

Lemma translate_identifier_name_success {T : Translator} (name t : str) :
  translate (bare_name name) = Some t →
  translate_identifier_name name = normalized name t.
Proof.
  intros H. unfold translate_identifier_name. rewrite bare_name_spec, H.
  rewrite re_sub_punctuation, re_sub_whitespace. fold (snake_of t).
  unfold normalized, pointer_prefix, digit_prefix.
  assert (match snake_of t with
          | [] => snake_of t
          | c :: _ => if isdigit c then u "var_" ++ snake_of t else snake_of t
          end =
          match snake_of t with
          | [] => []
          | c :: _ => if isdigit c then u "var_" else []
          end ++ snake_of t) as ->.
  { destruct (snake_of t) as [|c r]; [done|]. by destruct (isdigit c). }
  destruct (str_in [star] name) eqn:E.
  - apply str_in_char in E. by rewrite bool_decide_eq_true_2.
  - apply str_in_char_false in E. by rewrite bool_decide_eq_false_2.
Qed.

End Normalizer.

(** C4, as amended. The identifier normalizer is a function of the name
    and of the answer of the translator to the bare name (the name without
    pointer markers and surrounding white space).  When the call fails the
    original name comes back.  Otherwise the token is: the pointer marker,
    if the name carried one; the prefix [var_], if what follows starts with
    a digit; and the translation with its punctuation removed, trimmed, its
    runs of white space turned into single underscores, in lower case.  The
    token is not empty when the name carries a pointer marker, when the
    translation holds a word character, or when the call fails for a name
    that is not empty.  A translation without any word character gives no
    token: what comes back is the pointer marker alone when the name
    carried one, and the empty string when it did not. *)
Theorem C4_identifier_normalizer {U : UnicodeData} (T1 T2 : Translator) (name : str) :
  let result := translate_identifier_name (T := T1) name in
  (translate (Translator := T1) (bare_name name) =
     translate (Translator := T2) (bare_name name) →
   translate_identifier_name (T := T2) name = result) ∧
  (star ∉ bare_name name) ∧
  (translate (Translator := T1) (bare_name name) = None →
   result = name ∧ (name ≠ [] → result ≠ [])) ∧
  (∀ t, translate (Translator := T1) (bare_name name) = Some t →
        result = normalized name t ∧
        (star ∈ name → result ≠ []) ∧
        (∀ c, c ∈ t → is_word c = true → result ≠ []) ∧
        ((∀ c, c ∈ t → is_word c = false) →
         result = pointer_prefix name ∧
         (star ∈ name → result = [star]) ∧
         (star ∉ name → result = []))).
Proof.
  intros result. split; [|split; [|split]].
  - intros Heq. subst result.
    destruct (translate (Translator := T1) (bare_name name)) as [t|] eqn:E.
    + rewrite (translate_identifier_name_success (T := T1) name t E).
      symmetry in Heq. by rewrite (translate_identifier_name_success (T := T2) name t Heq).
    + rewrite (translate_identifier_name_failure (T := T1) name E).
      symmetry in Heq. by rewrite (translate_identifier_name_failure (T := T2) name Heq).
  - apply bare_name_no_star.
  - intros E. subst result.
    rewrite (translate_identifier_name_failure (T := T1) name E). done.
  - intros t E. subst result.
    rewrite (translate_identifier_name_success (T := T1) name t E).
    split; [done|]. split; [|split].
    + intros Hstar. unfold normalized, pointer_prefix.
      by rewrite bool_decide_eq_true_2.
    + intros c Hc Hw. unfold normalized.
      pose proof (snake_of_nonempty t c Hc Hw) as Hne.
      intros Happ. apply app_eq_nil in Happ as [_ Happ].
      apply app_eq_nil in Happ as [_ Happ]. done.
    + intros Hnone. unfold normalized. rewrite (snake_of_empty t Hnone).
      cbn [digit_prefix]. rewrite !app_nil_r. unfold pointer_prefix.
      split; [done|]. split; intros Hstar.
      * by rewrite bool_decide_eq_true_2.
      * by rewrite bool_decide_eq_false_2.
Qed.

Lemma C4_identifier_normalizer_witness :
  translate (Translator := c4_translator) (bare_name (U := sample_unicode) (u "* 计数器")) =
    Some (u "  3 Big-Red  Apples! ") ∧
  translate_identifier_name (U := sample_unicode) (T := c4_translator) (u "* 计数器") =
    u "*var_3_bigred_apples".
Proof.
  assert (H : translate (Translator := c4_translator)
                        (bare_name (U := sample_unicode) (u "* 计数器")) =
              Some (u "  3 Big-Red  Apples! ")) by reflexivity.
  split; [exact H|].
  destruct (C4_identifier_normalizer (U := sample_unicode) c4_translator c4_translator
              (u "* 计数器")) as (_ & _ & _ & Hok).
  destruct (Hok _ H) as [-> _]. vm_compute. reflexivity.
Defined.

(** C4, as stated, fails: a translation made of punctuation leaves nothing
    after the punctuation is removed, and the empty token is returned. *)
Lemma C4_counterexample :
  translate (Translator := c4_punctuation) (u "计数器") = Some (u "?!") ∧
  translate_identifier_name (U := sample_unicode) (T := c4_punctuation) (u "计数器") = [].
Proof. split; [reflexivity|]. vm_compute. reflexivity. Qed.

(** ** Where the program departs from its specification *)

Section Fallback.
Context {U : UnicodeData} {T : Translator}.

(** A failed call leaves a comment, a string, an identifier usage and a
    Markdown line as they are. *)
Lemma fallback_comment (text : str) (ctx : context) :
  (∀ s, translate s = None) → translate_text text comment ctx = text.
Proof.
  intros Hfail. unfold translate_text, translate_comment.
  repeat match goal with
         | |- context [if ?b then _ else _] => destruct b
         end; rewrite ?Hfail; done.
Qed.

Lemma fallback_string (d : string_data) :
  translate (s_content d) = None →
  translate_text (s_text d) string_literal (CtxString d) = s_text d.
Proof.
  intros Hfail. unfold translate_text, translate_string. rewrite Hfail.
  by destruct (negb _).
Qed.

Lemma fallback_usage (d : identifier_data) :
  i_type d = variable_usage → i_text d = i_name d →
  translate (bare_name (i_name d)) = None →
  translate_text (i_text d) (i_type d) (CtxIdentifier d) = i_text d.
Proof.
  intros Hty Htext Hfail. unfold translate_text, translate_identifier.
  rewrite Hty. destruct (negb _); [done|].
  by rewrite translate_identifier_name_failure.
Qed.

Lemma fallback_markdown (line : str) : translate line = None → md_line line = line.
Proof. intros Hfail. unfold md_line. rewrite Hfail. by destruct (contains_chinese line). Qed.

(** A declaration of two words keeps its first word and takes the
    normalized name as its second. *)
Lemma translate_declaration_two_words (d : identifier_data) (ty nm : str) :
  i_type d = variable_declaration →
  contains_chinese (i_name d) = true →
  split_ws (i_full_match d) = [ty; nm] →
  translate_identifier d = ty ++ u " " ++ translate_identifier_name (i_name d).
Proof.
  intros Hty Hc Hparts. unfold translate_identifier. by rewrite Hc, Hty, Hparts.
Qed.

End Fallback.

(** C2. The spans of one pass overlap.  In the C line [int 计数器;] the
    usage rule finds the name at offsets 4 to 7 and the declaration rule
    finds the declaration at offsets 0 to 7; both are spliced, the second at
    offsets that the first has made stale, and the buffer becomes
    [int counternter;].  In the C comment of [c2_comment] the string rule
    finds the literal at offsets 4 to 7 inside the comment found at offsets
    0 to 7, and the tail of the translated literal is left behind the
    translated comment. *)
Lemma C2_spans_of_one_pass_overlap :
  map (λ d, (i_start d, i_end d, i_type d))
      (extract_identifiers (U := sample_unicode) c2_declaration (u ".c")) =
    [(4, 7, variable_usage); (0, 7, variable_declaration)] ∧
  (rewrite_code (U := sample_unicode) (T := c2_translator)
                Stats_zero c2_declaration (u ".c")).1.1 = u "int counternter;" ∧
  map (λ el, (e_start el, e_end el, e_type el))
      (elements_of (U := sample_unicode) c2_comment (u ".c")) =
    [(4, 7, string_literal); (0, 7, comment)] ∧
  (rewrite_code (U := sample_unicode) (T := c2_translator)
                Stats_zero c2_comment (u ".c")).1.1 =
    u "// first " ++ [dquote] ++ u "second" ++ [dquote] ++ u "cond" ++ [dquote].
Proof. vm_compute. repeat split. Qed.

(** C3. With a translator whose every call raises, the wrapper does not
    give back the text of a declaration span written with two spaces: the
    fallback name is put back through the split on white space and the join
    with one space, the buffer changes and the span is counted. *)
Lemma C3_fallback_rewrites_declaration :
  In c3_span (extract_identifiers (U := sample_unicode) c3_content (u ".c")) ∧
  (∀ s, translate (Translator := failing_translator) s = None) ∧
  i_text c3_span = u "int  计数器" ∧
  translate_text (U := sample_unicode) (T := failing_translator)
                 (i_text c3_span) (i_type c3_span) (CtxIdentifier c3_span) =
    u "int 计数器" ∧
  rewrite_code (U := sample_unicode) (T := failing_translator)
               Stats_zero c3_content (u ".c") =
    (u "int 计数器;", add_counts 0 0 0 1 Stats_zero, true).
Proof.
  split; [vm_compute; right; left; reflexivity|].
  split; [done|]. vm_compute. repeat split.
Qed.

(** C5. For the declaration [char * 消息] the rewritten span is
    [char * *message]: the pointer marker that stands apart from the name is
    kept and the normalized name brings a second one.  The declaration of
    the specification's example, [int 计数器], is rewritten to
    [int counter]. *)
Lemma C5_pointer_marker_duplicated :
  In c5_span (extract_identifiers (U := sample_unicode) c5_content (u ".c")) ∧
  translate_identifier (U := sample_unicode) (T := sample_table) c5_span =
    u "char * *message" ∧
  In c5_example (extract_identifiers (U := sample_unicode) c2_declaration (u ".c")) ∧
  translate_identifier (U := sample_unicode) (T := c2_translator) c5_example =
    u "int counter".
Proof.
  split; [vm_compute; right; left; reflexivity|].
  split; [vm_compute; reflexivity|].
  split; [vm_compute; right; left; reflexivity|].
  vm_compute; reflexivity.
Qed.

(** ** The fuel of a repetition, and the order of the matches *)

Lemma flat_map_ext_in {A B} (f g : A → list B) (l : list A) :
  (∀ a, In a l → f a = g a) → flat_map f l = flat_map g l.
Proof.
  induction l as [|a l IH]; intros H; [done|]. simpl.
  rewrite (H a) by (by left). rewrite IH; [done|]. intros x Hx. apply H. by right.
Qed.

Lemma ascending_weaken (ms : list rmatch) (lo lo' : nat) :
  lo' ≤ lo → ascending lo ms → ascending lo' ms.
Proof.
  destruct ms as [|m t]; [done|]. simpl. intros Hle (H1 & H2 & H3).
  repeat split; [lia|done|done].
Qed.

Section Fuel.
Context {U : UnicodeData}.
Variable dotall : bool.

(** More fuel than the length of the rest changes nothing. *)
Lemma iterate_fuel (step : mstate → list mstate) (g : bool) :
  (∀ st e, In e (step st) → ∃ body, consumed st e body) →
  ∀ fuel st, length (m_rest st) < fuel →
    iterate step g fuel st = iterate step g (S fuel) st.
Proof.
  intros Hstep. induction fuel as [|f IH]; intros st Hlen; [lia|].
  remember (S f) as n eqn:En. cbn [iterate]. rewrite En at 1. cbn [iterate].
  assert (flat_map (λ st', if m_pos st <? m_pos st' then iterate step g f st' else [])
                   (step st) =
          flat_map (λ st', if m_pos st <? m_pos st' then iterate step g n st' else [])
                   (step st)) as ->; [|done].
  apply flat_map_ext_in. intros st' Hst'.
  destruct (Nat.ltb_spec (m_pos st) (m_pos st')) as [Hadv|]; [|done].
  destruct (Hstep _ _ Hst') as (body & Hrest & Hpos).
  subst n. apply IH.
  assert (length (m_rest st) = length body + length (m_rest st')) as Hl
    by (by rewrite Hrest, length_app).
  lia.
Qed.

Lemma run_star_fuel (g : bool) (a : regex) (st : mstate) (extra : nat) :
  run dotall (RStar g a) st =
    iterate (run dotall a) g (S (length (m_rest st)) + extra) st.
Proof.
  rewrite run_star_eq. induction extra as [|k IH].
  - by rewrite Nat.add_0_r.
  - rewrite IH. replace (S (length (m_rest st)) + S k)
      with (S (S (length (m_rest st)) + k)) by lia.
    apply iterate_fuel; [apply run_consumed|lia].
Qed.

Lemma found_ascending (r : regex) (i : nat) (prev : option Z) (rest : str) (resume : nat) :
  let st := {| m_pos := i; m_prev := prev; m_rest := rest; m_caps := [] |} in
  let found :=
    if i <? resume then ([], resume)
    else match first_match dotall r st false with
         | None => ([], resume)
         | Some e =>
             if m_pos e =? i
             then match first_match dotall r st true with
                  | None => ([mk_match i e], resume)
                  | Some e2 => ([mk_match i e; mk_match i e2], m_pos e2)
                  end
             else ([mk_match i e], m_pos e)
         end in
  ∀ tail, ascending (Nat.max (S i) found.2) tail →
          ascending (Nat.max i resume) (found.1 ++ tail).
Proof.
  intros st found tail Htail. subst found.
  destruct (Nat.ltb_spec i resume) as [Hlt|Hge].
  - cbn [fst snd app] in *. eapply ascending_weaken; [|exact Htail]. lia.
  - destruct (first_match dotall r st false) as [e|] eqn:E1.
    2:{ cbn [fst snd app] in *. eapply ascending_weaken; [|exact Htail]. lia. }
    pose proof (first_match_in _ _ _ _ _ E1) as He.
    apply run_consumed in He as (b & _ & Hpos). subst st. cbn [m_pos] in Hpos.
    destruct (Nat.eqb_spec (m_pos e) i) as [Heq|Hne].
    + destruct (first_match dotall r _ true) as [e2|] eqn:E2.
      * pose proof (first_match_in _ _ _ _ _ E2) as He2.
        apply run_consumed in He2 as (b2 & _ & Hpos2). cbn [m_pos] in Hpos2.
        cbn [fst snd app ascending mk_match ms_start ms_end] in *.
        split; [lia|]. split; [lia|]. split; [lia|]. split; [lia|].
        eapply ascending_weaken; [|exact Htail]. lia.
      * cbn [fst snd app ascending mk_match ms_start ms_end] in *.
        split; [lia|]. split; [lia|].
        eapply ascending_weaken; [|exact Htail]. lia.
    + cbn [fst snd app ascending mk_match ms_start ms_end] in *.
      split; [lia|]. split; [lia|].
      eapply ascending_weaken; [|exact Htail]. lia.
Qed.

Lemma finditer_from_ascending (r : regex) (rest : str) :
  ∀ i prev resume,
    ascending (Nat.max i resume) (finditer_from dotall r i prev rest resume).
Proof.
  induction rest as [|c t IH]; intros i prev resume.
  - rewrite finditer_from_nil. cbv zeta. by apply found_ascending.
  - rewrite finditer_from_cons. cbv zeta. apply found_ascending. apply IH.
Qed.

(** The matches of one pattern come from left to right and do not overlap. *)
Lemma finditer_ascending (r : regex) (s : str) : ascending 0 (finditer dotall r s).
Proof. apply (finditer_from_ascending r s 0 None 0). Qed.

End Fuel.

(** ** The spans that the extractors return *)

Lemma insert_desc_sorted {A} (key : A → nat) (x : A) (l : list A) :
  StronglySorted (λ a b, key b ≤ key a) l →
  StronglySorted (λ a b, key b ≤ key a) (insert_desc key x l).
Proof.
  induction l as [|y l IH]; intros Hs; simpl.
  - repeat constructor.
  - apply StronglySorted_inv in Hs as [Hs Hy].
    destruct (Nat.ltb_spec (key x) (key y)) as [Hlt|Hge].
    + constructor; [by apply IH|].
      apply Forall_forall. intros z Hz.
      rewrite insert_desc_perm in Hz.
      apply elem_of_cons in Hz as [->|Hz]; [lia|].
      rewrite Forall_forall in Hy. by apply Hy.
    + constructor; [by constructor|].
      constructor; [done|]. eapply Forall_impl; [exact Hy|]. simpl. intros; lia.
Qed.

Lemma sorted_desc_sorted {A} (key : A → nat) (l : list A) :
  StronglySorted (λ a b, key b ≤ key a) (sorted_desc key l).
Proof.
  induction l as [|x l IH]; simpl; [constructor|]. by apply insert_desc_sorted.
Qed.

Section Spans.
Context {U : UnicodeData}.

Lemma contains_chinese_nonempty (text : str) :
  contains_chinese text = true → 0 < length text.
Proof. destruct text; [done|]. simpl. lia. Qed.

Lemma finditer_bounds (dotall : bool) (r : regex) (s : str) (m : rmatch) :
  In m (finditer dotall r s) →
  ms_end m = ms_start m + length (group0 s m) ∧ ms_end m ≤ length s.
Proof.
  intros Hm.
  apply finditer_group0 in Hm as (prev & e & _ & Hlen & _ & _ & Hdrop & Hend).
  split; [done|].
  assert (length (drop (ms_start m) s) = length (group0 s m ++ m_rest e)) as Hl
    by by rewrite Hdrop.
  rewrite length_drop, length_app in Hl. lia.
Qed.

Lemma extract_comments_inv (content ext : str) (d : comment_data) :
  d ∈ extract_comments content ext →
  c_start d < c_end d ∧ c_end d ≤ length content ∧
  c_text d = slice (c_start d) (c_end d) content ∧
  contains_chinese (c_text d) = true.
Proof.
  unfold extract_comments.
  destruct (dict_get ext comment_patterns) as [pats|]; [|by intros H%elem_of_nil].
  rewrite sorted_desc_elem, list_elem_of_In. intros H.
  assert (∃ dotall r m, In m (finditer dotall r content) ∧
            In d (if contains_chinese (group0 content m)
                  then [ {| c_start := ms_start m; c_end := ms_end m;
                            c_text := group0 content m |} ]
                  else [])) as (dotall & r & m & Hm & Hd).
  { apply in_app_or in H as [H|H]; apply in_flat_map in H as (m & Hm & Hd); eauto. }
  destruct (contains_chinese (group0 content m)) eqn:E; [|done].
  destruct Hd as [<-|[]]. simpl.
  destruct (finditer_bounds _ _ _ _ Hm) as [Hend Hlen].
  pose proof (contains_chinese_nonempty _ E).
  repeat split; (done || lia).
Qed.

Lemma elements_of_wellformed (content ext : str) :
  Forall (λ el, e_start el < e_end el ∧ e_end el ≤ length content ∧
                e_text el = slice (e_start el) (e_end el) content)
         (elements_of content ext).
Proof.
  apply Forall_forall. intros el Hel. unfold elements_of in Hel.
  rewrite sorted_desc_elem in Hel. apply elem_of_app in Hel as [Hel|Hel].
  - apply list_elem_of_fmap in Hel as (d & -> & Hd).
    apply extract_comments_inv in Hd as (H1 & H2 & H3 & _). done.
  - apply list_elem_of_fmap in Hel as (d & -> & Hd). simpl.
    pose proof Hd as Hd'.
    apply extract_strings_inv in Hd as (pieces & Ht & _ & _ & Hs & Hlen & _).
    split; [|done].
    unfold extract_strings in Hd'. rewrite sorted_desc_elem, list_elem_of_In in Hd'.
    apply in_flat_map in Hd' as (m & Hm & Hd').
    destruct (contains_chinese _); [|done]. destruct Hd' as [<-|[]]. simpl in *.
    destruct (finditer_bounds _ _ _ _ Hm) as [Hend _].
    rewrite Hend, Ht. simpl. lia.
Qed.

Context {T : Translator}.

(** When the spans of the comment and string pass do not overlap, they
    meet all that right-to-left patching asks for. *)
Lemma elements_of_valid (content ext : str) :
  ForallOrdPairs (λ a b, ¬ overlap a b) (elements_of content ext) →
  valid_spans content (elements_of content ext).
Proof.
  intros Hd. split; [apply elements_of_wellformed|]. split; [|done].
  apply (sorted_desc_sorted e_start).
Qed.

Lemma rewrite_code_patched (st : Stats) (content ext : str) :
  let content1 := after_identifiers content ext in
  let els := elements_of content1 ext in
  ForallOrdPairs (λ a b, ¬ overlap a b) els →
  (rewrite_code st content ext).1.1 =
    patched content1 (length content1) (map edit_of els).
Proof.
  intros content1 els Hd. rewrite rewrite_code_spec. cbn [fst].
  unfold apply_elements.
  apply element_loop_valid. by apply elements_of_valid.
Qed.

End Spans.

(** The overlap of a comment with the string inside it also undoes the
    second run: the translator answers [w] to everything; the first run
    shortens the literal, then cuts the comment at its old end, which eats
    the line break, and the name of the next line, untouched in a Python
    file, is part of the comment for the second run. *)
Lemma second_run_after_overlap :
  let w1 := (process_file (U := sample_unicode) (T := const_translator (u "w"))
                          overlap_world (u "a.py")).1 in
  let w2 := (process_file (U := sample_unicode) (T := const_translator (u "w"))
                          w1 (u "a.py")).1 in
  map (λ el, (e_start el, e_end el, e_type el))
      (elements_of (U := sample_unicode) overlap_content (u ".py")) =
    [(5, 9, string_literal); (0, 9, comment)] ∧
  disk w1 !! u "a.py" = Some (u "# w变量 = 1") ∧
  disk w2 !! u "a.py" = Some (u "# w").
Proof. vm_compute. repeat split. Qed.

(** * Further properties of the program *)

(** ** The script detector and the comment extractor *)

Section DetectorAndComments.
Context {U : UnicodeData}.

(** X1. [contains_chinese] holds exactly for the texts with a character
    between U+4E00 and U+9FFF, whatever the character tables say. *)
Theorem X1_contains_chinese_iff (text : str) :
  contains_chinese text = true ↔ ∃ c, c ∈ text ∧ (19968 ≤ c ≤ 40959)%Z.
Proof.
  rewrite contains_chinese_existsb, existsb_exists. split.
  - intros (c & Hin & Hc). exists c. split; [by apply list_elem_of_In|].
    unfold is_cjk, in_range in Hc. lia.
  - intros (c & Hin & Hc). exists c. split; [by apply list_elem_of_In|].
    unfold is_cjk, in_range. lia.
Qed.

Lemma flat_map_nil_in {A B} (f : A → list B) (l : list A) :
  (∀ x, In x l → f x = []) → flat_map f l = [].
Proof.
  induction l as [|x l IH]; intros H; [done|]. simpl.
  rewrite (H x) by (by left). apply IH. intros y Hy. apply H. by right.
Qed.

Lemma finditer_eps_empty (dotall : bool) (s : str) (m : rmatch) :
  In m (finditer dotall REps s) → group0 s m = [].
Proof.
  intros Hm.
  apply finditer_group0 in Hm as (prev & e & He & _ & _ & _ & Hdrop & _).
  destruct He as [<-|[]]. simpl in Hdrop.
  apply (app_inv_tail (drop (ms_start m) s)). by rewrite <- Hdrop.
Qed.

(** X2. Every span of [extract_comments] lies in the buffer, is not empty,
    carries the text of its range and holds a source-script character; the
    spans come by descending start offset. *)
Theorem X2_comment_spans (content ext : str) :
  Forall (λ d, c_start d < c_end d ∧ c_end d ≤ length content ∧
               c_text d = slice (c_start d) (c_end d) content ∧
               contains_chinese (c_text d) = true)
         (extract_comments content ext) ∧
  StronglySorted (λ a b, c_start b ≤ c_start a) (extract_comments content ext).
Proof.
  split.
  - apply Forall_forall. intros d Hd. by apply (extract_comments_inv content ext).
  - unfold extract_comments.
    destruct (dict_get ext comment_patterns); [|constructor].
    apply (sorted_desc_sorted c_start).
Qed.

(** X3. [extract_comments] returns nothing for a file type that has no
    entry in [comment_patterns], and nothing for Markdown, whose two
    patterns are empty: they match the empty string only. *)
Theorem X3_no_comment_rules (content ext : str) :
  (dict_get ext comment_patterns = None → extract_comments content ext = []) ∧
  extract_comments content (u ".md") = [].
Proof.
  split.
  - intros H. unfold extract_comments. by rewrite H.
  - unfold extract_comments.
    change (dict_get (u ".md") comment_patterns)
      with (Some {| single_line := REps; multi_line := REps |}).
    cbn [single_line multi_line].
    assert (∀ dotall,
              flat_map (λ m, if contains_chinese (group0 content m)
                             then [ {| c_start := ms_start m; c_end := ms_end m;
                                       c_text := group0 content m |} ]
                             else [])
                       (finditer dotall REps content) = []) as Hnil.
    { intros dotall. apply flat_map_nil_in. intros m Hm.
      by rewrite (finditer_eps_empty dotall content m Hm). }
    by rewrite !Hnil.
Qed.

End DetectorAndComments.

(** ** Comments of one line *)

Lemma startswith_split (p s : str) : startswith p s = true → s = p ++ drop (length p) s.
Proof.
  revert s. induction p as [|x p IH]; intros s H; [done|].
  destruct s as [|y s]; [done|]. simpl in H.
  apply andb_true_iff in H as [Hxy H]. apply Z.eqb_eq in Hxy. subst y.
  simpl. f_equal. by apply IH.
Qed.

Lemma startswith_app (p s : str) : startswith p (p ++ s) = true.
Proof. induction p as [|x p IH]; [done|]. simpl. by rewrite Z.eqb_refl, IH. Qed.

Section LineComments.
Context {U : UnicodeData}.
Variable dotall : bool.

Lemma found_first (r : regex) (i : nat) (prev : option Z) (rest : str) (resume : nat)
      (m : rmatch) :
  let st := {| m_pos := i; m_prev := prev; m_rest := rest; m_caps := [] |} in
  In m (if i <? resume then ([], resume)
        else match first_match dotall r st false with
             | None => ([], resume)
             | Some e =>
                 if m_pos e =? i
                 then match first_match dotall r st true with
                      | None => ([mk_match i e], resume)
                      | Some e2 => ([mk_match i e; mk_match i e2], m_pos e2)
                      end
                 else ([mk_match i e], m_pos e)
             end).1 →
  ∃ adv e, first_match dotall r st adv = Some e ∧
           ms_start m = i ∧ ms_end m = m_pos e ∧ ms_caps m = m_caps e.
Proof.
  intros st. destruct (i <? resume); [done|].
  destruct (first_match dotall r st false) as [e|] eqn:E1; [|done].
  destruct (m_pos e =? i).
  - destruct (first_match dotall r st true) as [e2|] eqn:E2.
    + simpl. intros [<-|[<-|[]]]; [by exists false, e|by exists true, e2].
    + simpl. intros [<-|[]]. by exists false, e.
  - simpl. intros [<-|[]]. by exists false, e.
Qed.

(** A match of [finditer] is the first result of the matcher at its start. *)
Lemma finditer_from_first (r : regex) (rest : str) :
  ∀ i prev resume m,
    In m (finditer_from dotall r i prev rest resume) →
    ∃ k prev' adv e,
      k ≤ length rest ∧
      first_match dotall r {| m_pos := i + k; m_prev := prev'; m_rest := drop k rest;
                              m_caps := [] |} adv = Some e ∧
      ms_start m = i + k ∧ ms_end m = m_pos e ∧ ms_caps m = m_caps e.
Proof.
  induction rest as [|c t IH]; intros i prev resume m Hm.
  - rewrite finditer_from_nil in Hm. cbv zeta in Hm. rewrite app_nil_r in Hm.
    apply found_first in Hm as (adv & e & H1 & H2 & H3 & H4).
    exists 0, prev, adv, e. rewrite Nat.add_0_r. simpl. repeat split; (done || lia).
  - rewrite finditer_from_cons in Hm. cbv zeta in Hm.
    apply in_app_or in Hm as [Hm|Hm].
    + apply found_first in Hm as (adv & e & H1 & H2 & H3 & H4).
      exists 0, prev, adv, e. rewrite Nat.add_0_r. simpl. repeat split; (done || lia).
    + apply IH in Hm as (k & prev' & adv & e & Hk & H1 & H2 & H3 & H4).
      exists (S k), prev', adv, e.
      replace (i + S k) with (S i + k) by lia. simpl. repeat split; (done || lia).
Qed.

Lemma run_rlit_of (p : str) :
  ∀ st,
    (startswith p (m_rest st) = false → run dotall (rlit_of p) st = []) ∧
    (startswith p (m_rest st) = true →
     ∃ prev', run dotall (rlit_of p) st =
                [ {| m_pos := m_pos st + length p; m_prev := prev';
                     m_rest := drop (length p) (m_rest st); m_caps := m_caps st |} ]).
Proof.
  induction p as [|x p IH]; intros st.
  - split; [done|]. intros _. exists (m_prev st). destruct st. simpl.
    by rewrite Nat.add_0_r.
  - destruct st as [i prev rest caps]. cbn [m_rest m_pos m_caps m_prev].
    destruct rest as [|c t].
    + split; [|done]. intros _. by destruct p.
    + cbn [startswith].
      assert (run dotall (rlit_of (x :: p))
                  {| m_pos := i; m_prev := prev; m_rest := c :: t; m_caps := caps |} =
              if (c =? x)%Z
              then run dotall (rlit_of p)
                       {| m_pos := S i; m_prev := Some c; m_rest := t; m_caps := caps |}
              else []) as ->.
      { destruct p as [|y p].
        - cbn. by destruct (c =? x)%Z.
        - change (rlit_of (x :: y :: p)) with (RSeq (RSet (CLit x)) (rlit_of (y :: p))).
          cbn [run m_rest cs_mem m_pos m_caps].
          destruct (c =? x)%Z; [|done]. cbn [flat_map]. by rewrite app_nil_r. }
      rewrite (Z.eqb_sym x c). destruct (c =? x)%Z; cbn [andb].
      * destruct (IH {| m_pos := S i; m_prev := Some c; m_rest := t; m_caps := caps |})
          as [IH1 IH2]. cbn [m_rest m_pos m_caps] in *.
        split; [done|]. intros H. destruct (IH2 H) as [prev' ->].
        exists prev'. cbn [length drop]. do 2 f_equal. lia.
      * split; [done|]. done.
Qed.

(** The first result of a greedy repetition of a character class has
    consumed the longest run of characters of the class. *)
Lemma star_set_head (cs : cset) (fuel : nat) :
  ∀ st, length (m_rest st) < fuel →
    ∃ e l body,
      iterate (run dotall (RSet cs)) true fuel st = e :: l ∧
      m_rest st = body ++ m_rest e ∧
      Forall (λ c, cs_mem dotall cs c = true) body ∧
      (m_rest e = [] ∨ ∃ c t, m_rest e = c :: t ∧ cs_mem dotall cs c = false) ∧
      m_pos e = m_pos st + length body.
Proof.
  set (step := run dotall (RSet cs)).
  assert (Hstep : ∀ st, step st =
            match m_rest st with
            | c :: t =>
                if cs_mem dotall cs c
                then [ {| m_pos := S (m_pos st); m_prev := Some c; m_rest := t;
                          m_caps := m_caps st |} ]
                else []
            | [] => []
            end) by done.
  clearbody step.
  induction fuel as [|f IH]; intros st Hlen; [lia|].
  cbn [iterate]. rewrite Hstep.
  destruct st as [i prev rest caps]. cbn [m_rest m_pos m_caps] in *.
  destruct rest as [|c t].
  - exists {| m_pos := i; m_prev := prev; m_rest := []; m_caps := caps |}, [], [].
    cbn. repeat split; (done || lia || by left || constructor).
  - destruct (cs_mem dotall cs c) eqn:E.
    + cbn [flat_map m_pos m_caps]. rewrite (proj2 (Nat.ltb_lt i (S i))) by lia.
      destruct (IH {| m_pos := S i; m_prev := Some c; m_rest := t; m_caps := caps |})
        as (e & l & body & Hit & Hrest & Hall & Hend & Hpos); [simpl in *; lia|].
      rewrite Hit. exists e, ((l ++ []) ++
        [{| m_pos := i; m_prev := prev; m_rest := c :: t; m_caps := caps |}]), (c :: body).
      cbn [m_rest m_pos m_caps] in *.
      split; [done|]. split; [by rewrite Hrest|]. split; [by constructor|].
      split; [done|]. simpl. lia.
    + exists {| m_pos := i; m_prev := prev; m_rest := c :: t; m_caps := caps |}, [], [].
      cbn [m_rest m_pos m_caps app length]. split; [done|]. split; [done|].
      split; [constructor|]. split; [right; by exists c, t|lia].
Qed.

(** A match of a literal followed by a greedy run of a character class. *)
Lemma finditer_prefix_run (p : str) (cs : cset) (s : str) (m : rmatch) :
  p ≠ [] →
  In m (finditer dotall (RSeq (rlit_of p) (RStar true (RSet cs))) s) →
  ∃ body,
    group0 s m = p ++ body ∧
    Forall (λ c, cs_mem dotall cs c = true) body ∧
    ms_end m = ms_start m + length (p ++ body) ∧
    (ms_end m = length s ∨ ∃ c, s !! ms_end m = Some c ∧ cs_mem dotall cs c = false).
Proof.
  intros Hp Hm. pose proof Hm as Hm'.
  apply finditer_bounds in Hm' as [Hend Hlen].
  unfold finditer in Hm.
  apply finditer_from_first in Hm as (k & prev & adv & e & Hk & Hfirst & Hs & He & _).
  simpl in Hs, Hfirst. subst k.
  unfold first_match in Hfirst.
  change (run dotall (RSeq (rlit_of p) (RStar true (RSet cs))) ?st)
    with (flat_map (run dotall (RStar true (RSet cs))) (run dotall (rlit_of p) st))
    in Hfirst.
  destruct (run_rlit_of p {| m_pos := ms_start m; m_prev := prev;
                             m_rest := drop (ms_start m) s; m_caps := [] |})
    as [Hno Hyes]. cbn [m_rest m_pos m_caps] in *.
  destruct (startswith p (drop (ms_start m) s)) eqn:Esw.
  2:{ rewrite (Hno eq_refl) in Hfirst. done. }
  destruct (Hyes eq_refl) as [prev' Hrun]. rewrite Hrun in Hfirst. clear Hno Hyes Hrun.
  cbn [flat_map] in Hfirst. rewrite app_nil_r, run_star_eq in Hfirst.
  cbn [m_rest] in Hfirst.
  match type of Hfirst with
  | context [iterate _ true ?fuel ?st1] =>
      destruct (star_set_head cs fuel st1) as (e1 & l & body & Hit & Hrest & Hall & Htail & Hpos);
        [simpl; lia|]
  end.
  rewrite Hit in Hfirst. cbn [m_rest m_pos m_caps] in *.
  cbn [List.filter] in Hfirst.
  assert (Hp' : 0 < length p) by (destruct p; [done|simpl; lia]).
  rewrite (proj2 (Nat.ltb_lt (ms_start m) (m_pos e1))) in Hfirst by lia.
  rewrite orb_true_r in Hfirst. cbn [head] in Hfirst. injection Hfirst as <-.
  apply startswith_split in Esw.
  assert (Hdrop : drop (ms_start m) s = (p ++ body) ++ m_rest e1)
    by (rewrite <- (assoc_L (++)), <- Hrest; exact Esw).
  assert (Hg : group0 s m = p ++ body).
  { unfold group0, slice. rewrite He, Hpos.
    replace (ms_start m + length p + length body - ms_start m)
      with (length (p ++ body)) by (rewrite length_app; lia).
    by rewrite Hdrop, take_app_length. }
  exists body. split; [done|]. split; [done|].
  split; [rewrite He, Hpos, length_app; lia|].
  assert (Hde : drop (ms_end m) s = m_rest e1).
  { rewrite He, Hpos.
    replace (ms_start m + length p + length body)
      with (ms_start m + length (p ++ body)) by (rewrite length_app; lia).
    rewrite <- drop_drop, Hdrop. by rewrite drop_app_length. }
  destruct Htail as [Hnil|(c & t & Hct & Hc)].
  - left. rewrite Hnil in Hde.
    assert (length (drop (ms_end m) s) = 0) as Hl by by rewrite Hde.
    rewrite length_drop in Hl. lia.
  - right. exists c. split; [|done].
    rewrite <- (Nat.add_0_r (ms_end m)), <- lookup_drop, Hde, Hct. done.
Qed.

End LineComments.

Section LineCommentSpans.
Context {U : UnicodeData}.

Lemma run_literal_start (dotall : bool) (p : str) (x : regex) (st e : mstate) :
  In e (run dotall (RSeq (rlit_of p) x) st) → ∃ b, m_rest st = (p ++ b) ++ m_rest e.
Proof.
  intros He. apply run_seq_inv in He as (mid & Hmid & He).
  destruct (run_rlit_of dotall p st) as [Hno Hyes].
  destruct (startswith p (m_rest st)) eqn:Esw.
  2:{ rewrite (Hno eq_refl) in Hmid. done. }
  destruct (Hyes eq_refl) as [prev' Hrun]. rewrite Hrun in Hmid.
  destruct Hmid as [<-|[]].
  apply run_consumed in He as (b & Hrest & _). cbn [m_rest] in Hrest.
  apply startswith_split in Esw. rewrite Hrest in Esw.
  exists b. by rewrite <- (assoc_L (++)).
Qed.

Lemma finditer_literal_start (dotall : bool) (p : str) (x : regex) (s : str) (m : rmatch) :
  In m (finditer dotall (RSeq (rlit_of p) x) s) → ∃ b, group0 s m = p ++ b.
Proof.
  intros Hm.
  apply finditer_group0 in Hm as (prev & e & He & _ & _ & _ & Hdrop & _).
  apply run_literal_start in He as [b Hb]. cbn [m_rest] in Hb.
  exists b. apply (app_inv_tail (m_rest e)). by rewrite <- Hdrop.
Qed.

Lemma finditer_literal_start_alt (dotall : bool) (p1 p2 : str) (x1 x2 : regex)
      (s : str) (m : rmatch) :
  In m (finditer dotall (RAlt (RSeq (rlit_of p1) x1) (RSeq (rlit_of p2) x2)) s) →
  ∃ b, group0 s m = p1 ++ b ∨ group0 s m = p2 ++ b.
Proof.
  intros Hm.
  apply finditer_group0 in Hm as (prev & e & He & _ & _ & _ & Hdrop & _).
  apply run_alt_inv in He as [He|He];
    apply run_literal_start in He as [b Hb]; cbn [m_rest] in Hb;
    exists b; [left|right]; apply (app_inv_tail (m_rest e)); by rewrite <- Hdrop.
Qed.

Lemma dot_run_no_newline (body : str) :
  Forall (λ c, cs_mem false CDot c = true) body → newline ∉ body.
Proof.
  intros Hall Hin. rewrite Forall_forall in Hall. specialize (Hall _ Hin).
  simpl in Hall. done.
Qed.

Lemma line_comment_match (p : str) (s : str) (m : rmatch) :
  p ≠ [] → newline ∉ p →
  In m (finditer false (RSeq (rlit_of p) (RStar true (RSet CDot))) s) →
  (newline ∉ group0 s m) ∧ (ms_end m = length s ∨ s !! ms_end m = Some newline).
Proof.
  intros Hp Hnl Hm.
  apply finditer_prefix_run in Hm as (body & Hg & Hall & _ & Hend); [|done].
  split.
  - rewrite Hg. intros [H|H]%elem_of_app; [done|].
    by apply (dot_run_no_newline body).
  - destruct Hend as [?|(c & Hc & Hdot)]; [by left|right].
    simpl in Hdot. apply negb_false_iff, Z.eqb_eq in Hdot. by subst c.
Qed.

(** X4. A [#] comment of a Python file and a [//] comment of a file with
    C comments run to the end of their line: the span holds no line break
    and stops at the end of the buffer or in front of a line break. *)
Theorem X4_line_comment_ends_with_line (content ext : str) (d : comment_data) :
  d ∈ extract_comments content ext →
  (ext = u ".py" ∧ startswith (u "#") (c_text d) = true) ∨
  (dict_get ext comment_patterns = Some c_like ∧ startswith (u "//") (c_text d) = true) →
  (newline ∉ c_text d) ∧
  (c_end d = length content ∨ content !! c_end d = Some newline).
Proof.
  intros Hd Hcase. unfold extract_comments in Hd.
  assert (∃ single multi,
            dict_get ext comment_patterns =
              Some {| single_line := RSeq (rlit_of single) (RStar true (RSet CDot));
                      multi_line := multi |} ∧
            single ≠ [] ∧ (newline ∉ single) ∧
            startswith single (c_text d) = true ∧
            (∀ m, In m (finditer true multi content) →
                  startswith single (group0 content m) = false))
    as (single & multi & Hpats & Hne & Hnl & Hstart & Hmulti).
  { destruct Hcase as [[-> Hs]|[Hc Hs]].
    - exists (u "#"), py_block. split; [done|]. split; [done|].
      split; [vm_compute; intros H; repeat (apply elem_of_cons in H as [H|H]; [done|]);
              by apply elem_of_nil in H|].
      split; [done|]. intros m Hm. unfold py_block, rlit in Hm.
      apply finditer_literal_start_alt in Hm as [b [-> | ->]]; done.
    - exists (u "//"), block_comment. split; [done|]. split; [done|].
      split; [vm_compute; intros H; repeat (apply elem_of_cons in H as [H|H]; [done|]);
              by apply elem_of_nil in H|].
      split; [done|]. intros m Hm. unfold block_comment, rlit in Hm.
      apply finditer_literal_start in Hm as [b ->]. done. }
  rewrite Hpats in Hd. cbn [single_line multi_line] in Hd.
  rewrite sorted_desc_elem, list_elem_of_In in Hd.
  apply in_app_or in Hd as [Hd|Hd]; apply in_flat_map in Hd as (m & Hm & Hd);
    (destruct (contains_chinese (group0 content m)); [|done]);
    destruct Hd as [<-|[]]; cbn [c_text c_end] in *.
  - by apply (line_comment_match single).
  - rewrite (Hmulti m Hm) in Hstart. done.
Qed.

End LineCommentSpans.

Lemma X4_line_comment_ends_with_line_witness :
  let d := {| c_start := 7; c_end := 11; c_text := u "# 你好" |} in
  d ∈ extract_comments (U := sample_unicode) line_comment_sample (u ".py") ∧
  startswith (u "#") (c_text d) = true ∧
  line_comment_sample !! 11 = Some newline.
Proof.
  intros d.
  assert (H1 : d ∈ extract_comments (U := sample_unicode) line_comment_sample (u ".py"))
    by (vm_compute; left).
  assert (H2 : startswith (u "#") (c_text d) = true) by reflexivity.
  split; [exact H1|]. split; [exact H2|].
  destruct (X4_line_comment_ends_with_line (U := sample_unicode) line_comment_sample (u ".py") d H1
              (or_introl (conj eq_refl H2))) as [_ [Hend|Hnext]].
  - vm_compute in Hend. discriminate.
  - exact Hnext.
Defined.

(** ** String literals never overlap *)

Lemma ForallOrdPairs_cons_inv {A} (R : A → A → Prop) (x : A) (l : list A) :
  ForallOrdPairs R (x :: l) ↔ Forall (R x) l ∧ ForallOrdPairs R l.
Proof.
  split.
  - intros H. inversion H; subst. done.
  - intros [H1 H2]. by constructor.
Qed.

Lemma ForallOrdPairs_perm {A} (R : A → A → Prop) (l l' : list A) :
  (∀ a b, R a b → R b a) → l ≡ₚ l' → ForallOrdPairs R l → ForallOrdPairs R l'.
Proof.
  intros Hsym Hp. induction Hp as [|x l l' Hp IH|x y l|l1 l2 l3 H1 IH1 H2 IH2]; intros H.
  - done.
  - apply ForallOrdPairs_cons_inv in H as [Hx H].
    apply ForallOrdPairs_cons_inv. split; [by rewrite <- Hp|by apply IH].
  - apply ForallOrdPairs_cons_inv in H as [Hy H].
    apply ForallOrdPairs_cons_inv in H as [Hx H].
    apply Forall_cons in Hy as [Hyx Hy].
    apply ForallOrdPairs_cons_inv. split.
    + constructor; [by apply Hsym|done].
    + by apply ForallOrdPairs_cons_inv.
  - auto.
Qed.

Lemma ForallOrdPairs_impl_in {A} (R R' : A → A → Prop) (P : A → Prop) (l : list A) :
  (∀ a b, P a → P b → R a b → R' a b) →
  Forall P l → ForallOrdPairs R l → ForallOrdPairs R' l.
Proof.
  intros Himp. induction l as [|x l IH]; intros HP H; [constructor|].
  apply Forall_cons in HP as [Hx HP].
  apply ForallOrdPairs_cons_inv in H as [Hfx H].
  apply ForallOrdPairs_cons_inv. split; [|by apply IH].
  rewrite Forall_forall in HP, Hfx. apply Forall_forall. intros y Hy.
  apply Himp; auto.
Qed.

Lemma ForallOrdPairs_and {A} (R1 R2 : A → A → Prop) (l : list A) :
  ForallOrdPairs R1 l → ForallOrdPairs R2 l →
  ForallOrdPairs (λ a b, R1 a b ∧ R2 a b) l.
Proof.
  induction l as [|x l IH]; intros H1 H2; [constructor|].
  apply ForallOrdPairs_cons_inv in H1 as [Hx1 H1].
  apply ForallOrdPairs_cons_inv in H2 as [Hx2 H2].
  apply ForallOrdPairs_cons_inv. split; [|by apply IH].
  rewrite Forall_forall in Hx1, Hx2. apply Forall_forall. intros y Hy. auto.
Qed.

Lemma StronglySorted_pairs {A} (R : A → A → Prop) (l : list A) :
  StronglySorted R l → ForallOrdPairs R l.
Proof.
  induction 1 as [|x l Hs IH Hx]; [constructor|].
  apply ForallOrdPairs_cons_inv. done.
Qed.

Lemma ascending_pairs (ms : list rmatch) :
  ∀ lo, ascending lo ms →
    Forall (λ m, lo ≤ ms_start m ∧ ms_start m ≤ ms_end m) ms ∧
    ForallOrdPairs (λ a b, ms_end a ≤ ms_start b) ms.
Proof.
  induction ms as [|m ms IH]; intros lo H; [split; constructor|].
  simpl in H. destruct H as (H1 & H2 & H3).
  destruct (IH _ H3) as [Hall Hpairs]. split.
  - constructor; [done|]. eapply Forall_impl; [exact Hall|]. simpl. intros; lia.
  - apply ForallOrdPairs_cons_inv. split; [|done].
    eapply Forall_impl; [exact Hall|]. simpl. intros; lia.
Qed.

Section StringSpans.
Context {U : UnicodeData}.

(** Two spans side by side. *)
Lemma strings_side_by_side (content ext : str) :
  ForallOrdPairs (λ a b, s_end a ≤ s_start b ∨ s_end b ≤ s_start a)
                 (extract_strings content ext).
Proof.
  unfold extract_strings.
  eapply ForallOrdPairs_perm; [|symmetry; apply sorted_desc_perm|].
  { intros a b [H|H]; [by right|by left]. }
  destruct (ascending_pairs _ _ (finditer_ascending false string_pattern content))
    as [_ Hpairs].
  induction Hpairs as [|m ms Hm Hpairs IH]; [constructor|].
  cbn [flat_map]. destruct (contains_chinese _); [|exact IH].
  cbn [app]. apply ForallOrdPairs_cons_inv. split; [|exact IH].
  apply Forall_forall. intros d Hd. apply list_elem_of_In, in_flat_map in Hd
    as (m' & Hm' & Hd).
  destruct (contains_chinese _); [|done]. destruct Hd as [<-|[]]. cbn.
  left. rewrite Forall_forall in Hm. apply Hm. by apply list_elem_of_In.
Qed.

Lemma strings_nonempty (content ext : str) :
  Forall (λ d, s_start d < s_end d) (extract_strings content ext).
Proof.
  apply Forall_forall. intros d Hd.
  assert (element_of_string d ∈ elements_of content ext) as Hel.
  { unfold elements_of. rewrite sorted_desc_elem. apply elem_of_app. right.
    apply list_elem_of_fmap. by exists d. }
  pose proof (elements_of_wellformed content ext) as Hw.
  rewrite Forall_forall in Hw. by destruct (Hw _ Hel) as [H _].
Qed.

(** X5. The spans of [extract_strings] come by descending start offset and
    each one ends where the one before it in the list starts, or further
    left: two string spans never overlap. *)
Theorem X5_string_spans_disjoint (content ext : str) :
  StronglySorted (λ a b, s_start b ≤ s_start a) (extract_strings content ext) ∧
  ForallOrdPairs (λ a b, s_end b ≤ s_start a) (extract_strings content ext).
Proof.
  assert (Hs : StronglySorted (λ a b, s_start b ≤ s_start a) (extract_strings content ext))
    by apply (sorted_desc_sorted s_start).
  split; [done|].
  eapply (ForallOrdPairs_impl_in _ _ (λ d, s_start d < s_end d));
    [|apply strings_nonempty|
     apply (ForallOrdPairs_and _ _ _ (StronglySorted_pairs _ _ Hs)
                               (strings_side_by_side content ext))].
  simpl. intros a b Ha Hb [Hsort Hside]. lia.
Qed.

Context {T : Translator}.

Lemma string_elements_disjoint (content ext : str) :
  extract_comments content ext = [] →
  ForallOrdPairs (λ a b, ¬ overlap a b) (elements_of content ext).
Proof.
  intros Hc. unfold elements_of. rewrite Hc. cbn [map app].
  eapply ForallOrdPairs_perm; [|symmetry; apply sorted_desc_perm|].
  { unfold overlap. intros a b H. tauto. }
  pose proof (strings_side_by_side content ext) as H.
  induction H as [|d l Hd H IH]; [constructor|].
  cbn [map]. apply ForallOrdPairs_cons_inv. split; [|exact IH].
  rewrite Forall_map. eapply Forall_impl; [exact Hd|].
  unfold overlap. simpl. intros x Hx. lia.
Qed.

(** X6. For a file type without comment rules and without identifier
    rules, the buffer that [process_file] computes is the buffer read, cut
    at its string literals with source-script characters, each replaced by
    what [translate_text] makes of it, and nothing else changed. *)
Theorem X6_strings_only_patched (st : Stats) (content ext : str) :
  dict_get ext comment_patterns = None →
  existsb (str_eqb ext) identifier_extensions = false →
  (rewrite_code st content ext).1.1 =
    patched content (length content) (map edit_of (elements_of content ext)).
Proof.
  intros Hc Hi.
  assert (extract_identifiers content ext = []) as Hids
    by (unfold extract_identifiers; by rewrite Hi).
  assert (after_identifiers content ext = content) as Hafter
    by (unfold after_identifiers; by rewrite Hids).
  pose proof (rewrite_code_patched st content ext) as H. cbv zeta in H.
  rewrite Hafter in H. apply H. apply string_elements_disjoint.
  unfold extract_comments. by rewrite Hc.
Qed.

End StringSpans.

Lemma X6_strings_only_patched_witness :
  dict_get (u ".txt") comment_patterns = None ∧
  (rewrite_code (U := sample_unicode) (T := sample_table) Stats_zero two_strings_sample (u ".txt")).1.1
  = u "a = " ++ [dquote] ++ u "a" ++ [dquote] ++ u " + 'x' + " ++ [dquote] ++ u "b" ++ [dquote].
Proof.
  assert (H1 : dict_get (u ".txt") comment_patterns = None) by reflexivity.
  split; [exact H1|].
  rewrite (X6_strings_only_patched (U := sample_unicode) (T := sample_table)
             Stats_zero two_strings_sample (u ".txt") H1 eq_refl).
  vm_compute. reflexivity.
Defined.

(** ** Identifier spans *)

Section IdentifierSpans.
Context {U : UnicodeData}.

Lemma run_group_inv (dotall : bool) (n : nat) (a : regex) (st e : mstate) :
  In e (run dotall (RGroup n a) st) →
  ∃ e0, In e0 (run dotall a st) ∧ e = set_cap n (m_pos st) e0.
Proof. simpl. intros H. apply in_map_iff in H as (e0 & <- & H). by exists e0. Qed.

Lemma run_wordb_inv (dotall : bool) (st e : mstate) :
  In e (run dotall RWordB st) → e = st ∧ at_boundary st = true.
Proof. simpl. destruct (at_boundary st); [|done]. by intros [<-|[]]. Qed.

(** What holds from each point to the next holds along a repetition. *)
Lemma iterate_rel (step : mstate → list mstate) (Q : mstate → mstate → Prop) (g : bool) :
  (∀ st, Q st st) → (∀ a b c, Q a b → Q b c → Q a c) →
  (∀ st e, In e (step st) → Q st e) →
  ∀ fuel st e, In e (iterate step g fuel st) → Q st e.
Proof.
  intros Hrefl Htrans Hstep. induction fuel as [|f IH]; intros st e He.
  - simpl in He. destruct He as [<-|[]]. apply Hrefl.
  - simpl in He.
    assert (e = st ∨ In e (flat_map (λ st', if m_pos st <? m_pos st'
                                           then iterate step g f st' else []) (step st)))
      as [->|Hmore].
    { destruct g.
      - apply in_app_or in He as [He|[<-|[]]]; [by right|by left].
      - destruct He as [<-|He]; [by left|by right]. }
    + apply Hrefl.
    + apply in_flat_map in Hmore as (mid & Hmid & He').
      destruct (m_pos st <? m_pos mid); [|done].
      eapply Htrans; [by apply Hstep|by apply IH].
Qed.

Lemma star_set_caps (dotall g : bool) (cs : cset) (st e : mstate) :
  In e (run dotall (RStar g (RSet cs)) st) → m_caps e = m_caps st.
Proof.
  rewrite run_star_eq.
  apply (iterate_rel _ (λ a b, m_caps b = m_caps a)); [done|congruence|].
  intros st' e' He'. by apply run_set_inv in He' as (_ & _ & _ & _ & _ & ?).
Qed.

(** A match of the usage pattern: group 1 is the whole match, and the match
    is one CJK character followed by identifier characters. *)
Lemma usage_pattern_inv (st e : mstate) :
  In e (run false variable_usage_pattern st) →
  m_caps e = (1, (m_pos st, m_pos e)) :: m_caps st ∧
  ∃ c body, m_rest st = (c :: body) ++ m_rest e ∧
            is_cjk c = true ∧
            Forall (λ x, cs_mem false ident_char x = true) body.
Proof.
  unfold variable_usage_pattern. intros H.
  apply run_seq_inv in H as (m1 & H1 & H).
  apply run_wordb_inv in H1 as [-> _].
  apply run_seq_inv in H as (m2 & H2 & H3).
  apply run_wordb_inv in H3 as [-> _].
  apply run_group_inv in H2 as (e0 & H2 & ->).
  apply run_seq_inv in H2 as (m3 & H3 & H4).
  apply run_set_inv in H3 as (c & Hr3 & Hc & Hp3 & _ & Hcaps3).
  pose proof (star_set_caps _ _ _ _ _ H4) as Hcaps4.
  rewrite run_star_eq in H4.
  apply (iterate_inv _ (λ p, ∃ x, p = [x] ∧ cs_mem false ident_char x = true))
    in H4 as (pieces & [Hr4 Hp4] & Hpieces).
  2:{ intros st' e' He'. apply run_set_inv in He' as (x & Hr & Hx & Hp & _).
      exists [x]. split; [split; simpl; [done|lia]|]. by exists x. }
  split.
  - cbn [set_cap m_caps m_pos]. f_equal. by rewrite Hcaps4, Hcaps3.
  - exists c, (concat pieces). cbn [set_cap m_rest]. split.
    + by rewrite Hr3, Hr4.
    + split; [exact Hc|].
      clear -Hpieces. induction Hpieces as [|p ps (x & -> & Hx) _ IH]; [constructor|].
      simpl. by constructor.
Qed.

Lemma run_pos_le (dotall : bool) (r : regex) (st e : mstate) :
  In e (run dotall r st) → m_pos st ≤ m_pos e.
Proof. intros H. apply run_consumed in H as (b & _ & Hp). lia. Qed.

Lemma declaration_pattern_advances (st e : mstate) :
  In e (run false variable_pattern st) → m_pos st < m_pos e.
Proof.
  unfold variable_pattern. intros H.
  apply run_seq_inv in H as (m1 & H1 & H).
  apply run_wordb_inv in H1 as [-> _].
  apply run_seq_inv in H as (m2 & H2 & H).
  apply run_pos_le in H2.
  apply run_seq_inv in H as (m3 & H3 & H).
  apply run_pos_le in H.
  unfold RPlus in H3. apply run_seq_inv in H3 as (m3a & H3a & H3).
  apply run_set_inv in H3a as (c & _ & _ & Hp & _).
  apply run_pos_le in H3. lia.
Qed.

Lemma extract_identifiers_inv (content ext : str) (d : identifier_data) :
  d ∈ extract_identifiers content ext →
  i_start d < i_end d ∧ i_end d ≤ length content ∧
  i_text d = slice (i_start d) (i_end d) content ∧
  i_full_match d = i_text d ∧
  contains_chinese (i_name d) = true ∧
  (i_type d = variable_declaration ∨
   i_type d = variable_usage ∧ i_name d = i_text d ∧
   ∃ c body, i_name d = c :: body ∧ is_cjk c = true ∧
             Forall (λ x, cs_mem false ident_char x = true) body).
Proof.
  unfold extract_identifiers. destruct (negb _); [by intros H%elem_of_nil|].
  intros Hd. rewrite sorted_desc_elem, list_elem_of_In in Hd.
  apply in_app_or in Hd as [Hd|Hd]; apply in_flat_map in Hd as (m & Hm & Hd).
  - destruct (contains_chinese (strip (group 2 content m))) eqn:Ec; [|done].
    destruct Hd as [<-|[]]. cbn.
    destruct (finditer_bounds _ _ _ _ Hm) as [Hend Hlen].
    apply finditer_group0 in Hm as (prev & e & He & _ & Hpos & _).
    apply declaration_pattern_advances in He. cbn [m_pos] in He.
    repeat split; try done; try lia. by left.
  - destruct (_ || _); [done|].
    destruct (contains_chinese (group 1 content m)) eqn:Ec; [|done].
    destruct Hd as [<-|[]]. cbn.
    destruct (finditer_bounds _ _ _ _ Hm) as [Hend Hlen].
    apply finditer_group0 in Hm as (prev & e & He & _ & Hpos & Hcaps & Hdrop & _).
    apply usage_pattern_inv in He as (Hcap & c & body & Hrest & Hc & Hbody).
    cbn [m_pos m_rest m_caps] in *.
    assert (group 1 content m = group0 content m) as Hg.
    { unfold group, group0. rewrite Hcaps, Hcap. cbn. by rewrite Hpos. }
    assert (group0 content m = c :: body) as Hg0.
    { apply (app_inv_tail (m_rest e)). by rewrite <- Hdrop. }
    rewrite Hg in *. rewrite Hg0 in Hend. cbn [length] in Hend.
    repeat split; try done; try lia. right. repeat split; try done.
    exists c, body. by rewrite Hg0.
Qed.

Lemma extract_identifiers_sorted (content ext : str) :
  StronglySorted (λ a b, i_start b ≤ i_start a) (extract_identifiers content ext).
Proof.
  unfold extract_identifiers. destruct (negb _); [constructor|].
  apply (sorted_desc_sorted i_start).
Qed.

(** X7. [extract_identifiers] returns nothing outside the six file types
    with C-like declarations.  Every span it returns lies in the buffer, is
    not empty, carries the text of its range as [text] and [full_match], and
    has a name with a source-script character; the name of a usage span is
    its text, begins with a CJK character and goes on with CJK characters,
    ASCII letters, digits and underscores.  The spans come by descending
    start offset. *)
Theorem X7_identifier_spans (content ext : str) :
  (existsb (str_eqb ext) identifier_extensions = false →
   extract_identifiers content ext = []) ∧
  Forall (λ d, i_start d < i_end d ∧ i_end d ≤ length content ∧
               i_text d = slice (i_start d) (i_end d) content ∧
               i_full_match d = i_text d ∧
               contains_chinese (i_name d) = true ∧
               (i_type d = variable_declaration ∨
                i_type d = variable_usage ∧ i_name d = i_text d ∧
                ∃ c body, i_name d = c :: body ∧ is_cjk c = true ∧
                          Forall (λ x, cs_mem false ident_char x = true) body))
         (extract_identifiers content ext) ∧
  StronglySorted (λ a b, i_start b ≤ i_start a) (extract_identifiers content ext).
Proof.
  split; [|split].
  - intros H. unfold extract_identifiers. by rewrite H.
  - apply Forall_forall. intros d Hd. by apply (extract_identifiers_inv content ext).
  - apply extract_identifiers_sorted.
Qed.

End IdentifierSpans.

(** ** Gating and failure *)

Section Gating.
Context {U : UnicodeData} {T : Translator}.

(** X8. Script gating: a comment without source-script characters comes
    back from [translate_text] as it is, and so does a string whose content
    and an identifier whose name has none, whatever the translator would
    answer. *)
Theorem X8_script_gating :
  (∀ text ctx, contains_chinese text = false → translate_text text comment ctx = text) ∧
  (∀ d, contains_chinese (s_content d) = false →
        translate_text (s_text d) string_literal (CtxString d) = s_text d) ∧
  (∀ d, contains_chinese (i_name d) = false →
        i_type d = variable_declaration ∨ i_type d = variable_usage →
        translate_text (i_text d) (i_type d) (CtxIdentifier d) = i_text d).
Proof.
  split; [|split].
  - intros text ctx Hc. unfold translate_text, translate_comment.
    assert (∀ n, contains_chinese (lstrip (drop n text)) = false) as H1.
    { intros n. apply (contains_chinese_sub text); [|done].
      intros c Hin%elem_of_lstrip. by apply elem_of_drop in Hin. }
    assert (∀ a b, contains_chinese (strip (slice a b text)) = false) as H2.
    { intros a b. apply (contains_chinese_sub text); [|done].
      intros c Hin%elem_of_strip. by apply elem_of_slice in Hin. }
    rewrite !H1, !H2.
    repeat match goal with
           | |- context [if ?b then _ else _] => destruct b
           end; done.
  - intros d Hc. unfold translate_text, translate_string. by rewrite Hc.
  - intros d Hc Hty. unfold translate_text, translate_identifier. rewrite Hc.
    by destruct Hty as [-> | ->].
Qed.

Lemma elements_unchanged_when_failing (content ext : str) :
  (∀ s, translate s = None) →
  existsb element_changed (elements_of content ext) = false.
Proof.
  intros Hfail. apply not_true_is_false. intros H.
  apply existsb_exists in H as (el & Hel & Hch).
  apply list_elem_of_In in Hel. unfold elements_of in Hel.
  rewrite sorted_desc_elem in Hel.
  assert (new_text el = e_text el) as Heq.
  { unfold new_text.
    apply elem_of_app in Hel as [Hel|Hel];
      apply list_elem_of_fmap in Hel as (d & -> & _).
    - by apply fallback_comment.
    - by apply fallback_string. }
  unfold element_changed in Hch. by rewrite Heq, str_eqb_refl in Hch.
Qed.

(** X9. When every call of the translator raises, a file of a type
    without identifier rules is skipped: nothing is written and no counter
    moves. *)
Theorem X9_translator_down (w : World) (file_path content : str) :
  (∀ s, translate s = None) →
  read_file w file_path = Some content →
  existsb (str_eqb (lower (path_suffix file_path))) identifier_extensions = false →
  process_file w file_path = (w, Skipped).
Proof.
  intros Hfail Hread Hext.
  destruct (str_eqb (lower (path_suffix file_path)) (u ".md")) eqn:E.
  - apply str_eqb_true in E.
    rewrite (process_file_markdown w file_path content Hread E).
    assert (List.filter md_translated (split_on newline content) = []) as ->.
    { induction (split_on newline content) as [|line l IH]; [done|].
      cbn [List.filter]. unfold md_translated at 1. rewrite Hfail, andb_false_r.
      exact IH. }
    cbn. by rewrite add_counts_zero, with_stats_same.
  - unfold process_file. rewrite Hread, E. unfold rewrite_code.
    assert (extract_identifiers content (lower (path_suffix file_path)) = []) as ->
      by (unfold extract_identifiers; by rewrite Hext).
    fold (elements_of content (lower (path_suffix file_path))).
    rewrite element_loop_unchanged by (by apply elements_unchanged_when_failing).
    cbn. by rewrite with_stats_same.
Qed.

Lemma write_decision_frame (w : World) (file_path : str) (st : Stats) (new : str) (k : bool) :
  let r := if k
           then match write_file (with_stats w st) file_path new with
                | Some w' => (with_stats w' (incr_processed (stats w')), Written)
                | None => (with_stats w st, Failed)
                end
           else (with_stats w st, Skipped) in
  read_only r.1 = read_only w ∧
  (∀ p, p ≠ file_path → disk r.1 !! p = disk w !! p) ∧
  (r.2 = Skipped → disk r.1 = disk w) ∧
  (r.2 = Written → file_path ∉ read_only w).
Proof.
  destruct k; cbn zeta.
  - unfold write_file. cbn [read_only with_stats].
    destruct (bool_decide (file_path ∈ read_only w)) eqn:Ero; cbn.
    + repeat split; done.
    + apply bool_decide_eq_false in Ero. repeat split; try done.
      intros p Hp. by rewrite lookup_insert_ne.
  - cbn. repeat split; done.
Qed.


(** X10. [process_file] touches no file but its own: the content of every
    other path and the set of write-protected paths are as before.  A file
    that cannot be read gives [Failed] with nothing changed; when the write
    decision is against writing, the disk is as it was; and a file that was
    written was not write-protected. *)
Theorem X10_process_file_touches_one_path (w : World) (file_path : str) :
  let r := process_file w file_path in
  read_only r.1 = read_only w ∧
  (∀ p, p ≠ file_path → disk r.1 !! p = disk w !! p) ∧
  (read_file w file_path = None → r = (w, Failed)) ∧
  (r.2 = Skipped → disk r.1 = disk w) ∧
  (r.2 = Written → file_path ∉ read_only w).
Proof.
  intros r. subst r.
  destruct (read_file w file_path) as [content|] eqn:Hread.
  2:{ unfold process_file. rewrite Hread. cbn. repeat split; done. }
  unfold process_file. rewrite Hread.
  destruct (str_eqb _ (u ".md")).
  - destruct (process_markdown_file (stats w) content) as [[new k] st].
    destruct (write_decision_frame w file_path st new (0 <? k)) as (H1 & H2 & H3 & H4).
    repeat split; done.
  - destruct (rewrite_code (stats w) content _) as [[new st] ch].
    destruct (write_decision_frame w file_path st new (ch && negb (str_eqb new content)))
      as (H1 & H2 & H3 & H4).
    repeat split; done.
Qed.

(** X13. When the spans of the comment and string pass do not overlap one
    another, the buffer that [process_file] computes for a code file is the
    buffer left by the identifier pass, cut at these spans, each replaced by
    what [translate_text] makes of it. *)
Theorem X13_second_pass_patched (st : Stats) (content ext : str) :
  let content1 := after_identifiers content ext in
  let els := elements_of content1 ext in
  ForallOrdPairs (λ a b, ¬ overlap a b) els →
  (rewrite_code st content ext).1.1 =
    patched content1 (length content1) (map edit_of els).
Proof.
  intros content1 els Hd. rewrite rewrite_code_spec. cbn [fst].
  unfold apply_elements.
  apply element_loop_valid.
  split; [apply elements_of_wellformed|]. split; [|exact Hd].
  apply (sorted_desc_sorted e_start).
Qed.

End Gating.

Lemma X9_translator_down_witness :
  let p := u "a.py" in
  (∀ s, translate (Translator := failing_translator) s = None) ∧
  process_file (U := sample_unicode) (T := failing_translator) failing_world p
    = (failing_world, Skipped).
Proof.
  intros p.
  assert (H : ∀ s, translate (Translator := failing_translator) s = None) by done.
  split; [exact H|].
  apply (X9_translator_down (U := sample_unicode) (T := failing_translator)
           failing_world p string_and_comment_sample H).
  - vm_compute. reflexivity.
  - vm_compute. reflexivity.
Defined.

Lemma X13_second_pass_patched_witness :
  ForallOrdPairs (λ a b, ¬ overlap a b)
    (elements_of (U := sample_unicode)
       (after_identifiers (U := sample_unicode) (T := sample_table) string_and_comment_sample (u ".py"))
       (u ".py")) ∧
  (rewrite_code (U := sample_unicode) (T := sample_table) Stats_zero string_and_comment_sample (u ".py")).1.1
  = u "s = " ++ [dquote] ++ u "a" ++ [dquote] ++ u "  # b".
Proof.
  assert (H : ForallOrdPairs (λ a b, ¬ overlap a b)
    (elements_of (U := sample_unicode)
       (after_identifiers (U := sample_unicode) (T := sample_table) string_and_comment_sample (u ".py"))
       (u ".py"))).
  { vm_compute. repeat constructor. unfold overlap. simpl. lia. }
  split; [exact H|].
  rewrite (X13_second_pass_patched (U := sample_unicode) (T := sample_table)
             Stats_zero string_and_comment_sample (u ".py") H).
  vm_compute. reflexivity.
Defined.

(** ** The identifier normaliser on ASCII translations *)

Section AsciiNormalizer.
Context {U : UnicodeData}.

Lemma elem_of_underscores_aux (b : bool) (s : str) (x : Z) :
  x ∈ underscores_aux b s → x = 95%Z ∨ (x ∈ s ∧ isspace x = false).
Proof.
  revert b. induction s as [|c s IH]; intros b H; cbn in H.
  - by apply elem_of_nil in H.
  - destruct (isspace c) eqn:Ec.
    + destruct b.
      * destruct (IH _ H) as [?|[? ?]]; [by left|right; split; [by right|done]].
      * apply elem_of_cons in H as [->|H]; [by left|].
        destruct (IH _ H) as [?|[? ?]]; [by left|right; split; [by right|done]].
    + apply elem_of_cons in H as [->|H]; [right; split; [by left|done]|].
      destruct (IH _ H) as [?|[? ?]]; [by left|right; split; [by right|done]].
Qed.

Lemma elem_of_lower (s : str) (x : Z) :
  x ∈ lower s → ∃ c, c ∈ s ∧ (c = 931%Z ∨ x ∈ lower_char c).
Proof.
  unfold lower. generalize (@nil Z) as before.
  induction s as [|c s IH]; intros before H; cbn [lower_from] in H.
  - by apply elem_of_nil in H.
  - apply elem_of_app in H as [H|H].
    + exists c. split; [by left|].
      destruct (Z.eqb_spec c 931); [by left|by right].
    + destruct (IH _ H) as (c' & Hc' & Hx). exists c'. split; [by right|done].
Qed.

Lemma lower_char_ident (c x : Z) :
  (c < 128)%Z → is_word c = true → x ∈ lower_char c → c_ident_char x = true.
Proof.
  intros Hc Hw Hx. unfold lower_char, is_word, isalnum, is_ascii in *.
  assert ((c <? 128)%Z = true) as E by (apply Z.ltb_lt; lia).
  rewrite E in *. unfold c_ident_char, in_range in *.
  destruct (_ && _)%bool eqn:Eup in Hx;
    apply list_elem_of_singleton in Hx; subst x.
  - apply andb_true_iff in Eup as [H1%Z.leb_le H2%Z.leb_le].
    apply orb_true_iff; left. apply orb_true_iff; left.
    apply andb_true_iff; split; apply Z.leb_le; lia.
  - apply orb_true_iff in Hw as [Hw|Hw].
    + apply orb_true_iff in Hw as [Hw|Hw].
      * apply orb_true_iff in Hw as [Hw|Hw].
        -- by rewrite Hw, orb_true_r.
        -- by rewrite Hw in Eup.
      * by rewrite Hw.
    + by rewrite Hw, orb_true_r.
Qed.

Lemma snake_of_ident (t : str) :
  Forall (λ c, (c < 128)%Z) t → Forall (λ c, c_ident_char c = true) (snake_of t).
Proof.
  intros Ht. apply Forall_forall. intros x Hx.
  unfold snake_of in Hx. apply elem_of_lower in Hx as (c & Hc & Hx).
  apply elem_of_underscores_aux in Hc as [->|[Hc Hsp]].
  - destruct Hx as [Hx|Hx]; [done|].
    vm_compute in Hx. apply list_elem_of_singleton in Hx. by subst x.
  - apply elem_of_strip in Hc. unfold strip_punctuation in Hc.
    apply list_elem_of_In, filter_In in Hc as [Hin Hk]. apply list_elem_of_In in Hin.
    rewrite Hsp, orb_false_r in Hk.
    pose proof (proj1 (Forall_forall _ _) Ht c Hin) as Hlt. cbn beta in Hlt.
    destruct Hx as [Hx|Hx]; [lia|].
    by apply (lower_char_ident c x).
Qed.

Lemma ident_char_digit (c : Z) :
  c_ident_char c = true → isdigit c = in_range 48 57 c.
Proof.
  intros H. unfold isdigit, is_ascii.
  assert ((c <? 128)%Z = true) as ->; [|done].
  apply Z.ltb_lt. unfold c_ident_char, in_range in H.
  repeat (apply orb_true_iff in H as [H|H]);
    rewrite ?andb_true_iff, ?Z.leb_le, ?Z.eqb_eq in H; lia.
Qed.

(** X11. When the translator answers in ASCII, the name that
    [translate_identifier_name] returns is the pointer marker, if the
    original name had one, and then only lower-case letters, digits and
    underscores, the first of which is not a digit.  (Nothing says that
    there is a first one.) *)
Theorem X11_ascii_identifier {T : Translator} (name t : str) :
  translate (bare_name name) = Some t →
  Forall (λ c, (c < 128)%Z) t →
  ∃ body, translate_identifier_name name = pointer_prefix name ++ body ∧
          Forall (λ c, c_ident_char c = true) body ∧
          ∀ c rest, body = c :: rest → in_range 48 57 c = false.
Proof.
  intros Htr Ht. exists (digit_prefix (snake_of t) ++ snake_of t).
  split; [by apply translate_identifier_name_success|].
  pose proof (snake_of_ident t Ht) as Hs.
  unfold digit_prefix. destruct (snake_of t) as [|c s] eqn:E.
  - split; [done|]. intros c rest H. discriminate.
  - pose proof (Forall_inv Hs) as Hc. cbn beta in Hc.
    rewrite (ident_char_digit c Hc).
    destruct (in_range 48 57 c) eqn:Ed.
    + split.
      * apply Forall_app. split; [|done]. vm_compute. repeat constructor.
      * intros c' rest H. vm_compute in H. injection H as <- _. done.
    + split; [done|]. intros c' rest H. cbn in H. injection H as <- _. done.
Qed.

(** ** The comment style *)

Lemma endswith_app (p s : str) : endswith p (s ++ p) = true.
Proof. unfold endswith. rewrite rev_app_distr. apply startswith_app. Qed.

(** X12. [translate_comment] keeps the style of the comment: its result
    opens and closes with the marks the comment had. *)
Theorem X12_comment_style {T : Translator} (comment_text r opening closing : str) :
  (opening, closing) ∈ comment_delimiters →
  startswith opening comment_text = true →
  endswith closing comment_text = true →
  translate_comment comment_text = Some r →
  startswith opening r = true ∧ endswith closing r = true.
Proof.
  intros Hin Hs He Hr.
  assert (∀ mid, startswith opening (opening ++ mid) = true) as Hopen
    by (intros; apply startswith_app).
  pose proof (startswith_split _ _ Hs) as E.
  set (rest := drop (length opening) comment_text) in E. clearbody rest.
  unfold comment_delimiters in Hin.
  repeat (apply elem_of_cons in Hin as [Hin|Hin]); try (by apply elem_of_nil in Hin);
    injection Hin as -> ->; unfold translate_comment in Hr.
  - rewrite Hs in Hr. destruct (contains_chinese _).
    + destruct (translate _) as [t|]; [|done]. apply (inj Some) in Hr; subst r. done.
    + apply (inj Some) in Hr; subst r. done.
  - assert (startswith (u "#") comment_text = false) as E1 by (by rewrite E).
    rewrite E1, Hs in Hr. destruct (contains_chinese _).
    + destruct (translate _) as [t|]; [|done]. apply (inj Some) in Hr; subst r. done.
    + apply (inj Some) in Hr; subst r. done.
  - assert (startswith (u "#") comment_text = false) as E1 by (by rewrite E).
    assert (startswith (u "//") comment_text = false) as E2 by (by rewrite E).
    rewrite E1, E2, Hs, He in Hr. cbn [andb] in Hr. destruct (contains_chinese _).
    + destruct (translate _) as [t|]; [|done]. cbn [mbind option_bind] in Hr.
      destruct (str_in _ _).
      * destruct (mapM _ _) as [ls|]; [|done]. cbn [mbind option_bind] in Hr.
        apply (inj Some) in Hr; subst r. split; [done|].
        rewrite !(assoc_L (++)). apply endswith_app.
      * apply (inj Some) in Hr; subst r. split; [done|].
        change (u " */") with ([32%Z] ++ u "*/").
        rewrite !(assoc_L (++)). apply endswith_app.
    + apply (inj Some) in Hr; subst r. done.
  - assert (startswith (u "#") comment_text = false) as E1 by (by rewrite E).
    assert (startswith (u "//") comment_text = false) as E2 by (by rewrite E).
    assert (startswith (u "/*") comment_text = false) as E3 by (by rewrite E).
    rewrite E1, E2, E3, Hs, He in Hr. cbn [andb] in Hr. destruct (contains_chinese _).
    + destruct (translate _) as [t|]; [|done]. cbn [mbind option_bind] in Hr.
      apply (inj Some) in Hr; subst r. split; [done|].
      change (u " -->") with ([32%Z] ++ u "-->").
      rewrite !(assoc_L (++)). apply endswith_app.
    + apply (inj Some) in Hr; subst r. done.
Qed.

End AsciiNormalizer.

Lemma X11_ascii_identifier_witness :
  translate (Translator := loud_translator) (bare_name (U := sample_unicode) (u "*猫"))
    = Some (u "2 Big-Cats!") ∧
  Forall (λ c, (c < 128)%Z) (u "2 Big-Cats!") ∧
  ∃ body,
    translate_identifier_name (U := sample_unicode) (T := loud_translator) (u "*猫")
      = pointer_prefix (u "*猫") ++ body ∧
    Forall (λ c, c_ident_char c = true) body ∧
    ∀ c rest, body = c :: rest → in_range 48 57 c = false.
Proof.
  assert (H : translate (Translator := loud_translator)
                (bare_name (U := sample_unicode) (u "*猫")) = Some (u "2 Big-Cats!"))
    by reflexivity.
  assert (Ht : Forall (λ c, (c < 128)%Z) (u "2 Big-Cats!"))
    by (vm_compute; repeat constructor).
  split; [exact H|]. split; [exact Ht|].
  exact (X11_ascii_identifier (U := sample_unicode) (T := loud_translator)
           (u "*猫") (u "2 Big-Cats!") H Ht).
Defined.

Lemma X12_comment_style_witness :
  let text := u "/* 注意 */" in
  translate_comment (U := sample_unicode) (T := note_translator) text = Some (u "/* note */") ∧
  startswith (u "/*") (u "/* note */") = true ∧ endswith (u "*/") (u "/* note */") = true.
Proof.
  intros text.
  assert (H : translate_comment (U := sample_unicode) (T := note_translator) text
              = Some (u "/* note */")) by (vm_compute; reflexivity).
  split; [exact H|].
  apply (X12_comment_style (U := sample_unicode) (T := note_translator)
           text (u "/* note */") (u "/*") (u "*/")).
  - vm_compute. do 2 right. left.
  - vm_compute. reflexivity.
  - vm_compute. reflexivity.
  - exact H.
Defined.

(** ** The directory level *)



Section DirectoryProperties.
Context {U : UnicodeData} {T : Translator}.

Lemma count_loop (l : list (str * list str)) (n : nat) :
  fold_left
    (λ total '(root, files),
       fold_left
         (λ total file,
            let file_extension := lower (path_suffix file) in
            if existsb (str_eqb file_extension) (map fst comment_patterns)
            then S total else total)
         files total) l n
  = n + length (flat_map (λ '(root, files),
                            map (os_path_join root) (List.filter supported files)) l).
Proof.
  revert n. induction l as [|[root files] l IH]; intros n; [cbn; lia|].
  cbn [fold_left flat_map]. rewrite IH, length_app, length_map.
  assert (∀ m, fold_left
            (λ total file,
               let file_extension := lower (path_suffix file) in
               if existsb (str_eqb file_extension) (map fst comment_patterns)
               then S total else total) files m
          = m + length (List.filter supported files)) as ->; [|lia].
  induction files as [|f files IHf]; intros m; [cbn; lia|].
  cbn [fold_left List.filter]. rewrite IHf. unfold supported at 2.
  destruct (existsb _ _); cbn [length]; lia.
Qed.

Lemma count_total_files_visited (root_dir : str) (t : dir_tree) :
  count_total_files root_dir t = length (visited root_dir t).
Proof. unfold count_total_files. by rewrite count_loop. Qed.

Lemma process_loop (l : list (str * list str)) (w : World) :
  fold_left
    (λ w '(root, files),
       fold_left
         (λ w file,
            let file_path := os_path_join root file in
            let file_extension := lower (path_suffix file) in
            if existsb (str_eqb file_extension) (map fst comment_patterns)
            then (process_file w file_path).1 else w)
         files w) l w
  = fold_left (λ w p, (process_file w p).1)
      (flat_map (λ '(root, files),
                   map (os_path_join root) (List.filter supported files)) l) w.
Proof.
  revert w. induction l as [|[root files] l IH]; intros w; [done|].
  cbn [fold_left flat_map]. rewrite IH, fold_left_app. f_equal.
  clear IH. revert w. induction files as [|f files IHf]; intros w; [done|].
  cbn [fold_left List.filter]. rewrite IHf. unfold supported at 2.
  by destruct (existsb _ _).
Qed.

(** The two nested loops of [process_directory] and its early return, as
    one loop over the files that [count_total_files] counted. *)
Lemma process_directory_visited (w : World) (root_dir : str) (t : dir_tree) :
  process_directory w root_dir t =
    (fold_left (λ w p, (process_file w p).1) (visited root_dir t) w,
     length (visited root_dir t)).
Proof.
  unfold process_directory. rewrite count_total_files_visited.
  destruct (Nat.eqb_spec (length (visited root_dir t)) 0) as [E|E].
  - apply length_zero_iff_nil in E. by rewrite E.
  - by rewrite process_loop.
Qed.


Lemma process_file_counters (w : World) (p : str) :
  let w' := (process_file w p).1 in
  processed_files (stats w) ≤ processed_files (stats w') ≤ S (processed_files (stats w)) ∧
  translated_comments (stats w) ≤ translated_comments (stats w') ∧
  translated_strings (stats w) ≤ translated_strings (stats w') ∧
  translated_markdown (stats w) ≤ translated_markdown (stats w') ∧
  translated_identifiers (stats w) ≤ translated_identifiers (stats w').
Proof.
  cbn zeta. unfold process_file.
  destruct (read_file w p) as [content|]; [|cbn; lia].
  assert (∀ st new (k : bool),
            processed_files st = processed_files (stats w) →
            let r := if k
                     then match write_file (with_stats w st) p new with
                          | Some w' => (with_stats w' (incr_processed (stats w')), Written)
                          | None => (with_stats w st, Failed)
                          end
                     else (with_stats w st, Skipped) in
            processed_files (stats w) ≤ processed_files (stats r.1)
              ≤ S (processed_files (stats w)) ∧
            translated_comments (stats r.1) = translated_comments st ∧
            translated_strings (stats r.1) = translated_strings st ∧
            translated_markdown (stats r.1) = translated_markdown st ∧
            translated_identifiers (stats r.1) = translated_identifiers st) as Hshape.
  { intros st new k Hp. destruct k; cbn zeta.
    - unfold write_file. destruct (bool_decide _); cbn; rewrite Hp; lia.
    - cbn. rewrite Hp. lia. }
  destruct (str_eqb _ (u ".md")).
  - rewrite process_markdown_file_spec.
    destruct (Hshape (add_counts 0 0
                        (length (List.filter md_translated (split_on newline content))) 0
                        (stats w))
                     (join [newline] (map md_line (split_on newline content)))
                     (0 <? length (List.filter md_translated (split_on newline content)))
                     eq_refl) as (H1 & H2 & H3 & H4 & H5).
    rewrite H2, H3, H4, H5. cbn. split; [exact H1|lia].
  - rewrite rewrite_code_spec.
    match goal with
    | |- context [if ?k then match write_file (with_stats w ?st) p ?new with _ => _ end
                  else _] =>
        destruct (Hshape st new k eq_refl) as (H1 & H2 & H3 & H4 & H5)
    end.
    rewrite H2, H3, H4, H5. cbn. split; [exact H1|lia].
Qed.

Lemma files_loop_counters (l : list str) (w : World) :
  let w' := fold_left (λ w p, (process_file w p).1) l w in
  processed_files (stats w) ≤ processed_files (stats w')
    ≤ processed_files (stats w) + length l ∧
  translated_comments (stats w) ≤ translated_comments (stats w') ∧
  translated_strings (stats w) ≤ translated_strings (stats w') ∧
  translated_markdown (stats w) ≤ translated_markdown (stats w') ∧
  translated_identifiers (stats w) ≤ translated_identifiers (stats w').
Proof.
  revert w. induction l as [|p l IH]; intros w; cbn zeta; [cbn; lia|].
  cbn [fold_left length].
  pose proof (process_file_counters w p) as H. cbn zeta in H.
  pose proof (IH (process_file w p).1) as H'. cbn zeta in H'. lia.
Qed.


(** X14. At the end of [process_directory] the number of processed files
    is at most what it was plus [total_files], so a fresh translator never
    reports more files than it counted; and no counter has gone down. *)
Theorem X14_progress_within_total (w : World) (root_dir : str) (t : dir_tree) :
  let r := process_directory w root_dir t in
  r.2 = count_total_files root_dir t ∧
  processed_files (stats w) ≤ processed_files (stats r.1)
    ≤ processed_files (stats w) + r.2 ∧
  translated_comments (stats w) ≤ translated_comments (stats r.1) ∧
  translated_strings (stats w) ≤ translated_strings (stats r.1) ∧
  translated_markdown (stats w) ≤ translated_markdown (stats r.1) ∧
  translated_identifiers (stats w) ≤ translated_identifiers (stats r.1).
Proof.
  cbn zeta. rewrite process_directory_visited, count_total_files_visited.
  split; [done|]. apply files_loop_counters.
Qed.


(** X16. For a name as a directory lists it, the extension that the loop
    of [process_directory] tests on the name is the one that
    [process_file] reads off the joined path. *)
Theorem X16_extension_of_joined_path (root file : str) :
  entry_name file = true →
  path_suffix (os_path_join root file) = path_suffix file.
Proof.
  unfold entry_name. intros H.
  apply andb_true_iff in H as [H Hns]. apply andb_true_iff in H as [Hne Hnd].
  apply negb_true_iff, str_eqb_false in Hne. apply negb_true_iff, str_eqb_false in Hnd.
  assert (47%Z ∉ file) as Hfree.
  { intros Hin%list_elem_of_In. apply (proj1 (forallb_forall _ _) Hns) in Hin.
    by rewrite Z.eqb_refl in Hin. }
  assert (path_name file = file) as Hname.
  { unfold path_name. rewrite split_on_no_sep by done. cbn [List.filter].
    apply str_eqb_false in Hne. apply str_eqb_false in Hnd. by rewrite Hne, Hnd. }
  assert (∀ a, path_name (a ++ 47%Z :: file) = file) as Hjoin.
  { intros a. unfold path_name.
    assert (∀ a, split_on 47 (a ++ 47%Z :: file) = split_on 47 a ++ [file]) as ->.
    { clear a. induction a as [|c a IH]; cbn [app split_on].
      - by rewrite Z.eqb_refl, split_on_no_sep.
      - rewrite IH. destruct (c =? 47)%Z; [done|].
        pose proof (split_on_nonempty 47 a).
        by destruct (split_on 47 a). }
    rewrite List.filter_app. cbn [List.filter].
    apply str_eqb_false in Hne. apply str_eqb_false in Hnd. rewrite Hne, Hnd.
    cbn [negb andb]. apply last_last. }
  assert (path_name (os_path_join root file) = file) as Hp.
  { unfold os_path_join.
    assert (startswith [47%Z] file = false) as ->.
    { destruct file as [|c f]; [done|]. cbn [startswith].
      apply not_elem_of_cons in Hfree as [Hc _].
      rewrite andb_true_r. apply Z.eqb_neq. congruence. }
    destruct (str_eqb root []) eqn:Er; cbn [orb].
    - apply str_eqb_true in Er. by subst root.
    - destruct (endswith [47%Z] root) eqn:Ee.
      + unfold endswith in Ee. cbn [rev app] in Ee.
        destruct (rev root) as [|c r] eqn:Erev; [done|]. cbn [startswith] in Ee.
        rewrite andb_true_r in Ee. apply Z.eqb_eq in Ee. subst c.
        apply (f_equal (@rev Z)) in Erev. rewrite rev_involutive in Erev.
        cbn [rev] in Erev. rewrite Erev, <- (assoc_L (++)). apply Hjoin.
      + apply Hjoin. }
  unfold path_suffix. by rewrite Hp, Hname.
Qed.

(** X18. A tree whose files have no source-script character is left as it
    is, with every counter, whatever the translator answers. *)
Theorem X18_nothing_to_translate (w : World) (root_dir : str) (t : dir_tree) :
  (∀ p content, disk w !! p = Some content → contains_chinese content = false) →
  process_directory w root_dir t = (w, count_total_files root_dir t).
Proof.
  intros Hc. rewrite process_directory_visited, count_total_files_visited.
  f_equal. induction (visited root_dir t) as [|p l IH]; [done|].
  cbn [fold_left].
  destruct (read_file w p) as [content|] eqn:Hread.
  - rewrite (process_file_no_chinese w p content Hread); [done|].
    by apply (Hc p).
  - unfold process_file at 2. by rewrite Hread.
Qed.

End DirectoryProperties.

Lemma X16_extension_of_joined_path_witness :
  entry_name (u "main.CPP") = true ∧
  path_suffix (os_path_join (u "src/lib") (u "main.CPP")) = u ".CPP".
Proof.
  assert (H : entry_name (u "main.CPP") = true) by (vm_compute; reflexivity).
  split; [exact H|].
  rewrite (X16_extension_of_joined_path (u "src/lib") (u "main.CPP") H).
  vm_compute. reflexivity.
Defined.

Lemma X18_nothing_to_translate_witness :
  let w := {| stats := Stats_zero;
              disk := {[ u "p/a.py" := u "x = 1" ]};
              read_only := ∅ |} in
  process_directory (U := sample_unicode) (T := failing_translator) w (u "p") sample_tree
    = (w, 2).
Proof.
  intros w.
  rewrite (X18_nothing_to_translate (U := sample_unicode) (T := failing_translator)
             w (u "p") sample_tree).
  - f_equal.
  - intros p content Hp. subst w. cbn [disk] in Hp.
    apply lookup_singleton_Some in Hp as [_ <-]. vm_compute. reflexivity.
Defined.

(** ** The identifier pass *)

Section IdentifierPass.
Context {U : UnicodeData} {T : Translator}.

Lemma identifier_loop_as_elements (ids : list identifier_data) :
  ∀ c st ch st' ch',
    (fold_left identifier_step ids (c, st, ch)).1.1 =
    (fold_left element_step (map element_of_identifier ids) (c, st', ch')).1.1.
Proof.
  induction ids as [|d ids IH]; intros c st ch st' ch'; [done|].
  cbn [fold_left map]. rewrite identifier_step_cases, element_step_cases.
  change (element_changed (element_of_identifier d)) with (identifier_changed d).
  destruct (identifier_changed d); apply IH.
Qed.

(** X17. When the spans of [extract_identifiers] do not overlap one
    another, the buffer after the identifier pass is the buffer read, cut at
    these spans, each replaced by what [translate_text] makes of it. *)
Theorem X17_identifier_pass_patched (content ext : str) :
  let ids := extract_identifiers content ext in
  ForallOrdPairs (λ a b, ¬ (i_start a < i_end b ∧ i_start b < i_end a)) ids →
  after_identifiers content ext =
    patched content (length content)
      (map (λ d, (i_start d, i_end d,
                  translate_text (i_text d) (i_type d) (CtxIdentifier d))) ids).
Proof.
  intros ids Hd. unfold after_identifiers. fold ids.
  rewrite (identifier_loop_as_elements ids content Stats_zero false Stats_zero false).
  rewrite (element_loop_valid content).
  - by rewrite map_map.
  - pose proof (extract_identifiers_sorted content ext) as Hs. fold ids in Hs.
    split; [|split].
    + rewrite Forall_map. apply Forall_forall. intros d Hin.
      destruct (extract_identifiers_inv content ext d Hin) as (? & ? & ? & _). done.
    + clear -Hs. induction Hs as [|d l Hs IH Hall]; cbn; constructor; [done|].
      by rewrite Forall_map.
    + clear -Hd. induction Hd as [|d l Hall Hd IH]; cbn; constructor; [|done].
      by rewrite Forall_map.
Qed.

End IdentifierPass.

Lemma X17_identifier_pass_patched_witness :
  ForallOrdPairs (λ a b, ¬ (i_start a < i_end b ∧ i_start b < i_end a))
    (extract_identifiers (U := sample_unicode) usages_sample (u ".c")) ∧
  after_identifiers (U := sample_unicode) (T := sample_table) usages_sample (u ".c")
    = u "a = b + 1;".
Proof.
  assert (H : ForallOrdPairs (λ a b, ¬ (i_start a < i_end b ∧ i_start b < i_end a))
                (extract_identifiers (U := sample_unicode) usages_sample (u ".c"))).
  { vm_compute. repeat constructor; lia. }
  split; [exact H|].
  rewrite (X17_identifier_pass_patched (U := sample_unicode) (T := sample_table)
             usages_sample (u ".c") H).
  vm_compute. reflexivity.
Defined.
